(** * Charset extension pipeline and analyzer: a shallow embedding

    The development follows [extend-charset.js] and [analyze-charset.js].
    JavaScript strings are sequences of UTF-16 code units, JavaScript
    numbers that the scripts handle are integers or one of the three
    non-finite values, and the two external libraries (the stroke lookup
    of cnchar and the collation of [localeCompare]) are section variables. *)

From Stdlib Require Import ZArith List Bool Lia Permutation Sorted.
Import ListNotations.
Open Scope Z_scope.
Set Warnings "-register-all".
Set Default Proof Using "Type".

(** ** Strings *)

Definition JsStr := list Z.

Definition str_eq_dec : forall a b : JsStr, {a = b} + {a <> b} :=
  list_eq_dec Z.eq_dec.

Definition str_eqb (a b : JsStr) : bool :=
  if str_eq_dec a b then true else false.

Definition TAB : Z := 9.
Definition LF : Z := 10.
Definition CR : Z := 13.
Definition SPACE : Z := 32.
Definition COMMA : Z := 44.
(** 画, U+753B *)
Definition HUA : Z := 30011.

(** The characters matched by [\s] in a regular expression, which are
    also the ones [String.prototype.trim] strips. *)
Definition is_ws (c : Z) : bool :=
  ((9 <=? c) && (c <=? 13)) || (c =? 32) || (c =? 160) || (c =? 5760)
  || ((8192 <=? c) && (c <=? 8202)) || (c =? 8232) || (c =? 8233)
  || (c =? 8239) || (c =? 8287) || (c =? 12288) || (c =? 65279).

(** The characters [.] refuses without the [s] flag. *)
Definition is_line_term (c : Z) : bool :=
  (c =? 10) || (c =? 13) || (c =? 8232) || (c =? 8233).

(** [\d] *)
Definition is_digit (c : Z) : bool := (48 <=? c) && (c <=? 57).

Fixpoint trimStart (s : JsStr) : JsStr :=
  match s with
  | [] => []
  | c :: r => if is_ws c then trimStart r else s
  end.

Definition trimEnd (s : JsStr) : JsStr := rev (trimStart (rev s)).

Definition trim (s : JsStr) : JsStr := trimEnd (trimStart s).

Fixpoint starts_with (pat s : JsStr) : bool :=
  match pat with
  | [] => true
  | p :: pat' =>
      match s with
      | [] => false
      | c :: s' => (p =? c) && starts_with pat' s'
      end
  end.

(** [s.indexOf(pat)], counted from position [i]; -1 when [pat] is absent. *)
Fixpoint indexOf_from (pat s : JsStr) (i : Z) : Z :=
  match s with
  | [] => if starts_with pat [] then i else -1
  | _ :: s' => if starts_with pat s then i else indexOf_from pat s' (i + 1)
  end.

Definition indexOf (s pat : JsStr) : Z := indexOf_from pat s 0.

(** [s.slice(0, i)] and [s.slice(i)] for [i >= 0]. *)
Definition slice_to (s : JsStr) (i : Z) : JsStr := firstn (Z.to_nat i) s.
Definition slice_from (s : JsStr) (i : Z) : JsStr := skipn (Z.to_nat i) s.

Fixpoint join (sep : JsStr) (l : list JsStr) : JsStr :=
  match l with
  | [] => []
  | [x] => x
  | x :: r => x ++ sep ++ join sep r
  end.

(** [s.split(/\r?\n/)]: [cur] is the line being read. *)
Fixpoint split_lines_from (cur s : JsStr) : list JsStr :=
  match s with
  | [] => [cur]
  | c :: rest =>
      if c =? LF then cur :: split_lines_from [] rest
      else
        match rest with
        | d :: rest' =>
            if (c =? CR) && (d =? LF) then cur :: split_lines_from [] rest'
            else split_lines_from (cur ++ [c]) rest
        | [] => split_lines_from (cur ++ [c]) rest
        end
  end.

Definition split_lines (s : JsStr) : list JsStr := split_lines_from [] s.

(** [s.replace(/\s+/g, r)]: every maximal run of white space becomes [r];
    [in_run] tells that the previous unit was white space. *)
Fixpoint replace_ws_from (r : JsStr) (in_run : bool) (s : JsStr) : JsStr :=
  match s with
  | [] => []
  | c :: rest =>
      if is_ws c then
        (if in_run then [] else r) ++ replace_ws_from r true rest
      else c :: replace_ws_from r false rest
  end.

Definition replace_ws (r s : JsStr) : JsStr := replace_ws_from r false s.

(** [s.split(' ')] *)
Fixpoint split_space_from (cur s : JsStr) : list JsStr :=
  match s with
  | [] => [cur]
  | c :: rest =>
      if c =? SPACE then cur :: split_space_from [] rest
      else split_space_from (cur ++ [c]) rest
  end.

Definition split_space (s : JsStr) : list JsStr := split_space_from [] s.

(** [s.split(/[\s,]+/g)]: a maximal run of separators is one cut. *)
Definition is_sep (c : Z) : bool := is_ws c || (c =? COMMA).

Fixpoint split_seps_from (cur : JsStr) (in_run : bool) (s : JsStr)
  : list JsStr :=
  match s with
  | [] => [cur]
  | c :: rest =>
      if is_sep c then
        if in_run then split_seps_from cur true rest
        else cur :: split_seps_from [] true rest
      else split_seps_from (cur ++ [c]) false rest
  end.

Definition split_seps (s : JsStr) : list JsStr := split_seps_from [] false s.

(** ** Numbers

    [Fin z] is an integer-valued number (stroke counts, lengths, sizes and
    the limit are all such); the non-finite values are kept because the
    scripts test for them. *)

Inductive JsNum : Type :=
| Fin (z : Z)
| PInf
| NInf
| NaN.

Definition num_eq_dec : forall a b : JsNum, {a = b} + {a <> b}.
Proof. decide equality; apply Z.eq_dec. Defined.

Definition num_eqb (a b : JsNum) : bool :=
  if num_eq_dec a b then true else false.

(** [n > 0] *)
Definition num_pos (n : JsNum) : bool :=
  match n with
  | Fin z => 0 <? z
  | PInf => true
  | NInf | NaN => false
  end.

(** [n < 0] *)
Definition num_neg (n : JsNum) : bool :=
  match n with
  | Fin z => z <? 0
  | NInf => true
  | PInf | NaN => false
  end.

(** [!n] on a number *)
Definition num_falsy (n : JsNum) : bool :=
  match n with
  | Fin z => z =? 0
  | NaN => true
  | PInf | NInf => false
  end.

(** [Number.isFinite(n)] *)
Definition num_finite (n : JsNum) : bool :=
  match n with
  | Fin _ => true
  | _ => false
  end.

(** [a - b] *)
Definition num_sub (a b : JsNum) : JsNum :=
  match a, b with
  | NaN, _ | _, NaN => NaN
  | Fin x, Fin y => Fin (x - y)
  | Fin _, PInf => NInf
  | Fin _, NInf => PInf
  | PInf, PInf => NaN
  | PInf, _ => PInf
  | NInf, NInf => NaN
  | NInf, _ => NInf
  end.

(** Decimal digits of a natural number, most significant first. *)
Fixpoint dec_digits (fuel : nat) (z : Z) (acc : JsStr) : JsStr :=
  match fuel with
  | O => acc
  | S f =>
      let acc' := (48 + z mod 10) :: acc in
      if z <? 10 then acc' else dec_digits f (z / 10) acc'
  end.

Definition nat_to_string (z : Z) : JsStr :=
  dec_digits (S (Z.to_nat (Z.log2 z))) z [].

(** The text a template literal gives for a number. *)
Definition num_to_string (n : JsNum) : JsStr :=
  match n with
  | Fin z => if z <? 0 then 45 :: nat_to_string (- z) else nat_to_string z
  | PInf => [73; 110; 102; 105; 110; 105; 116; 121]
  | NInf => [45; 73; 110; 102; 105; 110; 105; 116; 121]
  | NaN => [78; 97; 78]
  end.

(** ** Values returned by the stroke library, and calls that may throw *)

Inductive JsVal : Type :=
| VUndef
| VNull
| VBool (b : bool)
| VNum (n : JsNum)
| VStr (s : JsStr)
| VArr (l : list JsVal).

Inductive Outcome (A : Type) : Type :=
| Ret (a : A)
| Throw.

Arguments Ret {A} a.
Arguments Throw {A}.

(** [v.length]: a [TypeError] on [undefined] and [null], [undefined]
    (here [None]) on booleans and numbers. *)
Definition length_of (v : JsVal) : Outcome (option JsNum) :=
  match v with
  | VUndef | VNull => Throw
  | VBool _ | VNum _ => Ret None
  | VStr s => Ret (Some (Fin (Z.of_nat (length s))))
  | VArr l => Ret (Some (Fin (Z.of_nat (length l))))
  end.

(** [Array.isArray(v) && v.length > 0] *)
Definition nonempty_array (v : JsVal) : option (list JsVal) :=
  match v with
  | VArr (x :: l) => Some (x :: l)
  | _ => None
  end.

(** ** Stable sorting

    [Array.prototype.sort] is stable; for a comparator that orders the
    elements consistently its result is the one insertion sort computes.
    The comparator returns a number; a positive result puts the second
    argument first. *)

Section Sort.
Context {A : Type}.
Variable cmp : A -> A -> JsNum.

Fixpoint sort_insert (x : A) (l : list A) : list A :=
  match l with
  | [] => [x]
  | y :: r => if num_pos (cmp x y) then y :: sort_insert x r else x :: l
  end.

Definition js_sort (l : list A) : list A := fold_right sort_insert [] l.
End Sort.

(** ** Sets and maps in insertion order *)

Definition JsSet := list JsStr.

Definition set_has (ch : JsStr) (s : JsSet) : bool :=
existsb (str_eqb ch) s.

Definition set_add (ch : JsStr) (s : JsSet) : JsSet :=
if set_has ch s then s else s ++ [ch].

(** [new Set(iterable)] and the loops [for (x of xs) s.add(x)] *)
Definition set_add_all (s : JsSet) (xs : list JsStr) : JsSet :=
fold_left (fun acc x => set_add x acc) xs s.

Definition set_size (s : JsSet) : Z := Z.of_nat (length s).

Definition StrokeMap := list (JsNum * JsSet).

Fixpoint map_has (n : JsNum) (m : StrokeMap) : bool :=
match m with
| [] => false
| (k, _) :: r => num_eqb n k || map_has n r
end.

(** [map.get(n)], the empty set standing for a missing key where the
  source never asks for one. *)
Fixpoint map_get (n : JsNum) (m : StrokeMap) : JsSet :=
match m with
| [] => []
| (k, s) :: r => if num_eqb n k then s else map_get n r
end.

(** [map.set(n, s)] *)
Fixpoint map_set (n : JsNum) (s : JsSet) (m : StrokeMap) : StrokeMap :=
match m with
| [] => [(n, s)]
| (k, s0) :: r => if num_eqb n k then (k, s) :: r else (k, s0) :: map_set n s r
end.

Definition map_keys (m : StrokeMap) : list JsNum := map fst m.

(** ** Text helpers of the loader *)

Fixpoint span (p : Z -> bool) (s : JsStr) : JsStr * JsStr :=
match s with
| [] => ([], [])
| c :: r =>
    if p c then let (a, b) := span p r in (c :: a, b) else ([], s)
end.

Definition is_hua_ws (c : Z) : bool := (c =? HUA) || is_ws c.

Definition is_nil {A : Type} (l : list A) : bool :=
match l with
| [] => true
| _ => false
end.

(** [(.+)$] on what follows the tab: not empty, no line terminator. *)
Definition dot_plus_end (s : JsStr) : bool :=
negb (is_nil s) && forallb (fun c => negb (is_line_term c)) s.

(** [[画\s]*\t(.+)$] on [s] by backtracking: the class is greedy, so a
  longer run is tried first and the tab is looked for where it fails.
  The result is the second group. *)
Fixpoint after_digits (s : JsStr) : option JsStr :=
match s with
| [] => None
| c :: r =>
    match (if is_hua_ws c then after_digits r else None) with
    | Some body => Some body
    | None => if (c =? TAB) && dot_plus_end r then Some r else None
    end
end.

(** [line.match(/^(\d+)[画\s]*\t(.+)$/)], giving [m[2]]. The digits are
  taken greedily; giving one back cannot help, since neither the class
  nor the tab matches a digit. *)
Definition match_line (line : JsStr) : option JsStr :=
let (ds, r) := span is_digit line in
if is_nil ds then None else after_digits r.

(** [for (const ch of s)]: iteration by code point, a surrogate pair
  being one item of length two. *)
Definition is_high (c : Z) : bool := (55296 <=? c) && (c <=? 56319).
Definition is_low (c : Z) : bool := (56320 <=? c) && (c <=? 57343).

Fixpoint code_points (s : JsStr) : list JsStr :=
match s with
| [] => []
| c :: r =>
    match r with
    | d :: r' =>
        if is_high c && is_low d then [c; d] :: code_points r'
        else [c] :: code_points r
    | [] => [[c]]
    end
end.

(** The basic CJK block, U+4E00 to U+9FFF. *)
Definition in_cjk (c : Z) : bool := (19968 <=? c) && (c <=? 40959).

(** The literal of [heuristicCandidates], before white space is removed. *)
Definition heuristicLiteral : JsStr :=
[21756; 32; 26279; 32; 22247; 32; 22007; 32; 21992; 32; 21670; 32;
 21571; 32; 21652; 32; 21658; 32; 21691; 32; 21673; 32; 21999; 32;
 22103; 32; 21667; 32; 21652; 32; 21543; 32; 21591; 32; 22052; 32;
 21981; 32; 22191; 32; 31389; 32; 30733; 32; 32548; 32; 38718; 32;
 22840; 32; 28843; 32; 37239; 32; 25769; 32; 20315; 32; 31995; 32;
 36538; 32; 24179; 32; 20869; 32; 21367; 32; 25171; 32; 21345; 32;
 31181; 32; 33609; 32; 24067; 32; 36947; 32; 36187; 32; 36947; 32;
 27969; 32; 37327; 32; 20986; 32; 22280; 32; 30772; 32; 22280; 32;
 36393; 32; 38647; 32; 22475; 32; 38647; 32; 36393; 32; 22353; 32;
 22260; 32; 35266; 32; 25220; 32; 34989; 32; 22797; 32; 30424; 32;
 25286; 32; 35299; 32; 31181; 32; 23376; 32; 36171; 32; 33021; 32;
 20114; 32; 32852; 32; 32593; 32; 31639; 32; 27861; 32; 27169; 32;
 22411; 32; 25968; 25454; 32; 38598; 32; 35821; 32; 26009; 32; 24211;
 32; 24037; 32; 19994; 32; 21270; 32; 25968; 32; 23383; 32; 21270;
 32; 26234; 32; 33021; 32; 21270; 32; 31639; 32; 21147; 32; 20975;
 32; 25746; 32; 26421; 32; 25289; 32; 36213; 32; 38065; 32; 23385;
 32; 26446; 32; 21608; 32; 21556; 32; 37073; 32; 29579; 32; 20891;
 32; 30922; 32; 33459; 32; 23071; 32; 38634; 32; 38686; 32; 20025;
 32; 38745; 32; 20912; 32; 24420; 32; 20426; 32; 26480; 32; 21338;
 32; 25991; 32; 23376; 32; 36713; 32; 26771; 32; 33841; 32; 27803;
 32; 25991; 32; 27803; 32; 29747; 32; 21487; 32; 21487; 32; 20048;
 32; 20048; 32; 22925; 32; 22925; 32; 26133; 32; 31098; 32; 31054;
 32; 33275; 32; 23480; 32; 30355; 32; 36713; 32; 30355; 32; 23431;
 32; 30355; 32; 22825; 32; 21338; 32; 23398; 32; 28006; 32; 19996;
 32; 24464; 32; 27719; 32; 38389; 32; 34892; 32; 22025; 32; 23450;
 32; 26494; 32; 27743; 32; 38738; 32; 28006; 32; 22857; 32; 36132;
 32; 26472; 32; 28006; 32; 26222; 32; 38464; 32; 34425; 32; 21475;
 32; 38271; 32; 23425; 32; 40644; 32; 28006; 32; 38745; 32; 23433;
 32; 26397; 32; 38451; 32; 28023; 32; 28096; 32; 26124; 32; 24179;
 32; 39034; 32; 20041; 32; 20016; 32; 21488; 32; 30707; 32; 26223;
 32; 23665; 32; 19996; 32; 22478; 32; 35199; 32; 22478; 32; 22825;
 32; 27827; 32; 36234; 32; 31168; 32; 28023; 32; 29664; 32; 30058;
 32; 31162; 32; 21335; 32; 27801; 32; 40644; 32; 22484; 32; 30333;
 32; 20113; 32; 26791; 32; 24030; 32; 26690; 32; 26519; 32; 26611;
 32; 24030; 32; 21271; 32; 28023; 32; 38054; 32; 24030; 32; 38450;
 32; 22478; 32; 28207; 32; 23815; 32; 24038; 32; 19996; 32; 20852;
 32; 29664; 32; 28023; 32; 20013; 32; 23665; 32; 27733; 32; 22836;
 32; 27733; 32; 23614; 32; 26753; 32; 23665; 32; 27743; 32; 27721;
 32; 27743; 32; 23736; 32; 27743; 32; 22799; 32; 30810; 32; 21475;
 32; 27494; 32; 26124; 32; 27721; 32; 38451; 32; 38738; 32; 23665;
 32; 27946; 32; 23665; 32; 34081; 32; 22378; 32; 26143; 32; 38142;
 32; 21306; 32; 22359; 32; 20999; 32; 29255; 32; 28145; 32; 24230;
 32; 23398; 32; 20064; 32; 24378; 32; 21270; 32; 23398; 32; 20064;
 32; 36801; 32; 31227; 32; 23398; 32; 20064; 32; 32852; 32; 37030;
 32; 23398; 32; 20064; 32; 21442; 32; 25968; 32; 26799; 32; 24230;
 32; 26435; 32; 37325; 32; 21521; 32; 37327; 32; 20195; 32; 30721;
 32; 20179; 32; 36719; 32; 20214; 32; 21253; 32; 31649; 32; 29702;
 32; 22120; 32; 25509; 32; 21475; 32; 21327; 32; 35758; 32; 20195;
 32; 29702; 32; 26381; 32; 21153; 32; 34394; 32; 25311; 32; 21270;
 32; 23481; 32; 22120; 32; 38236; 32; 20687; 32; 20113; 32; 21407;
 32; 29983; 32; 36793; 32; 32536; 32; 35745; 32; 31639; 32; 29289;
 32; 32852; 32; 32593; 32; 25968; 32; 25454; 32; 24211; 32; 32531;
 32; 23384; 32; 28040; 32; 24687; 32; 38431; 32; 21015; 32; 20013;
 32; 38388; 32; 20214; 32; 24494; 32; 26381; 32; 21153; 32; 32593;
 32; 20851; 32; 37492; 32; 26435; 32; 21152; 32; 23494; 32; 35299;
 32; 23494; 32; 32534; 32; 30721; 32; 35299; 32; 30721; 32; 23383;
 32; 33410; 32; 27969; 32; 24335; 32; 22871; 32; 25509; 32; 23383;
 32; 20840; 32; 26632; 32; 21069; 32; 31471; 32; 21518; 32; 31471;
 32; 20013; 32; 21488; 32; 31471; 32; 21040; 32; 31471; 32; 21315;
 32; 23618; 32; 39292; 32; 22522; 32; 24314; 32; 21487; 32; 35266;
 32; 27979; 32; 24615; 32; 21387; 32; 27979; 32; 31283; 32; 24577;
 32; 28784; 32; 24230; 32; 37329; 32; 19988; 32; 31574; 32; 30053].

Definition heuristicCandidates : JsStr := replace_ws [] heuristicLiteral.

(** The two anchors of [formatOutput]: "1000 个次常用字大全" and
  "1234567890". *)
Definition PREFIX_ANCHOR : JsStr :=
[49; 48; 48; 48; 32; 20010; 27425; 24120; 29992; 23383; 22823; 20840].
Definition SUFFIX_ANCHOR : JsStr :=
[49; 50; 51; 52; 53; 54; 55; 56; 57; 48].

(** ** The file tree the font scan walks

  A directory entry is a directory with the result of reading it, a
  regular file with the result of opening it as a font and iterating
  its [characterSet], or something else (a link, a device). *)
Inductive DirEntry : Type :=
| EDir (name : JsStr) (listing : Outcome (list DirEntry))
| EFile (name : JsStr) (glyphs : Outcome (list Z))
| EOther (name : JsStr).

(** What the scripts print. *)
Inductive Event : Type :=
| IncludeMerged (path : JsStr) (entries : Z)
| IncludeFailed (path : JsStr)
| Counts (existing candidates total limit : Z)
| FontFailed (path : JsStr)
| FontScanFailed
| Truncated (size : Z)
| PreviewStats (stats : list (JsNum * Z))
| Generated.

(** ** extend-charset.js *)

Module Extend.
Section Pipeline.
(** [cnchar.stroke(ch)] and [cnchar.stroke(ch, 'order')] *)
Variable cn_stroke : JsStr -> Outcome JsVal.
Variable cn_order : JsStr -> Outcome JsVal.
(** [a.localeCompare(b, 'zh-Hans-CN')] *)
Variable localeCompare : JsStr -> JsStr -> JsNum.
(** [exts.has(path.extname(name).toLowerCase())] and [path.join] *)
Variable has_font_ext : JsStr -> bool.
Variable path_join : JsStr -> JsStr -> JsStr.

Definition add_single (s : JsSet) (ch : JsStr) : JsSet :=
  if is_nil ch then s
  else if (length ch =? 1)%nat then set_add ch s else s.

Definition parse_line (charSet : JsSet) (line : JsStr) : JsSet :=
  match match_line line with
  | Some m2 =>
      fold_left add_single
        (split_space (trim (replace_ws [SPACE] m2))) charSet
  | None => charSet
  end.

Definition parseExistingChars (text : JsStr) : JsSet :=
  fold_left parse_line (split_lines text) [].

Definition buildCandidateSet : JsSet :=
  fold_left add_single (code_points heuristicCandidates) [].

(** Lines 71 to 74: the length of the first element of the array. *)
Definition first_length (ch : JsStr) : option JsNum :=
  match cn_order ch with
  | Throw => None
  | Ret order =>
      match nonempty_array order with
      | Some l =>
          match length_of (hd VUndef l) with
          | Throw => None
          | Ret len => len
          end
      | None => None
      end
  end.

(** [strokeOf]: [None] is [undefined]. One [try] covers both calls, so
    a throw of the first one ends the function. *)
Definition strokeOf (ch : JsStr) : option JsNum :=
  match cn_stroke ch with
  | Throw => None
  | Ret (VNum n) => if num_pos n then Some n else first_length ch
  | Ret _ => first_length ch
  end.

(** [groupByStroke], one turn of the loop: skip on [!n], create the
    bucket when the key is new, add the character to it. *)
Definition group_step (m : StrokeMap) (ch : JsStr) : StrokeMap :=
  match strokeOf ch with
  | None => m
  | Some n =>
      if num_falsy n then m
      else
        let m1 := if map_has n m then m else map_set n [] m in
        map_set n (set_add ch (map_get n m1)) m1
  end.

Definition groupByStroke (chars : list JsStr) : StrokeMap :=
  fold_left group_step chars [].

Definition sorted_keys (m : StrokeMap) : list JsNum :=
  js_sort num_sub (map_keys m).

Definition sorted_bucket (m : StrokeMap) (n : JsNum) : list JsStr :=
  js_sort localeCompare (map_get n m).

Definition prefix_of (raw : JsStr) : JsStr :=
  let headerEndIdx := indexOf raw PREFIX_ANCHOR in
  if -1 <? headerEndIdx then trim (slice_to raw headerEndIdx) else [].

Definition suffix_of (raw : JsStr) : JsStr :=
  let suffixStartIdx := indexOf raw SUFFIX_ANCHOR in
  if -1 <? suffixStartIdx then trim (slice_from raw suffixStartIdx) else [].

Definition body_line (m : StrokeMap) (n : JsNum) : JsStr :=
  num_to_string n ++ [HUA; TAB] ++ join [SPACE] (sorted_bucket m n) ++ [LF].

Definition body_of (m : StrokeMap) : JsStr :=
  fold_left (fun body n => body ++ body_line m n) (sorted_keys m) [].

(** [formatOutput], the text of [content.txt] being [raw]. *)
Definition formatOutput (raw : JsStr) (m : StrokeMap) : JsStr :=
  trim (prefix_of raw ++ [LF; LF] ++ body_of m ++ [LF; LF] ++ suffix_of raw)
    ++ [LF].

(** One include file of [main], lines 133 to 142. *)
Definition include_tokens (t : JsStr) : list JsStr :=
  filter (fun s => negb (is_nil s)) (map trim (split_seps t)).

Definition add_length1 (s : JsSet) (x : JsStr) : JsSet :=
  if (length x =? 1)%nat then set_add x s else s.

Definition include_step (st : JsSet * list Event)
  (inc : JsStr * Outcome JsStr) : JsSet * list Event :=
  let (union, log) := st in
  match snd inc with
  | Ret t =>
      let arr := include_tokens t in
      (fold_left add_length1 arr union,
       log ++ [IncludeMerged (fst inc) (Z.of_nat (length arr))])
  | Throw => (union, log ++ [IncludeFailed (fst inc)])
  end.

(** Lines 203 to 213: one font file. *)
Definition font_step (p : JsStr) (glyphs : Outcome (list Z))
  (st : JsSet * list Event) : JsSet * list Event :=
  let (chars, log) := st in
  match glyphs with
  | Ret codes =>
      (fold_left (fun acc code => if in_cjk code then set_add [code] acc
                                  else acc) codes chars, log)
  | Throw => (chars, log ++ [FontFailed p])
  end.

Definition Stack := list (JsStr * Outcome (list DirEntry)).

(** Lines 198 to 215: the entries of one directory [d]. *)
Fixpoint scan_items (d : JsStr) (items : list DirEntry)
  (stack : Stack) (st : JsSet * list Event)
  : Stack * (JsSet * list Event) :=
  match items with
  | [] => (stack, st)
  | it :: rest =>
      match it with
      | EDir name listing =>
          scan_items d rest ((path_join d name, listing) :: stack) st
      | EFile name glyphs =>
          if has_font_ext name
          then scan_items d rest stack
                 (font_step (path_join d name) glyphs st)
          else scan_items d rest stack st
      | EOther _ => scan_items d rest stack st
      end
  end.

(** The [while (stack.length)] loop; the head of the list is the top of
    the stack. A directory that cannot be read throws out of the
    function. [None] only when [fuel] runs out. *)
Fixpoint scan_loop (fuel : nat) (stack : Stack) (st : JsSet * list Event)
  : option (Outcome JsSet * list Event) :=
  match stack with
  | [] => Some (Ret (fst st), snd st)
  | (d, listing) :: stack' =>
      match fuel with
      | O => None
      | S fuel' =>
          match listing with
          | Throw => Some (Throw, snd st)
          | Ret items =>
              let (stack2, st2) := scan_items d items stack' st in
              scan_loop fuel' stack2 st2
          end
      end
  end.

(** The number of directories below an entry, itself included. *)
Fixpoint dir_count (e : DirEntry) : nat :=
  match e with
  | EDir _ (Ret items) =>
      S ((fix go (l : list DirEntry) : nat :=
            match l with
            | [] => O
            | x :: r => (dir_count x + go r)%nat
            end) items)
  | EDir _ Throw => 1%nat
  | _ => O
  end.

Definition listing_count (listing : Outcome (list DirEntry)) : nat :=
  match listing with
  | Ret items => S (fold_right (fun x n => (dir_count x + n)%nat) O items)
  | Throw => 1%nat
  end.

(** [extractCharsFromFonts(dirPath)], [root] being what reading
    [dirPath] gives. *)
Definition extractCharsFromFonts (dirPath : JsStr)
  (root : Outcome (list DirEntry)) : option (Outcome JsSet * list Event) :=
  scan_loop (listing_count root) [(dirPath, root)] ([], []).

(** Lines 161 to 175. *)
Definition total_of (m : StrokeMap) : Z :=
  fold_left (fun acc k => acc + set_size (map_get k m)) (sorted_keys m) 0.

Fixpoint pick_chars (limit : Z) (picked : JsSet) (list : list JsStr)
  : JsSet :=
  match list with
  | [] => picked
  | ch :: rest =>
      if limit <=? set_size picked then picked
      else pick_chars limit (set_add ch picked) rest
  end.

Fixpoint pick_keys (limit : Z) (m : StrokeMap) (picked : JsSet)
  (keys : list JsNum) : JsSet :=
  match keys with
  | [] => picked
  | k :: rest =>
      let picked' := pick_chars limit picked (sorted_bucket m k) in
      if limit <=? set_size picked' then picked'
      else pick_keys limit m picked' rest
  end.

Definition picked_of (limit : Z) (m : StrokeMap) : JsSet :=
  pick_keys limit m [] (sorted_keys m).

Definition select (limit : Z) (m : StrokeMap) : StrokeMap :=
  if limit <? total_of m then groupByStroke (picked_of limit m) else m.

(** The options [parseArgs] returns and the files [main] reads and
    writes: [content] is the text of [content.txt] and [contentReadable]
    tells whether [fs.readFileSync(CONTENT_PATH)] returns it or throws;
    [outWritable] tells whether [fs.writeFileSync(outPath, ...)] returns
    or throws. *)
Record Inputs : Type := {
  limit : Z;
  preview : bool;
  fontDir : JsStr;
  includeFiles : list (JsStr * Outcome JsStr);
  content : JsStr;
  contentReadable : bool;
  fontRoot : Outcome (list DirEntry);
  outWritable : bool
}.

(** [readContent()], lines 29 to 32: nothing catches the exception of
    [readFileSync]. *)
Definition readContent (i : Inputs) : Outcome JsStr :=
  if contentReadable i then Ret (content i) else Throw.

(** Lines 126 to 143: the baseline, the candidates, the include files. *)
Definition merge_sources (raw : JsStr)
  (files : list (JsStr * Outcome JsStr)) : JsSet * list Event :=
  let existing := parseExistingChars raw in
  let union := set_add_all (set_add_all [] existing) buildCandidateSet in
  fold_left include_step files (union, []).

Definition union_before_fonts (i : Inputs) : JsSet * list Event :=
  merge_sources (content i) (includeFiles i).

(** Lines 146 to 156; [None] only when the scan runs out of fuel. *)
Definition union_of (i : Inputs) : option (JsSet * list Event) :=
  let (union, log) := union_before_fonts i in
  let log1 :=
    log ++ [Counts (set_size (parseExistingChars (content i)))
              (set_size buildCandidateSet) (set_size union) (limit i)] in
  match extractCharsFromFonts (fontDir i) (fontRoot i) with
  | None => None
  | Some (Ret extra, flog) => Some (set_add_all union extra, log1 ++ flog)
  | Some (Throw, flog) => Some (union, log1 ++ flog ++ [FontScanFailed])
  end.

(** What a run leaves: the text written, if any, what was printed, and
    whether it ended by an exception that nothing caught ([thrown]; the
    process then exits with a failure status). *)
Record Run : Type := {
  written : option JsStr;
  printed : list Event;
  finalMap : StrokeMap;
  thrown : bool
}.

(** [main], from line 125 on, the options being those of [i]. The two
    calls of [readContent] (line 125, and line 107 inside [formatOutput])
    and the call of [writeFileSync] (line 184) are in no [try]: their
    exception ends the run. In preview mode the function returns before
    [formatOutput]. [None] only when the scan runs out of fuel. *)
Definition main (i : Inputs) : option Run :=
  match readContent i with
  | Throw =>
      Some {| written := None; printed := []; finalMap := [];
              thrown := true |}
  | Ret _ =>
      match union_of i with
      | None => None
      | Some (union, log) =>
          let strokeMap := groupByStroke union in
          let truncated := limit i <? total_of strokeMap in
          let strokeMap' := select (limit i) strokeMap in
          let log1 :=
            if truncated
            then log ++ [Truncated (set_size (picked_of (limit i) strokeMap))]
            else log in
          if preview i then
            Some {| written := None;
                    printed := log1 ++ [PreviewStats
                      (map (fun e => (fst e, set_size (snd e))) strokeMap')];
                    finalMap := strokeMap';
                    thrown := false |}
          else
            match readContent i with
            | Throw =>
                Some {| written := None; printed := log1;
                        finalMap := strokeMap'; thrown := true |}
            | Ret raw =>
                if outWritable i then
                  Some {| written := Some (formatOutput raw strokeMap');
                          printed := log1 ++ [Generated];
                          finalMap := strokeMap';
                          thrown := false |}
                else
                  Some {| written := None; printed := log1;
                          finalMap := strokeMap'; thrown := true |}
            end
      end
  end.
End Pipeline.
End Extend.

(** ** The command line of extend-charset.js *)

(** The value of a run of digits read from the left, after [acc]. *)
Fixpoint digits_value (acc : Z) (s : JsStr) : Z :=
  match s with
  | [] => acc
  | c :: r => if is_digit c then digits_value (acc * 10 + (c - 48)) r else acc
  end.

(** [parseInt(s, 10)] on a text: white space at the start and one sign
    are skipped and the longest run of digits is read; [NaN] when there
    is no digit. *)
Definition parseInt10 (s : JsStr) : JsNum :=
  let t := trimStart s in
  let signed :=
    match t with
    | c :: r =>
        if c =? 45 then (true, r)
        else if c =? 43 then (false, r) else (false, t)
    | [] => (false, [])
    end in
  match snd signed with
  | c :: _ =>
      if is_digit c
      then Fin (if fst signed then - digits_value 0 (snd signed)
                else digits_value 0 (snd signed))
      else NaN
  | [] => NaN
  end.

Module Cli.
Section Args.
(** [process.cwd()], [path.join] and [path.resolve] *)
Variable ROOT : JsStr.
Variable path_join : JsStr -> JsStr -> JsStr.
Variable path_resolve : JsStr -> JsStr -> JsStr.

Record Options : Type := {
  limit : Z;
  outPath : JsStr;
  preview : bool;
  fontDir : JsStr;
  includeFiles : list JsStr
}.

(** "--limit", "--out", "--preview", "--fontDir", "--include" *)
Definition FLAG_LIMIT : JsStr := [45; 45; 108; 105; 109; 105; 116].
Definition FLAG_OUT : JsStr := [45; 45; 111; 117; 116].
Definition FLAG_PREVIEW : JsStr := [45; 45; 112; 114; 101; 118; 105; 101; 119].
Definition FLAG_FONTDIR : JsStr := [45; 45; 102; 111; 110; 116; 68; 105; 114].
Definition FLAG_INCLUDE : JsStr := [45; 45; 105; 110; 99; 108; 117; 100; 101].
(** "undefined", the text [parseInt] sees for a missing argument *)
Definition UNDEFINED : JsStr := [117; 110; 100; 101; 102; 105; 110; 101; 100].

Definition defaults : Options :=
  {| limit := 5800;
     outPath := path_join ROOT [99; 111; 110; 116; 101; 110; 116; 45; 101; 120; 116; 101; 110; 100; 101; 100; 46; 116; 120; 116];
     preview := false;
     fontDir := path_join ROOT [115; 114; 99];
     includeFiles := [] |}.

(** [out.limit = parseInt(v, 10) || out.limit] *)
Definition set_limit (out : Options) (v : JsStr) : Options :=
  match parseInt10 v with
  | Fin z =>
      if z =? 0 then out
      else {| limit := z; outPath := outPath out; preview := preview out;
              fontDir := fontDir out; includeFiles := includeFiles out |}
  | _ => out
  end.

(** The loop of [parseArgs]; an option takes the argument after it as
    its value whatever that is. [path.resolve] throws on a missing
    value. *)
Fixpoint parse_loop (args : list JsStr) (out : Options) : Outcome Options :=
  match args with
  | [] => Ret out
  | a :: rest =>
      if str_eqb a FLAG_LIMIT then
        match rest with
        | v :: rest' => parse_loop rest' (set_limit out v)
        | [] => Ret (set_limit out UNDEFINED)
        end
      else if str_eqb a FLAG_OUT then
        match rest with
        | v :: rest' =>
            parse_loop rest'
              {| limit := limit out; outPath := path_resolve ROOT v;
                 preview := preview out; fontDir := fontDir out;
                 includeFiles := includeFiles out |}
        | [] => Throw
        end
      else if str_eqb a FLAG_PREVIEW then
        parse_loop rest
          {| limit := limit out; outPath := outPath out; preview := true;
             fontDir := fontDir out; includeFiles := includeFiles out |}
      else if str_eqb a FLAG_FONTDIR then
        match rest with
        | v :: rest' =>
            parse_loop rest'
              {| limit := limit out; outPath := outPath out;
                 preview := preview out; fontDir := path_resolve ROOT v;
                 includeFiles := includeFiles out |}
        | [] => Throw
        end
      else if str_eqb a FLAG_INCLUDE then
        match rest with
        | v :: rest' =>
            parse_loop rest'
              {| limit := limit out; outPath := outPath out;
                 preview := preview out; fontDir := fontDir out;
                 includeFiles := includeFiles out ++ [path_resolve ROOT v] |}
        | [] => Throw
        end
      else parse_loop rest out
  end.

Definition parseArgs (args : list JsStr) : Outcome Options :=
  parse_loop args defaults.

(** An argument that is one of the three options with a path value. *)
Definition path_flag (a : JsStr) : bool :=
  str_eqb a FLAG_OUT || str_eqb a FLAG_FONTDIR || str_eqb a FLAG_INCLUDE.
End Args.
End Cli.

(** ** extend-charset.js from the command line

  [main] with its first line: the options [parseArgs] returns, then the
  run on the files these options name. *)

Module Program.
Section Script.
Variable cn_stroke : JsStr -> Outcome JsVal.
Variable cn_order : JsStr -> Outcome JsVal.
Variable localeCompare : JsStr -> JsStr -> JsNum.
Variable has_font_ext : JsStr -> bool.
Variable ROOT : JsStr.
Variable path_join : JsStr -> JsStr -> JsStr.
Variable path_resolve : JsStr -> JsStr -> JsStr.

(** The files as a run finds them: [readFileSync p] is the result of
    [fs.readFileSync(p, 'utf8')], [tree p] is what the scan reads under
    the directory [p], and [writable p] tells whether
    [fs.writeFileSync(p, ...)] returns. *)
Record Files : Type := {
  readFileSync : JsStr -> Outcome JsStr;
  tree : JsStr -> Outcome (list DirEntry);
  writable : JsStr -> bool
}.

(** [path.join(ROOT, 'content.txt')] *)
Definition CONTENT_PATH : JsStr :=
  path_join ROOT [99; 111; 110; 116; 101; 110; 116; 46; 116; 120; 116].

Definition inputs_of (fs : Files) (o : Cli.Options) : Extend.Inputs :=
  {| Extend.limit := Cli.limit o;
     Extend.preview := Cli.preview o;
     Extend.fontDir := Cli.fontDir o;
     Extend.includeFiles :=
       map (fun inc => (inc, readFileSync fs inc)) (Cli.includeFiles o);
     Extend.content :=
       match readFileSync fs CONTENT_PATH with
       | Ret raw => raw
       | Throw => []
       end;
     Extend.contentReadable :=
       match readFileSync fs CONTENT_PATH with
       | Ret _ => true
       | Throw => false
       end;
     Extend.fontRoot := tree fs (Cli.fontDir o);
     Extend.outWritable := writable fs (Cli.outPath o) |}.

(** [main()], line 124 included: nothing catches what [parseArgs]
    throws. *)
Definition main (fs : Files) (args : list JsStr) : option Extend.Run :=
  match Cli.parseArgs ROOT path_join path_resolve args with
  | Throw =>
      Some {| Extend.written := None; Extend.printed := [];
              Extend.finalMap := []; Extend.thrown := true |}
  | Ret o =>
      Extend.main cn_stroke cn_order localeCompare has_font_ext path_join
        (inputs_of fs o)
  end.
End Script.
End Program.

(** ** analyze-charset.js *)

Module Analyze.
Section Report.
Variable cn_stroke : JsStr -> Outcome JsVal.
Variable cn_order : JsStr -> Outcome JsVal.

(** [isCJK]: [ch.codePointAt(0)] of an item of the iteration. *)
Definition codePointAt0 (ch : JsStr) : Z :=
  match ch with
  | [c] => c
  | [c; d] => 65536 + (c - 55296) * 1024 + (d - 56320)
  | _ => -1
  end.

Definition isCJK (ch : JsStr) : bool := in_cjk (codePointAt0 ch).

(** The first [try]: the direct count. *)
Definition direct (ch : JsStr) : option JsNum :=
  match cn_stroke ch with
  | Ret (VNum s) => if num_finite s && num_pos s then Some s else None
  | _ => None
  end.

(** The second [try]: the length of the array the library returns. *)
Definition fallback (ch : JsStr) : option JsNum :=
  match cn_order ch with
  | Ret order =>
      match nonempty_array order with
      | Some l => Some (Fin (Z.of_nat (length l)))
      | None => None
      end
  | Throw => None
  end.

(** [strokeOf]: [None] is [null]. *)
Definition strokeOf (ch : JsStr) : option JsNum :=
  match direct ch with
  | Some s => Some s
  | None => fallback ch
  end.

Definition collect (content : JsStr) : JsSet :=
  fold_left (fun set ch => if isCJK ch then set_add ch set else set)
    (code_points content) [].

(** The histogram map [dist], in insertion order. *)
Definition Dist := list (JsNum * Z).

Fixpoint dist_get (s : JsNum) (d : Dist) : option Z :=
  match d with
  | [] => None
  | (k, v) :: r => if num_eqb s k then Some v else dist_get s r
  end.

Fixpoint dist_set (s : JsNum) (v : Z) (d : Dist) : Dist :=
  match d with
  | [] => [(s, v)]
  | (k, v0) :: r =>
      if num_eqb s k then (k, v) :: r else (k, v0) :: dist_set s v r
  end.

(** Lines 64 to 71, one turn: [(dist.get(s) || 0) + 1]. *)
Definition tally_step (st : Dist * Z) (ch : JsStr) : Dist * Z :=
  let (dist, unknown) := st in
  match strokeOf ch with
  | None => (dist, unknown + 1)
  | Some s =>
      let old := match dist_get s dist with
                 | Some v => if v =? 0 then 0 else v
                 | None => 0
                 end in
      (dist_set s (old + 1) dist, unknown)
  end.

Definition tally (set : JsSet) : Dist * Z :=
  fold_left tally_step set ([], 0).

(** The line of the report with the distribution: the pairs in
    ascending order, and the unknown count when it is positive. *)
Definition distribution_line (set : JsSet) : list (JsNum * Z) * option Z :=
  let (dist, unknown) := tally set in
  (js_sort (fun a b => num_sub (fst a) (fst b)) dist,
   if 0 <? unknown then Some unknown else None).

(** What [main] reports; [None] when the file does not exist and the
    script exits with status 1. 哼 is U+54FC and 暧 is U+66A7. *)
Record Report : Type := {
  total : Z;
  delta : Z;
  distribution : list (JsNum * Z);
  unknownShown : option Z;
  hasHeng : bool;
  hasAi : bool
}.

Definition main (file : option JsStr) : option Report :=
  match file with
  | None => None
  | Some content =>
      let set := collect content in
      Some {| total := set_size set;
              delta := set_size set - 3500;
              distribution := fst (distribution_line set);
              unknownShown := snd (distribution_line set);
              hasHeng := set_has [21756] set;
              hasAi := set_has [26279] set |}
  end.
End Report.
End Analyze.

(** ** A small stroke table and a code-unit collation for examples *)

Definition table_lookup (tbl : list (JsStr * Outcome JsVal)) (ch : JsStr)
: Outcome JsVal :=
match find (fun e => str_eqb ch (fst e)) tbl with
| Some e => snd e
| None => Ret VUndef
end.

(** 一 (1), 二 (2), 十 (2), 三 (3); 丁 has no direct count and 乙 throws. *)
Definition demo_stroke : JsStr -> Outcome JsVal :=
table_lookup
  [([19968], Ret (VNum (Fin 1))); ([20108], Ret (VNum (Fin 2)));
   ([21313], Ret (VNum (Fin 2))); ([19977], Ret (VNum (Fin 3)));
   ([19969], Ret (VNum (Fin 0))); ([20057], Throw)].

(** The stroke letters of 丁 and of 乙, one string per character. *)
Definition demo_order : JsStr -> Outcome JsVal :=
table_lookup
  [([19969], Ret (VArr [VStr [106; 107]]));
   ([20057], Ret (VArr [VStr [122]]))].

Definition unit_compare (a b : JsStr) : JsNum := Fin (hd 0 a - hd 0 b).

Definition ttf_ext (name : JsStr) : bool :=
starts_with [102; 116; 116; 46] (rev name).
Definition slash_join (d name : JsStr) : JsStr := d ++ [47] ++ name.

(** ** Notions the statements use *)

(** The direct query gives no count: it throws, or its result is not a
    number above zero. *)
Definition direct_fails (cn_stroke : JsStr -> Outcome JsVal) (ch : JsStr)
  : Prop :=
  match cn_stroke ch with
  | Ret (VNum n) => num_pos n = false
  | _ => True
  end.

(** The query for the stroke sequence gives none: it throws, or its
    result is not an array with an element. *)
Definition fallback_fails (cn_order : JsStr -> Outcome JsVal) (ch : JsStr)
  : Prop :=
  match cn_order ch with
  | Ret order => nonempty_array order = None
  | Throw => True
  end.

Definition is_none {A : Type} (o : option A) : bool :=
  match o with
  | None => true
  | Some _ => false
  end.

Section Notions.
Variable cn_stroke : JsStr -> Outcome JsVal.
Variable cn_order : JsStr -> Outcome JsVal.
Variable localeCompare : JsStr -> JsStr -> JsNum.

(** The bucket [groupByStroke] files a character under, if any. *)
Definition key_of (ch : JsStr) : option JsNum :=
  match Extend.strokeOf cn_stroke cn_order ch with
  | Some n => if num_falsy n then None else Some n
  | None => None
  end.

Definition key_is (n : JsNum) (ch : JsStr) : bool :=
  match key_of ch with
  | Some k => num_eqb k n
  | None => false
  end.

Definition classified (ch : JsStr) : bool :=
  match key_of ch with
  | Some _ => true
  | None => false
  end.

(** All characters of a bucket map. *)
Definition chars_of (m : StrokeMap) : list JsStr := concat (map snd m).

(** The characters of a bucket map in the order of the output: buckets
    by ascending key, each bucket in collation order. *)
Definition ordered (m : StrokeMap) : list JsStr :=
  concat (map (Extend.sorted_bucket localeCompare m) (Extend.sorted_keys m)).

(** The order a comparator induces: [a] may stand before [b]. *)
Definition cmp_le {A : Type} (cmp : A -> A -> JsNum) (a b : A) : Prop :=
  num_pos (cmp a b) = false.

(** A comparator that orders all elements consistently. *)
Definition consistent {A : Type} (cmp : A -> A -> JsNum) : Prop :=
  (forall a b, cmp_le cmp a b \/ cmp_le cmp b a) /\
  (forall a b c, cmp_le cmp a b -> cmp_le cmp b c -> cmp_le cmp a c).

(** Ascending stroke count, then collation. *)
Definition stroke_then_collation (x y : JsStr) : Prop :=
  exists kx ky, key_of x = Some kx /\ key_of y = Some ky /\
    (num_neg (num_sub kx ky) = true \/
     (kx = ky /\ cmp_le localeCompare x y)).
End Notions.

Definition starts_nonws (s : JsStr) : Prop :=
  match s with
  | [] => True
  | c :: _ => is_ws c = false
  end.

Definition ends_nonws (s : JsStr) : Prop := starts_nonws (rev s).

Definition occurs (pat s : JsStr) : Prop := exists a b, s = a ++ pat ++ b.

(** No two neighbours are both different from a space. *)
Fixpoint sparseb (s : JsStr) : bool :=
  match s with
  | [] => true
  | x :: r =>
      match r with
      | [] => true
      | y :: _ => ((x =? SPACE) || (y =? SPACE)) && sparseb r
      end
  end.

(** Every element of every bucket is one code unit. *)
Definition single_units (m : StrokeMap) : Prop :=
  forall n ch, In ch (map_get n m) -> length ch = 1%nat.

(** One code unit that is not white space. *)
Definition clean_char (ch : JsStr) : Prop :=
  exists c, ch = [c] /\ is_ws c = false.

(** Every directory of the tree can be read. *)
Fixpoint readable (e : DirEntry) : bool :=
  match e with
  | EDir _ (Ret items) =>
      (fix all (l : list DirEntry) : bool :=
         match l with
         | [] => true
         | x :: r => readable x && all r
         end) items
  | EDir _ Throw => false
  | _ => true
  end.

Definition readable_listing (listing : Outcome (list DirEntry)) : bool :=
  match listing with
  | Ret items => forallb readable items
  | Throw => false
  end.

Section ScanNotions.
Variable has_font_ext : JsStr -> bool.
Variable path_join : JsStr -> JsStr -> JsStr.

(** The font file at path [p], with what opening it gives, lies in the
    directory [d] with entries [items] or below it. *)
Inductive reaches (d : JsStr) (items : list DirEntry)
  : JsStr -> Outcome (list Z) -> Prop :=
| reach_here (name : JsStr) (glyphs : Outcome (list Z)) :
    In (EFile name glyphs) items -> has_font_ext name = true ->
    reaches d items (path_join d name) glyphs
| reach_below (name : JsStr) (sub : list DirEntry) (p : JsStr)
    (glyphs : Outcome (list Z)) :
    In (EDir name (Ret sub)) items ->
    reaches (path_join d name) sub p glyphs ->
    reaches d items p glyphs.

(** What the scan owes a font file: its basic-block code points when it
    opens, a warning when it does not. *)
Definition handled (p : JsStr) (glyphs : Outcome (list Z))
  (st : JsSet * list Event) : Prop :=
  match glyphs with
  | Ret codes =>
      forall code, In code codes -> in_cjk code = true -> In [code] (fst st)
  | Throw => In (FontFailed p) (snd st)
  end.

Definition grows (st st' : JsSet * list Event) : Prop :=
  (forall x, In x (fst st) -> In x (fst st')) /\
  (forall e, In e (snd st) -> In e (snd st')).

Definition subdirs (d : JsStr) (items : list DirEntry) : Extend.Stack :=
  flat_map (fun it => match it with
                      | EDir name listing => [(path_join d name, listing)]
                      | _ => []
                      end) items.

Definition file_step (d : JsStr) (st : JsSet * list Event) (it : DirEntry)
  : JsSet * list Event :=
  match it with
  | EFile name glyphs =>
      if has_font_ext name
      then Extend.font_step (path_join d name) glyphs st
      else st
  | _ => st
  end.

Definition stack_count (stack : Extend.Stack) : nat :=
  fold_right (fun e n => (Extend.listing_count (snd e) + n)%nat) O stack.
End ScanNotions.

Definition demo_union : JsSet := [[19977]; [19968]; [21313]; [20108]].

Definition demo_inputs : Extend.Inputs :=
  {| Extend.limit := 10;
     Extend.preview := false;
     Extend.fontDir := [115];
     Extend.includeFiles := [];
     Extend.content := [49; HUA; TAB; 19968];
     Extend.contentReadable := true;
     Extend.fontRoot :=
       Ret [EFile [97; 46; 116; 116; 102] Throw;
            EDir [100] (Ret [EFile [98; 46; 116; 116; 102]
                               (Ret [65; 19977; 20108])]);
            EFile [99; 46; 116; 120; 116] (Ret [21313])];
     Extend.outWritable := true |}.

(** What the font scan adds: one code unit of the basic block. *)
Definition font_char (x : JsStr) : Prop :=
  exists c, x = [c] /\ in_cjk c = true.

(** What a step may add to the set: nothing but font characters. *)
Definition adds_font_chars (st st' : JsSet * list Event) : Prop :=
  (forall x, In x (fst st') -> In x (fst st) \/ font_char x) /\
  (NoDup (fst st) -> NoDup (fst st')).

Definition demo_broken_inputs : Extend.Inputs :=
  {| Extend.limit := 10;
     Extend.preview := true;
     Extend.fontDir := [115];
     Extend.includeFiles := [];
     Extend.content := [49; HUA; TAB; 19968];
     Extend.contentReadable := true;
     Extend.fontRoot :=
       Ret [EFile [98; 46; 116; 116; 102] (Ret [19977; 20108]);
            EDir [100] Throw];
     Extend.outWritable := true |}.

(** A scan directory with a font that cannot be opened ("a.ttf"), a
    font that can ("b.ttf", with U+4E09 and U+4E8C) and a directory that
    cannot be read ("d"). *)
Definition demo_unreadable_inputs : Extend.Inputs :=
  {| Extend.limit := 10;
     Extend.preview := false;
     Extend.fontDir := [115];
     Extend.includeFiles := [];
     Extend.content := [49; HUA; TAB; 19968];
     Extend.contentReadable := true;
     Extend.fontRoot :=
       Ret [EFile [97; 46; 116; 116; 102] Throw;
            EFile [98; 46; 116; 116; 102] (Ret [19977; 20108]);
            EDir [100] Throw];
     Extend.outWritable := true |}.

(** [demo_inputs] with one more character in the font "b.ttf": U+9F8D
    (龍), of the basic block and without a stroke count in the table. *)
Definition demo_unknown_inputs : Extend.Inputs :=
  {| Extend.limit := 10;
     Extend.preview := false;
     Extend.fontDir := [115];
     Extend.includeFiles := [];
     Extend.content := [49; HUA; TAB; 19968];
     Extend.contentReadable := true;
     Extend.fontRoot :=
       Ret [EFile [97; 46; 116; 116; 102] Throw;
            EDir [100] (Ret [EFile [98; 46; 116; 116; 102]
                               (Ret [65; 19977; 20108; 40845])]);
            EFile [99; 46; 116; 120; 116] (Ret [21313])];
     Extend.outWritable := true |}.

(** A working directory "r" with a [content.txt] of a heading, the
    prefix anchor, one line of one character and the suffix anchor, no
    font, and every path writable. *)
Definition demo_content : JsStr :=
  [65; 10] ++ PREFIX_ANCHOR ++ [10; 49; HUA; TAB; 19968; 10] ++
  SUFFIX_ANCHOR ++ [10].

Definition demo_files : Program.Files :=
  {| Program.readFileSync := fun p =>
       if str_eqb p (Program.CONTENT_PATH [114] slash_join)
       then Ret demo_content else Throw;
     Program.tree := fun _ => Ret [];
     Program.writable := fun _ => true |}.

(** The same run with other include files. *)
Definition with_includes (i : Extend.Inputs)
  (files : list (JsStr * Outcome JsStr)) : Extend.Inputs :=
  {| Extend.limit := Extend.limit i;
     Extend.preview := Extend.preview i;
     Extend.fontDir := Extend.fontDir i;
     Extend.includeFiles := files;
     Extend.content := Extend.content i;
     Extend.contentReadable := Extend.contentReadable i;
     Extend.fontRoot := Extend.fontRoot i;
     Extend.outWritable := Extend.outWritable i |}.

(** The sum of the counts of a histogram, and the count under a key,
    zero when the key is missing. *)
Definition dist_total (d : Analyze.Dist) : Z :=
  fold_right (fun e n => snd e + n) 0 d.

Definition dist_count (s : JsNum) (d : Analyze.Dist) : Z :=
  match Analyze.dist_get s d with
  | Some v => v
  | None => 0
  end.

Definition stroke_is (o : option JsNum) (s : JsNum) : bool :=
  match o with
  | Some n => num_eqb n s
  | None => false
  end.

(** * Properties *)

(** ** Sets *)

Lemma str_eqb_eq (a b : JsStr) : str_eqb a b = true <-> a = b.
Proof.
unfold str_eqb. destruct (str_eq_dec a b); split; congruence.
Qed.

Lemma num_eqb_eq (a b : JsNum) : num_eqb a b = true <-> a = b.
Proof.
unfold num_eqb. destruct (num_eq_dec a b); split; congruence.
Qed.

Lemma num_eqb_refl (a : JsNum) : num_eqb a a = true.
Proof. now apply num_eqb_eq. Qed.

Lemma num_eqb_sym_local (a b : JsNum) : num_eqb a b = num_eqb b a.
Proof.
  unfold num_eqb. destruct (num_eq_dec a b), (num_eq_dec b a); congruence.
Qed.

Lemma num_eqb_neq (a b : JsNum) : a <> b -> num_eqb a b = false.
Proof.
intros H. destruct (num_eqb a b) eqn:E; [|reflexivity].
apply num_eqb_eq in E. contradiction.
Qed.

Lemma set_has_In (ch : JsStr) (s : JsSet) : set_has ch s = true <-> In ch s.
Proof.
unfold set_has. rewrite existsb_exists. split.
- intros [x [Hx E]]. apply str_eqb_eq in E. now subst.
- intros H. exists ch. split; [assumption | now apply str_eqb_eq].
Qed.

Lemma set_add_member (ch : JsStr) (s : JsSet) : In ch s -> set_add ch s = s.
Proof.
intros H. unfold set_add. apply set_has_In in H. now rewrite H.
Qed.

Lemma set_add_fresh (ch : JsStr) (s : JsSet) :
~ In ch s -> set_add ch s = s ++ [ch].
Proof.
intros H. unfold set_add. destruct (set_has ch s) eqn:E; [|reflexivity].
apply set_has_In in E. contradiction.
Qed.

Lemma set_add_In (x ch : JsStr) (s : JsSet) :
In x (set_add ch s) <-> x = ch \/ In x s.
Proof.
unfold set_add. destruct (set_has ch s) eqn:E.
- apply set_has_In in E. split; [tauto | intros [->|H]; assumption].
- rewrite in_app_iff. simpl. split; intros H; intuition congruence.
Qed.

Lemma set_add_NoDup (ch : JsStr) (s : JsSet) : NoDup s -> NoDup (set_add ch s).
Proof.
intros H. unfold set_add. destruct (set_has ch s) eqn:E; [assumption|].
apply NoDup_rev in H. rewrite <- (rev_involutive (s ++ [ch])).
apply NoDup_rev. rewrite rev_app_distr. simpl. constructor; [|assumption].
rewrite <- in_rev. intros Hin. apply set_has_In in Hin. congruence.
Qed.

Lemma set_add_all_In (x : JsStr) (xs : list JsStr) (s : JsSet) :
In x (set_add_all s xs) <-> In x s \/ In x xs.
Proof.
unfold set_add_all. revert s. induction xs as [|y xs IH]; intros s; simpl.
- tauto.
- rewrite IH, set_add_In. intuition congruence.
Qed.

Lemma set_add_all_NoDup (xs : list JsStr) (s : JsSet) :
NoDup s -> NoDup (set_add_all s xs).
Proof.
unfold set_add_all. revert s. induction xs as [|y xs IH]; intros s H; simpl.
- assumption.
- apply IH. now apply set_add_NoDup.
Qed.

Lemma set_add_all_app (s : JsSet) (xs ys : list JsStr) :
set_add_all s (xs ++ ys) = set_add_all (set_add_all s xs) ys.
Proof. unfold set_add_all. apply fold_left_app. Qed.

Lemma set_add_all_fresh (xs : list JsStr) (s : JsSet) :
NoDup (s ++ xs) -> set_add_all s xs = s ++ xs.
Proof.
unfold set_add_all. revert s. induction xs as [|y xs IH]; intros s H; simpl.
- now rewrite app_nil_r.
- assert (Hy : ~ In y s).
  { apply NoDup_remove_2 in H. intros Hin. apply H.
    apply in_or_app. now left. }
  rewrite (set_add_fresh _ _ Hy), IH, <- app_assoc; [reflexivity|].
  now rewrite <- app_assoc.
Qed.

Lemma set_add_all_subset (xs : list JsStr) (s : JsSet) :
(forall x, In x xs -> In x s) -> set_add_all s xs = s.
Proof.
unfold set_add_all. induction xs as [|y xs IH]; intros H; simpl.
- reflexivity.
- rewrite set_add_member by (apply H; now left).
  apply IH. intros x Hx. apply H. now right.
Qed.

Lemma nodup_same_size (s t : JsSet) :
NoDup s -> NoDup t -> (forall x, In x s <-> In x t) ->
set_size s = set_size t.
Proof.
intros Hs Ht H. unfold set_size. f_equal.
apply Permutation_length. now apply NoDup_Permutation.
Qed.

(** ** Maps *)

Lemma map_has_In (n : JsNum) (m : StrokeMap) :
map_has n m = true <-> In n (map_keys m).
Proof.
induction m as [|[k s] m IH]; simpl.
- split; [discriminate | tauto].
- rewrite orb_true_iff, IH, num_eqb_eq. intuition congruence.
Qed.

Lemma map_get_set_same (n : JsNum) (s : JsSet) (m : StrokeMap) :
map_get n (map_set n s m) = s.
Proof.
induction m as [|[k s0] m IH]; simpl.
- now rewrite num_eqb_refl.
- destruct (num_eqb n k) eqn:E; simpl; rewrite E; [reflexivity | exact IH].
Qed.

Lemma map_get_set_other (n n' : JsNum) (s : JsSet) (m : StrokeMap) :
n <> n' -> map_get n' (map_set n s m) = map_get n' m.
Proof.
intros Hn. induction m as [|[k s0] m IH]; simpl.
- rewrite num_eqb_neq by congruence. reflexivity.
- destruct (num_eqb n k) eqn:E; simpl.
  + apply num_eqb_eq in E. subst k.
    rewrite num_eqb_neq by congruence. reflexivity.
  + destruct (num_eqb n' k); [reflexivity | exact IH].
Qed.

Lemma map_keys_set (n : JsNum) (s : JsSet) (m : StrokeMap) :
map_keys (map_set n s m) =
if map_has n m then map_keys m else map_keys m ++ [n].
Proof.
induction m as [|[k s0] m IH]; simpl.
- reflexivity.
- destruct (num_eqb n k) eqn:E; simpl; [reflexivity|].
  rewrite IH. now destruct (map_has n m).
Qed.

Lemma map_get_absent (n : JsNum) (m : StrokeMap) :
~ In n (map_keys m) -> map_get n m = [].
Proof.
induction m as [|[k s] m IH]; simpl; intros H.
- reflexivity.
- rewrite num_eqb_neq by (intros ->; apply H; now left).
  apply IH. intros Hin. apply H. now right.
Qed.

(** ** Sorting *)

Section SortFacts.
Context {A : Type}.
Variable cmp : A -> A -> JsNum.
Variable P : A -> Prop.
Hypothesis total : forall a b, P a -> P b -> cmp_le cmp a b \/ cmp_le cmp b a.
Hypothesis trans : forall a b c, P a -> P b -> P c ->
  cmp_le cmp a b -> cmp_le cmp b c -> cmp_le cmp a c.

Lemma sort_insert_perm (x : A) (l : list A) :
  Permutation (sort_insert cmp x l) (x :: l).
Proof.
  induction l as [|y l IH]; simpl.
  - reflexivity.
  - destruct (num_pos (cmp x y)).
    + rewrite IH. apply perm_swap.
    + reflexivity.
Qed.

Lemma js_sort_perm (l : list A) : Permutation (js_sort cmp l) l.
Proof.
  induction l as [|x l IH]; simpl.
  - reflexivity.
  - rewrite sort_insert_perm. now constructor.
Qed.

Lemma js_sort_In (x : A) (l : list A) : In x (js_sort cmp l) <-> In x l.
Proof.
  split; apply Permutation_in; [|symmetry]; apply js_sort_perm.
Qed.

Lemma js_sort_length (l : list A) : length (js_sort cmp l) = length l.
Proof. apply Permutation_length, js_sort_perm. Qed.

Lemma sort_insert_sorted (x : A) (l : list A) :
  P x -> Forall P l -> StronglySorted (cmp_le cmp) l ->
  StronglySorted (cmp_le cmp) (sort_insert cmp x l).
Proof using total trans.
  intros Px Pl Hs. induction Hs as [|y l Hs IH Hy]; simpl.
  - constructor; constructor.
  - inversion Pl as [|? ? Py Pl']; subst.
    destruct (num_pos (cmp x y)) eqn:E.
    + constructor; [now apply IH|].
      apply (Permutation_Forall (Permutation_sym (sort_insert_perm x l))).
      constructor; [|assumption].
      destruct (total y x Py Px) as [H|H]; [assumption|].
      unfold cmp_le in H. congruence.
    + constructor; [now constructor|].
      constructor; [exact E|].
      rewrite Forall_forall in *. intros z Hz.
      apply (trans x y z); auto.
Qed.

Lemma js_sort_sorted (l : list A) :
  Forall P l -> StronglySorted (cmp_le cmp) (js_sort cmp l).
Proof using total trans.
  induction l as [|x l IH]; simpl; intros H.
  - constructor.
  - inversion H; subst. apply sort_insert_sorted; auto.
    apply (Permutation_Forall (Permutation_sym (js_sort_perm l))).
    assumption.
Qed.
End SortFacts.

Lemma js_sort_NoDup {A : Type} (cmp : A -> A -> JsNum) (l : list A) :
NoDup l -> NoDup (js_sort cmp l).
Proof.
intros H. apply (Permutation_NoDup (Permutation_sym (js_sort_perm cmp l))).
assumption.
Qed.

(** ** Classification and grouping *)

Section GroupFacts.
Variable cn_stroke : JsStr -> Outcome JsVal.
Variable cn_order : JsStr -> Outcome JsVal.

Local Abbreviation strokeOf := (Extend.strokeOf cn_stroke cn_order).
Local Abbreviation group_step := (Extend.group_step cn_stroke cn_order).
Local Abbreviation groupByStroke := (Extend.groupByStroke cn_stroke cn_order).
Local Abbreviation key := (key_of cn_stroke cn_order).
Local Abbreviation keyIs := (key_is cn_stroke cn_order).
Local Abbreviation isClassified := (classified cn_stroke cn_order).

Lemma first_length_nonneg (ch : JsStr) (n : JsNum) :
  Extend.first_length cn_order ch = Some n -> exists z, n = Fin z /\ 0 <= z.
Proof.
  unfold Extend.first_length. destruct (cn_order ch) as [order|]; [|discriminate].
  destruct (nonempty_array order) as [l|]; [|discriminate].
  destruct (hd VUndef l); simpl; try discriminate;
    intros H; injection H as <-; eexists; split; try reflexivity; lia.
Qed.

Lemma key_of_pos (ch : JsStr) (n : JsNum) :
  key ch = Some n -> num_pos n = true.
Proof.
  unfold key_of, Extend.strokeOf.
  assert (F : forall o, (match o with
                         | Some n0 => if num_falsy n0 then None else Some n0
                         | None => None end) = Some n ->
                        o = Extend.first_length cn_order ch ->
                        num_pos n = true).
  { intros [n0|] H E; [|discriminate].
    destruct (num_falsy n0) eqn:Ef; [discriminate|]. injection H as ->.
    symmetry in E. apply first_length_nonneg in E. destruct E as [z [-> Hz]].
    simpl in *. apply Z.ltb_lt. apply Z.eqb_neq in Ef. lia. }
  destruct (cn_stroke ch) as [v|]; [|discriminate].
  destruct v as [| |b|x|s|l]; try (intros H; now apply (F _ H)).
  destruct (num_pos x) eqn:Ex.
  - destruct (num_falsy x); [discriminate|]. intros H. injection H as <-.
    exact Ex.
  - intros H; now apply (F _ H).
Qed.

Lemma key_is_true (n : JsNum) (ch : JsStr) :
  keyIs n ch = true <-> key ch = Some n.
Proof.
  unfold key_is. destruct (key ch) as [k|].
  - rewrite num_eqb_eq. split; congruence.
  - split; discriminate.
Qed.

Lemma classified_true (ch : JsStr) :
  isClassified ch = true <-> exists n, key ch = Some n.
Proof.
  unfold classified. destruct (key ch) as [k|].
  - split; [eauto | reflexivity].
  - split; [discriminate | intros [n H]; discriminate].
Qed.

Lemma group_step_key (m : StrokeMap) (ch : JsStr) :
  group_step m ch =
  match key ch with
  | None => m
  | Some n =>
      let m1 := if map_has n m then m else map_set n [] m in
      map_set n (set_add ch (map_get n m1)) m1
  end.
Proof.
  unfold Extend.group_step, key_of.
  destruct (strokeOf ch) as [n|]; [|reflexivity].
  now destruct (num_falsy n).
Qed.

Lemma group_step_get (n : JsNum) (m : StrokeMap) (ch : JsStr) :
  map_get n (group_step m ch) =
  if keyIs n ch then set_add ch (map_get n m) else map_get n m.
Proof.
  rewrite group_step_key. unfold key_is.
  destruct (key ch) as [k|]; [|reflexivity]. cbv zeta.
  destruct (num_eqb k n) eqn:E.
  - apply num_eqb_eq in E. subst k. rewrite map_get_set_same.
    destruct (map_has n m) eqn:Eh; [reflexivity|].
    rewrite map_get_set_same, map_get_absent; [reflexivity|].
    rewrite <- map_has_In. congruence.
  - assert (Hk : k <> n) by (intros ->; rewrite num_eqb_refl in E; discriminate).
    rewrite map_get_set_other by assumption.
    destruct (map_has k m); [reflexivity|].
    now rewrite map_get_set_other.
Qed.

Lemma group_step_keys (m : StrokeMap) (ch : JsStr) :
  map_keys (group_step m ch) =
  match key ch with
  | None => map_keys m
  | Some n => if map_has n m then map_keys m else map_keys m ++ [n]
  end.
Proof.
  rewrite group_step_key. destruct (key ch) as [k|]; [|reflexivity].
  cbv zeta. rewrite map_keys_set. destruct (map_has k m) eqn:E.
  - now rewrite E.
  - rewrite map_keys_set, E.
    assert (H : map_has k (map_set k [] m) = true).
    { apply map_has_In. rewrite map_keys_set, E. apply in_or_app.
      right. now left. }
    now rewrite H.
Qed.

Lemma fold_group_get (n : JsNum) (chars : list JsStr) (m : StrokeMap) :
  map_get n (fold_left group_step chars m) =
  set_add_all (map_get n m) (filter (keyIs n) chars).
Proof.
  revert m. induction chars as [|ch chars IH]; intros m; simpl.
  - reflexivity.
  - rewrite IH, group_step_get. now destruct (keyIs n ch).
Qed.

Lemma fold_group_keys_In (n : JsNum) (chars : list JsStr) (m : StrokeMap) :
  In n (map_keys (fold_left group_step chars m)) <->
  In n (map_keys m) \/ exists ch, In ch chars /\ key ch = Some n.
Proof.
  revert m. induction chars as [|ch chars IH]; intros m; simpl.
  - split; [tauto | intros [H|[ch [[] _]]]; assumption].
  - rewrite IH, group_step_keys. split.
    + intros [H|[c [Hc Hk]]]; [|right; eauto].
      destruct (key ch) as [k|] eqn:Ek; [|now left].
      destruct (map_has k m); [now left|].
      apply in_app_or in H. destruct H as [H|[<-|[]]]; [now left|].
      right. exists ch. split; [now left | assumption].
    + intros [H|[c [[<-|Hc] Hk]]].
      * left. destruct (key ch) as [k|]; [|assumption].
        destruct (map_has k m); [assumption|]. apply in_or_app. now left.
      * left. rewrite Hk. destruct (map_has n m) eqn:E.
        -- now apply map_has_In.
        -- apply in_or_app. right. now left.
      * right. eauto.
Qed.

Lemma fold_group_keys_NoDup (chars : list JsStr) (m : StrokeMap) :
  NoDup (map_keys m) -> NoDup (map_keys (fold_left group_step chars m)).
Proof.
  revert m. induction chars as [|ch chars IH]; intros m H; simpl.
  - assumption.
  - apply IH. rewrite group_step_keys.
    destruct (key ch) as [k|]; [|assumption].
    destruct (map_has k m) eqn:E; [assumption|].
    rewrite <- (rev_involutive (map_keys m ++ [k])). apply NoDup_rev.
    rewrite rev_app_distr. simpl. constructor.
    + rewrite <- in_rev, <- map_has_In. congruence.
    + now apply NoDup_rev.
Qed.

Lemma group_bucket (n : JsNum) (chars : list JsStr) :
  NoDup chars -> map_get n (groupByStroke chars) = filter (keyIs n) chars.
Proof.
  intros H. unfold Extend.groupByStroke. rewrite fold_group_get. simpl.
  apply (set_add_all_fresh _ []). simpl. now apply NoDup_filter.
Qed.

Lemma group_keys_In (n : JsNum) (chars : list JsStr) :
  In n (map_keys (groupByStroke chars)) <->
  exists ch, In ch chars /\ key ch = Some n.
Proof.
  unfold Extend.groupByStroke. rewrite fold_group_keys_In. simpl. tauto.
Qed.

Lemma group_keys_NoDup (chars : list JsStr) :
  NoDup (map_keys (groupByStroke chars)).
Proof.
  apply fold_group_keys_NoDup. constructor.
Qed.

Lemma group_keys_pos (chars : list JsStr) :
  Forall (fun n => num_pos n = true) (map_keys (groupByStroke chars)).
Proof.
  apply Forall_forall. intros n Hn. apply group_keys_In in Hn.
  destruct Hn as [ch [_ Hk]]. now apply key_of_pos in Hk.
Qed.
End GroupFacts.

(** ** Lists of lists *)

Lemma sorted_app {A : Type} (R : A -> A -> Prop) (l1 l2 : list A) :
  StronglySorted R l1 -> StronglySorted R l2 ->
  (forall x y, In x l1 -> In y l2 -> R x y) ->
  StronglySorted R (l1 ++ l2).
Proof.
  intros H1 H2 H. induction H1 as [|a l1 H1 IH Ha]; simpl.
  - assumption.
  - constructor.
    + apply IH. intros x y Hx Hy. apply H; [now right | assumption].
    + apply Forall_app. split; [assumption|].
      apply Forall_forall. intros y Hy. apply H; [now left | assumption].
Qed.

Lemma sorted_app_inv {A : Type} (R : A -> A -> Prop) (l1 l2 : list A) :
  StronglySorted R (l1 ++ l2) ->
  forall x y, In x l1 -> In y l2 -> R x y.
Proof.
  induction l1 as [|a l1 IH]; simpl; intros H x y Hx Hy.
  - contradiction.
  - inversion H as [|? ? Hs Ha]; subst. destruct Hx as [<-|Hx].
    + rewrite Forall_forall in Ha. apply Ha. apply in_or_app. now right.
    + now apply IH.
Qed.

Lemma sorted_distinct {A : Type} (R : A -> A -> Prop) (l : list A) :
  StronglySorted R l -> NoDup l ->
  StronglySorted (fun a b => R a b /\ a <> b) l.
Proof.
  intros H. induction H as [|a l H IH Ha]; intros Hn.
  - constructor.
  - inversion Hn as [|? ? Hna Hn']; subst. constructor; [now apply IH|].
    rewrite Forall_forall in *. intros x Hx. split; [now apply Ha|].
    intros ->. contradiction.
Qed.

Lemma concat_map_In {A B : Type} (f : A -> list B) (ks : list A) (x : B) :
  In x (concat (map f ks)) <-> exists k, In k ks /\ In x (f k).
Proof.
  rewrite in_concat. split.
  - intros [l [Hl Hx]]. apply in_map_iff in Hl. destruct Hl as [k [<- Hk]].
    eauto.
  - intros [k [Hk Hx]]. exists (f k). split; [now apply in_map | assumption].
Qed.

Lemma concat_map_NoDup {A B : Type} (f : A -> list B) (ks : list A) :
  NoDup ks -> (forall k, In k ks -> NoDup (f k)) ->
  (forall k k' x, In k ks -> In k' ks -> In x (f k) -> In x (f k') -> k = k') ->
  NoDup (concat (map f ks)).
Proof.
  intros Hn. induction Hn as [|k ks Hk Hn IH]; intros Hf Hd; simpl.
  - constructor.
  - apply NoDup_app.
    + apply Hf. now left.
    + apply IH.
      * intros k0 H0. apply Hf. now right.
      * intros k0 k1 x H0 H1. apply Hd; now right.
    + intros x Hx Hc. apply concat_map_In in Hc. destruct Hc as [k' [Hk' Hx']].
      assert (k = k') by (apply (Hd k k' x); simpl; auto).
      subst. contradiction.
Qed.

Lemma concat_map_sorted {A B : Type} (R : B -> B -> Prop) (Rk : A -> A -> Prop)
  (f : A -> list B) (ks : list A) :
  StronglySorted Rk ks ->
  (forall k, In k ks -> StronglySorted R (f k)) ->
  (forall k k' x y, In k ks -> In k' ks -> Rk k k' ->
     In x (f k) -> In y (f k') -> R x y) ->
  StronglySorted R (concat (map f ks)).
Proof.
  intros Hs. induction Hs as [|k ks Hs IH Hk]; intros Hf Hc; simpl.
  - constructor.
  - apply sorted_app.
    + apply Hf. now left.
    + apply IH.
      * intros k0 H0. apply Hf. now right.
      * intros k0 k1 x y H0 H1. apply Hc; now right.
    + intros x y Hx Hy. apply concat_map_In in Hy.
      destruct Hy as [k' [Hk' Hy]]. rewrite Forall_forall in Hk.
      apply (Hc k k' x y); simpl; auto.
Qed.

Lemma fold_sizes {A B : Type} (f g : A -> list B) (ks : list A) (a : Z) :
  (forall k, length (f k) = length (g k)) ->
  fold_left (fun acc k => acc + Z.of_nat (length (g k))) ks a =
  a + Z.of_nat (length (concat (map f ks))).
Proof.
  intros H. revert a. induction ks as [|k ks IH]; intros a; simpl.
  - lia.
  - rewrite IH, length_app, H. lia.
Qed.

Lemma map_snd_get (m : StrokeMap) :
  NoDup (map_keys m) ->
  map snd m = map (fun k => map_get k m) (map_keys m).
Proof.
  induction m as [|[k s] m IH]; simpl; intros H.
  - reflexivity.
  - inversion H as [|? ? Hk Hn]; subst. rewrite num_eqb_refl. f_equal.
    rewrite IH by assumption. apply map_ext_in. intros k' Hk'.
    rewrite num_eqb_neq; [reflexivity|]. intros ->. contradiction.
Qed.

(** ** Selection *)

Section SelectFacts.
Variable cn_stroke : JsStr -> Outcome JsVal.
Variable cn_order : JsStr -> Outcome JsVal.
Variable localeCompare : JsStr -> JsStr -> JsNum.

Local Abbreviation groupByStroke := (Extend.groupByStroke cn_stroke cn_order).
Local Abbreviation key := (key_of cn_stroke cn_order).
Local Abbreviation keyIs := (key_is cn_stroke cn_order).
Local Abbreviation isClassified := (classified cn_stroke cn_order).
Local Abbreviation sorted_bucket := (Extend.sorted_bucket localeCompare).
Local Abbreviation inOrder := (ordered localeCompare).
Local Abbreviation total_of := Extend.total_of.
Local Abbreviation picked_of := (Extend.picked_of localeCompare).
Local Abbreviation select := (Extend.select cn_stroke cn_order localeCompare).

Lemma bucket_In (l : list JsStr) (k : JsNum) (ch : JsStr) :
  NoDup l ->
  In ch (map_get k (groupByStroke l)) <-> In ch l /\ key ch = Some k.
Proof.
  intros H. rewrite group_bucket by assumption.
  rewrite filter_In, key_is_true. reflexivity.
Qed.

Lemma sorted_keys_In (m : StrokeMap) (k : JsNum) :
  In k (Extend.sorted_keys m) <-> In k (map_keys m).
Proof. apply js_sort_In. Qed.

Lemma sorted_bucket_In (m : StrokeMap) (k : JsNum) (ch : JsStr) :
  In ch (sorted_bucket m k) <-> In ch (map_get k m).
Proof. apply js_sort_In. Qed.

Lemma ordered_In (l : list JsStr) (ch : JsStr) :
  NoDup l ->
  In ch (inOrder (groupByStroke l)) <-> In ch l /\ isClassified ch = true.
Proof.
  intros H. unfold ordered. rewrite concat_map_In, classified_true. split.
  - intros [k [_ Hc]]. rewrite sorted_bucket_In, bucket_In in Hc by assumption.
    destruct Hc. eauto.
  - intros [Hl [k Hk]]. exists k. split.
    + rewrite sorted_keys_In, group_keys_In. eauto.
    + rewrite sorted_bucket_In, bucket_In by assumption. auto.
Qed.

Lemma ordered_NoDup (l : list JsStr) :
  NoDup l -> NoDup (inOrder (groupByStroke l)).
Proof.
  intros H. unfold ordered. apply concat_map_NoDup.
  - apply js_sort_NoDup, group_keys_NoDup.
  - intros k _. apply js_sort_NoDup. rewrite group_bucket by assumption.
    now apply NoDup_filter.
  - intros k k' x _ _ Hx Hx'.
    rewrite sorted_bucket_In, bucket_In in Hx, Hx' by assumption.
    destruct Hx as [_ Hx]. destruct Hx' as [_ Hx']. congruence.
Qed.

Lemma chars_of_keys (m : StrokeMap) :
  NoDup (map_keys m) ->
  chars_of m = concat (map (fun k => map_get k m) (map_keys m)).
Proof. intros H. unfold chars_of. now rewrite map_snd_get. Qed.

Lemma chars_of_In (l : list JsStr) (ch : JsStr) :
  NoDup l ->
  In ch (chars_of (groupByStroke l)) <-> In ch l /\ isClassified ch = true.
Proof.
  intros H. rewrite chars_of_keys by apply group_keys_NoDup.
  rewrite concat_map_In, classified_true. split.
  - intros [k [_ Hc]]. rewrite bucket_In in Hc by assumption.
    destruct Hc. eauto.
  - intros [Hl [k Hk]]. exists k. split.
    + rewrite group_keys_In. eauto.
    + rewrite bucket_In by assumption. auto.
Qed.

Lemma chars_of_NoDup (l : list JsStr) :
  NoDup l -> NoDup (chars_of (groupByStroke l)).
Proof.
  intros H. rewrite chars_of_keys by apply group_keys_NoDup.
  apply concat_map_NoDup.
  - apply group_keys_NoDup.
  - intros k _. rewrite group_bucket by assumption. now apply NoDup_filter.
  - intros k k' x _ _ Hx Hx'. rewrite bucket_In in Hx, Hx' by assumption.
    destruct Hx as [_ Hx]. destruct Hx' as [_ Hx']. congruence.
Qed.

Lemma chars_of_ordered (l : list JsStr) :
  NoDup l ->
  Permutation (chars_of (groupByStroke l)) (inOrder (groupByStroke l)).
Proof.
  intros H. apply NoDup_Permutation.
  - now apply chars_of_NoDup.
  - now apply ordered_NoDup.
  - intros x. now rewrite chars_of_In, ordered_In.
Qed.

Lemma chars_of_classified (l : list JsStr) :
  NoDup l ->
  Permutation (chars_of (groupByStroke l)) (filter isClassified l).
Proof.
  intros H. apply NoDup_Permutation.
  - now apply chars_of_NoDup.
  - now apply NoDup_filter.
  - intros x. now rewrite chars_of_In, filter_In.
Qed.

Lemma total_of_ordered (m : StrokeMap) :
  total_of m = Z.of_nat (length (inOrder m)).
Proof.
  unfold Extend.total_of, set_size, ordered.
  rewrite (fold_sizes (sorted_bucket m)); [lia|].
  intros k. apply js_sort_length.
Qed.

Lemma pick_chars_firstn (limit : Z) (list : list JsStr) (picked : JsSet) :
  NoDup (picked ++ list) ->
  Extend.pick_chars limit picked list =
  picked ++ firstn (Z.to_nat (limit - set_size picked)) list.
Proof.
  revert picked. induction list as [|ch rest IH]; intros picked H; simpl.
  - now rewrite firstn_nil, app_nil_r.
  - destruct (limit <=? set_size picked) eqn:E.
    + apply Z.leb_le in E.
      replace (Z.to_nat (limit - set_size picked)) with O by lia.
      now rewrite app_nil_r.
    + apply Z.leb_gt in E.
      assert (Hf : ~ In ch picked).
      { apply NoDup_remove_2 in H. intros Hin. apply H. apply in_or_app.
        now left. }
      rewrite (set_add_fresh _ _ Hf), IH by (now rewrite <- app_assoc).
      rewrite <- app_assoc. simpl. unfold set_size in *.
      rewrite length_app. simpl.
      replace (Z.to_nat (limit - Z.of_nat (length picked)))
        with (S (Z.to_nat (limit - Z.of_nat (length picked + 1)))) by lia.
      reflexivity.
Qed.

Lemma pick_keys_firstn (limit : Z) (m : StrokeMap) (keys : list JsNum)
  (picked : JsSet) :
  NoDup (picked ++ concat (map (sorted_bucket m) keys)) ->
  Extend.pick_keys localeCompare limit m picked keys =
  picked ++ firstn (Z.to_nat (limit - set_size picked))
              (concat (map (sorted_bucket m) keys)).
Proof.
  revert picked. induction keys as [|k rest IH]; intros picked H; simpl.
  - now rewrite firstn_nil, app_nil_r.
  - simpl in H. rewrite app_assoc in H.
    rewrite pick_chars_firstn by (now apply NoDup_app_remove_r in H).
    rewrite firstn_app.
    set (n := Z.to_nat (limit - set_size picked)).
    set (b := sorted_bucket m k) in *.
    assert (Hlen : set_size (picked ++ firstn n b) =
                   set_size picked + Z.of_nat (Nat.min n (length b))).
    { unfold set_size. rewrite length_app, length_firstn. lia. }
    destruct (limit <=? set_size (picked ++ firstn n b)) eqn:E.
    + apply Z.leb_le in E. rewrite Hlen in E.
      replace (n - length b)%nat with O by (unfold set_size in *; lia).
      simpl. now rewrite app_nil_r.
    + apply Z.leb_gt in E. rewrite Hlen in E.
      assert (Hb : firstn n b = b).
      { apply firstn_all2. unfold set_size in *. lia. }
      rewrite Hb in *. rewrite IH by assumption.
      rewrite <- app_assoc. do 3 f_equal.
      unfold set_size in *. rewrite length_app. lia.
Qed.

Lemma picked_of_firstn (limit : Z) (l : list JsStr) :
  NoDup l ->
  picked_of limit (groupByStroke l) =
  firstn (Z.to_nat limit) (inOrder (groupByStroke l)).
Proof.
  intros H. unfold Extend.picked_of.
  rewrite pick_keys_firstn by (now apply ordered_NoDup).
  simpl. now rewrite Z.sub_0_r.
Qed.

Lemma select_keep (limit : Z) (m : StrokeMap) :
  total_of m <= limit -> select limit m = m.
Proof.
  intros H. unfold Extend.select.
  destruct (limit <? total_of m) eqn:E; [|reflexivity].
  apply Z.ltb_lt in E. lia.
Qed.

Lemma select_cut (limit : Z) (l : list JsStr) :
  NoDup l -> limit < total_of (groupByStroke l) ->
  select limit (groupByStroke l) =
  groupByStroke (firstn (Z.to_nat limit) (inOrder (groupByStroke l))).
Proof.
  intros Hn H. unfold Extend.select. apply Z.ltb_lt in H. rewrite H.
  now rewrite picked_of_firstn.
Qed.

Lemma firstn_NoDup {A : Type} (n : nat) (l : list A) :
  NoDup l -> NoDup (firstn n l).
Proof.
  intros H. rewrite <- (firstn_skipn n l) in H.
  now apply NoDup_app_remove_r in H.
Qed.

Lemma firstn_In {A : Type} (n : nat) (l : list A) (x : A) :
  In x (firstn n l) -> In x l.
Proof.
  intros H. rewrite <- (firstn_skipn n l). apply in_or_app. now left.
Qed.

(** The characters kept by a cut are the first ones of the ordered list. *)
Lemma select_cut_In (limit : Z) (l : list JsStr) (ch : JsStr) :
  NoDup l -> limit < total_of (groupByStroke l) ->
  In ch (chars_of (select limit (groupByStroke l))) <->
  In ch (firstn (Z.to_nat limit) (inOrder (groupByStroke l))).
Proof.
  intros Hn H. rewrite select_cut by assumption.
  assert (Hf : NoDup (firstn (Z.to_nat limit) (inOrder (groupByStroke l))))
    by (apply firstn_NoDup; now apply ordered_NoDup).
  rewrite chars_of_In by assumption. split; [tauto|].
  intros Hin. split; [assumption|].
  apply firstn_In in Hin. now apply ordered_In in Hin.
Qed.
End SelectFacts.

Lemma total_of_chars (cn_stroke cn_order : JsStr -> Outcome JsVal)
  (l : list JsStr) :
  NoDup l ->
  Extend.total_of (Extend.groupByStroke cn_stroke cn_order l) =
  Z.of_nat (length (chars_of (Extend.groupByStroke cn_stroke cn_order l))).
Proof.
  intros H. rewrite (total_of_ordered (fun _ _ => NaN)). f_equal. symmetry.
  apply Permutation_length. now apply chars_of_ordered.
Qed.

Lemma total_of_le (cn_stroke cn_order : JsStr -> Outcome JsVal)
  (l : list JsStr) :
  NoDup l ->
  Extend.total_of (Extend.groupByStroke cn_stroke cn_order l) <= set_size l.
Proof.
  intros H. rewrite total_of_chars by assumption. unfold set_size.
  rewrite (Permutation_length (chars_of_classified cn_stroke cn_order l H)).
  apply inj_le. apply filter_length_le.
Qed.

(** ** The order of the output *)

Lemma key_order_total (a b : JsNum) :
  num_pos a = true -> num_pos b = true ->
  cmp_le num_sub a b \/ cmp_le num_sub b a.
Proof.
  unfold cmp_le. destruct a as [x| | |], b as [y| | |]; simpl;
    try discriminate; auto.
  intros _ _. destruct (0 <? x - y) eqn:E; [right | now left].
  apply Z.ltb_lt in E. apply Z.ltb_ge. lia.
Qed.

Lemma key_order_trans (a b c : JsNum) :
  num_pos a = true -> num_pos b = true -> num_pos c = true ->
  cmp_le num_sub a b -> cmp_le num_sub b c -> cmp_le num_sub a c.
Proof.
  unfold cmp_le. destruct a as [x| | |], b as [y| | |], c as [z| | |]; simpl;
    try discriminate; auto.
  intros _ _ _. rewrite !Z.ltb_ge. lia.
Qed.

Lemma key_order_strict (a b : JsNum) :
  num_pos a = true -> num_pos b = true ->
  cmp_le num_sub a b -> a <> b -> num_neg (num_sub a b) = true.
Proof.
  unfold cmp_le. destruct a as [x| | |], b as [y| | |]; simpl;
    try discriminate; auto; try congruence.
  intros _ _ H Hn. apply Z.ltb_ge in H. apply Z.ltb_lt.
  assert (x <> y) by congruence. lia.
Qed.

Lemma unit_compare_consistent : consistent unit_compare.
Proof.
  unfold consistent, cmp_le, unit_compare. simpl. split.
  - intros a b. rewrite !Z.ltb_ge. lia.
  - intros a b c. rewrite !Z.ltb_ge. lia.
Qed.

Section OrderFacts.
Variable cn_stroke : JsStr -> Outcome JsVal.
Variable cn_order : JsStr -> Outcome JsVal.
Variable localeCompare : JsStr -> JsStr -> JsNum.
Hypothesis collation : consistent localeCompare.

Local Abbreviation groupByStroke := (Extend.groupByStroke cn_stroke cn_order).
Local Abbreviation key := (key_of cn_stroke cn_order).
Local Abbreviation inOrder := (ordered localeCompare).
Local Abbreviation before :=
  (stroke_then_collation cn_stroke cn_order localeCompare).

Lemma sorted_keys_strict (l : list JsStr) :
  StronglySorted (fun a b => cmp_le num_sub a b /\ a <> b)
    (Extend.sorted_keys (groupByStroke l)).
Proof.
  apply sorted_distinct.
  - apply (js_sort_sorted num_sub (fun n => num_pos n = true)).
    + apply key_order_total.
    + apply key_order_trans.
    + apply group_keys_pos.
  - apply js_sort_NoDup, group_keys_NoDup.
Qed.

Lemma ordered_sorted (l : list JsStr) :
  NoDup l -> StronglySorted before (inOrder (groupByStroke l)).
Proof using collation.
  intros Hn. unfold ordered.
  apply concat_map_sorted
    with (Rk := fun a b : JsNum => cmp_le num_sub a b /\ a <> b).
  - apply sorted_keys_strict.
  - intros k _.
    assert (Hs : StronglySorted (cmp_le localeCompare)
                   (Extend.sorted_bucket localeCompare (groupByStroke l) k)).
    { destruct collation as [Ht Htr].
      apply (js_sort_sorted localeCompare (fun _ => True)); auto.
      - intros a b c _ _ _. apply Htr.
      - apply Forall_forall. auto. }
    assert (Hk : Forall (fun ch => key ch = Some k)
                   (Extend.sorted_bucket localeCompare (groupByStroke l) k)).
    { apply Forall_forall. intros ch Hc.
      rewrite sorted_bucket_In, bucket_In in Hc by assumption. tauto. }
    induction Hs as [|a s Hs IH Ha].
    + constructor.
    + inversion Hk as [|? ? Hka Hks]; subst. constructor; [now apply IH|].
      rewrite Forall_forall in *. intros y Hy. exists k, k.
      repeat split; auto.
  - intros k k' x y Hk Hk' [Hle Hne] Hx Hy.
    rewrite sorted_bucket_In, bucket_In in Hx, Hy by assumption.
    exists k, k'. repeat split; try tauto. left.
    apply key_order_strict; auto.
    + destruct Hx as [_ Hx]. now apply key_of_pos in Hx.
    + destruct Hy as [_ Hy]. now apply key_of_pos in Hy.
Qed.
End OrderFacts.

Lemma demo_union_NoDup : NoDup demo_union.
Proof.
  unfold demo_union.
  repeat (constructor; [simpl; intuition discriminate|]). constructor.
Qed.

(** ** The selection policy *)

(** C1, as amended: for a limit [L] from 0 up to, and not including, the
    number of classified characters of the union, the selection keeps
    exactly [L] characters, all of them bucketed ones, and every kept
    character stands before every dropped one in the order by ascending
    stroke count and then collation. *)
Theorem select_takes_smallest :
  forall (cn_stroke cn_order : JsStr -> Outcome JsVal)
         (localeCompare : JsStr -> JsStr -> JsNum) (union : JsSet) (L : Z),
    NoDup union ->
    consistent localeCompare ->
    0 <= L < Extend.total_of (Extend.groupByStroke cn_stroke cn_order union) ->
    set_size
      (chars_of (Extend.select cn_stroke cn_order localeCompare L
                   (Extend.groupByStroke cn_stroke cn_order union))) = L
    /\ Extend.total_of
         (Extend.select cn_stroke cn_order localeCompare L
            (Extend.groupByStroke cn_stroke cn_order union)) = L
    /\ (forall x,
          In x (chars_of (Extend.select cn_stroke cn_order localeCompare L
                            (Extend.groupByStroke cn_stroke cn_order union))) ->
          In x (chars_of (Extend.groupByStroke cn_stroke cn_order union)))
    /\ (forall x y,
          In x (chars_of (Extend.select cn_stroke cn_order localeCompare L
                            (Extend.groupByStroke cn_stroke cn_order union))) ->
          In y (chars_of (Extend.groupByStroke cn_stroke cn_order union)) ->
          ~ In y (chars_of (Extend.select cn_stroke cn_order localeCompare L
                              (Extend.groupByStroke cn_stroke cn_order union))) ->
          stroke_then_collation cn_stroke cn_order localeCompare x y).
Proof.
  intros cn_stroke cn_order localeCompare union L Hn Hc [H0 HL].
  set (m := Extend.groupByStroke cn_stroke cn_order union) in *.
  set (ord := ordered localeCompare m).
  assert (Hord : NoDup ord) by now apply ordered_NoDup.
  assert (Hpick : NoDup (firstn (Z.to_nat L) ord)) by now apply firstn_NoDup.
  assert (Hlen : length (firstn (Z.to_nat L) ord) = Z.to_nat L).
  { apply firstn_length_le. unfold m in HL.
    rewrite total_of_ordered with (localeCompare := localeCompare) in HL.
    fold m ord in HL. lia. }
  assert (Hcls : filter (classified cn_stroke cn_order)
                   (firstn (Z.to_nat L) ord) = firstn (Z.to_nat L) ord).
  { apply forallb_filter_id. apply forallb_forall. intros x Hx.
    apply firstn_In in Hx. unfold ord, m in Hx.
    now apply ordered_In in Hx. }
  assert (Hsize : set_size
      (chars_of (Extend.select cn_stroke cn_order localeCompare L m)) = L).
  { unfold m. rewrite select_cut by assumption. fold m ord. unfold set_size.
    rewrite (Permutation_length (chars_of_classified cn_stroke cn_order _ Hpick)).
    rewrite Hcls, Hlen. lia. }
  split; [exact Hsize|]. split.
  { unfold m. rewrite select_cut by assumption. fold m ord.
    rewrite total_of_chars by assumption.
    unfold m in Hsize. rewrite select_cut in Hsize by assumption.
    exact Hsize. }
  split.
  - intros x Hx. unfold m in Hx. rewrite select_cut_In in Hx by assumption.
    apply firstn_In in Hx.
    apply (Permutation_in x (Permutation_sym (chars_of_ordered _ _ localeCompare union Hn))).
    exact Hx.
  - intros x y Hx Hy Hny. unfold m in Hx, Hny.
    rewrite select_cut_In in Hx, Hny by assumption. fold m ord in Hx, Hny.
    apply (Permutation_in y (chars_of_ordered _ _ localeCompare union Hn)) in Hy.
    fold m ord in Hy. rewrite <- (firstn_skipn (Z.to_nat L) ord) in Hy.
    apply in_app_or in Hy. destruct Hy as [Hy|Hy]; [contradiction|].
    apply (sorted_app_inv _ (firstn (Z.to_nat L) ord) (skipn (Z.to_nat L) ord));
      try assumption.
    rewrite firstn_skipn. unfold ord, m. now apply ordered_sorted.
Qed.

Lemma select_takes_smallest_witness :
  set_size
    (chars_of (Extend.select demo_stroke demo_order unit_compare 2
                 (Extend.groupByStroke demo_stroke demo_order demo_union))) = 2.
Proof.
  assert (HL : 0 <= 2 <
    Extend.total_of (Extend.groupByStroke demo_stroke demo_order demo_union))
    by (split; [lia | vm_compute; reflexivity]).
  destruct (select_takes_smallest demo_stroke demo_order unit_compare
              demo_union 2 demo_union_NoDup unit_compare_consistent HL)
    as [H _].
  exact H.
Defined.

(** C1 as stated fails: three characters in the union, two of them without
    a stroke count, and a limit of 2 leave one character, not two. *)
Lemma select_size_counterexample :
  2 < set_size [[19968]; [65]; [66]] /\
  set_size
    (chars_of (Extend.select demo_stroke demo_order unit_compare 2
                 (Extend.groupByStroke demo_stroke demo_order
                    [[19968]; [65]; [66]]))) <> 2.
Proof. split; [reflexivity | discriminate]. Qed.

(** C2, as amended: with a limit of at least the size of the union nothing
    is cut, and the characters of the output are the classified characters
    of the union; they are the whole union when every character of it has
    a stroke count. *)
Theorem no_cut_keeps_classified :
  forall (cn_stroke cn_order : JsStr -> Outcome JsVal)
         (localeCompare : JsStr -> JsStr -> JsNum) (union : JsSet) (L : Z),
    NoDup union ->
    set_size union <= L ->
    Extend.select cn_stroke cn_order localeCompare L
      (Extend.groupByStroke cn_stroke cn_order union) =
    Extend.groupByStroke cn_stroke cn_order union
    /\ (forall ch,
          In ch (chars_of (Extend.select cn_stroke cn_order localeCompare L
                             (Extend.groupByStroke cn_stroke cn_order union)))
          <-> In ch union /\ classified cn_stroke cn_order ch = true)
    /\ ((forall ch, In ch union -> classified cn_stroke cn_order ch = true) ->
        forall ch,
          In ch (chars_of (Extend.select cn_stroke cn_order localeCompare L
                             (Extend.groupByStroke cn_stroke cn_order union)))
          <-> In ch union).
Proof.
  intros cn_stroke cn_order localeCompare union L Hn HL.
  assert (Hk : Extend.select cn_stroke cn_order localeCompare L
                 (Extend.groupByStroke cn_stroke cn_order union) =
               Extend.groupByStroke cn_stroke cn_order union).
  { apply select_keep. pose proof (total_of_le cn_stroke cn_order union Hn).
    lia. }
  rewrite Hk. split; [reflexivity|]. split.
  - intros ch. now apply chars_of_In.
  - intros Hall ch. rewrite chars_of_In by assumption.
    split; [tauto | auto].
Qed.

Lemma no_cut_keeps_classified_witness :
  In [19977]
    (chars_of (Extend.select demo_stroke demo_order unit_compare 4
                 (Extend.groupByStroke demo_stroke demo_order demo_union)))
  <-> In [19977] demo_union /\ classified demo_stroke demo_order [19977] = true.
Proof.
  assert (HL : set_size demo_union <= 4) by (vm_compute; discriminate).
  destruct (no_cut_keeps_classified demo_stroke demo_order unit_compare
              demo_union 4 demo_union_NoDup HL) as [_ [H _]].
  exact (H [19977]).
Defined.

(** C2 as stated fails: a character without a stroke count is in the
    union and not in the output, whatever the limit. *)
Lemma union_dropped_counterexample :
  set_size [[19968]; [65]] <= 5 /\
  In [65] [[19968]; [65]] /\
  ~ In [65]
      (chars_of (Extend.select demo_stroke demo_order unit_compare 5
                   (Extend.groupByStroke demo_stroke demo_order
                      [[19968]; [65]]))).
Proof.
  split; [discriminate|]. split; [simpl; auto|].
  vm_compute. intuition discriminate.
Qed.

(** ** The two classifications *)

Lemma strokeOf_agree_on_direct (cn_stroke cn_order : JsStr -> Outcome JsVal)
  (ch : JsStr) (z : Z) :
  cn_stroke ch = Ret (VNum (Fin z)) -> 0 < z ->
  Extend.strokeOf cn_stroke cn_order ch = Some (Fin z) /\
  Analyze.strokeOf cn_stroke cn_order ch = Some (Fin z).
Proof.
  intros H Hz. unfold Extend.strokeOf, Analyze.strokeOf, Analyze.direct.
  rewrite H. simpl. apply Z.ltb_lt in Hz. rewrite Hz. auto.
Qed.

(** Where the library does answer with stroke sequences the two
    functions part. For 丁 the table gives no count and the stroke
    letters "jk": the pipeline answers 2, the length of the first
    element, the analyzer answers 1, the length of the array. For 乙 the
    direct query throws: the pipeline gives up, the analyzer still asks
    for the stroke letters. *)
Example strokeOf_with_sequences :
  Extend.strokeOf demo_stroke demo_order [19969] = Some (Fin 2)
  /\ Analyze.strokeOf demo_stroke demo_order [19969] = Some (Fin 1)
  /\ Extend.strokeOf demo_stroke demo_order [20057] = None
  /\ Analyze.strokeOf demo_stroke demo_order [20057] = Some (Fin 1).
Proof. vm_compute. auto. Qed.



(** ** Characters without a stroke count *)

Section UnknownFacts.
Variable cn_stroke : JsStr -> Outcome JsVal.
Variable cn_order : JsStr -> Outcome JsVal.

Lemma both_fail_extend (ch : JsStr) :
  direct_fails cn_stroke ch -> fallback_fails cn_order ch ->
  Extend.strokeOf cn_stroke cn_order ch = None.
Proof.
  unfold direct_fails, fallback_fails, Extend.strokeOf, Extend.first_length.
  intros Hd Hf. destruct (cn_order ch) as [order|].
  - rewrite Hf. destruct (cn_stroke ch) as [[| |b|n|s|l]|]; try reflexivity.
    now rewrite Hd.
  - destruct (cn_stroke ch) as [[| |b|n|s|l]|]; try reflexivity.
    now rewrite Hd.
Qed.

Lemma both_fail_analyze (ch : JsStr) :
  direct_fails cn_stroke ch -> fallback_fails cn_order ch ->
  Analyze.strokeOf cn_stroke cn_order ch = None.
Proof.
  unfold direct_fails, fallback_fails, Analyze.strokeOf, Analyze.direct,
    Analyze.fallback.
  intros Hd Hf.
  assert (F : match cn_order ch with
              | Ret order =>
                  match nonempty_array order with
                  | Some l => Some (Fin (Z.of_nat (length l)))
                  | None => None
                  end
              | Throw => None
              end = None).
  { destruct (cn_order ch) as [order|]; [now rewrite Hf | reflexivity]. }
  destruct (cn_stroke ch) as [[| |b|n|s|l]|]; try exact F.
  rewrite Hd, andb_false_r. exact F.
Qed.

Lemma entry_get (m : StrokeMap) (k : JsNum) (s : JsSet) :
  NoDup (map_keys m) -> In (k, s) m -> map_get k m = s.
Proof.
  induction m as [|[k0 s0] m IH]; simpl; intros Hn H.
  - contradiction.
  - inversion Hn as [|? ? Hk Hn']; subst. destruct H as [H|H].
    + injection H as -> ->. now rewrite num_eqb_refl.
    + rewrite num_eqb_neq; [now apply IH|]. intros ->. apply Hk.
      change k0 with (fst (k0, s)). now apply in_map.
Qed.

Lemma unclassified_in_no_bucket (chars : list JsStr) (ch : JsStr)
  (k : JsNum) (s : JsSet) :
  key_of cn_stroke cn_order ch = None ->
  In (k, s) (Extend.groupByStroke cn_stroke cn_order chars) -> ~ In ch s.
Proof.
  intros Hk Hin Hc.
  apply entry_get in Hin; [|apply group_keys_NoDup]. subst s.
  unfold Extend.groupByStroke in Hc. rewrite fold_group_get in Hc.
  apply set_add_all_In in Hc. destruct Hc as [[]|Hc].
  apply filter_In in Hc. destruct Hc as [_ Hc].
  apply key_is_true in Hc. congruence.
Qed.

Lemma tally_unknown_shift (l : list JsStr) (d : Analyze.Dist) (u : Z) :
  fold_left (Analyze.tally_step cn_stroke cn_order) l (d, u + 1) =
  (fst (fold_left (Analyze.tally_step cn_stroke cn_order) l (d, u)),
   snd (fold_left (Analyze.tally_step cn_stroke cn_order) l (d, u)) + 1).
Proof.
  revert d u. induction l as [|c l IH]; intros d u; simpl.
  - reflexivity.
  - destruct (Analyze.strokeOf cn_stroke cn_order c); apply IH.
Qed.

Lemma tally_unknown_count (l : list JsStr) (d : Analyze.Dist) (u : Z) :
  snd (fold_left (Analyze.tally_step cn_stroke cn_order) l (d, u)) =
  u + Z.of_nat (length (filter
        (fun c => is_none (Analyze.strokeOf cn_stroke cn_order c)) l)).
Proof.
  revert d u. induction l as [|c l IH]; intros d u; simpl.
  - lia.
  - destruct (Analyze.strokeOf cn_stroke cn_order c); simpl; rewrite IH;
      simpl length; lia.
Qed.
End UnknownFacts.

(** C4: a character for which the direct query and the fallback both fail
    is in no bucket of the pipeline's bucket map and leaves no trace in
    it, the map being the one built without the character; the analyzer
    counts it in its unknown tally, which is the number of characters
    without a count and is reported when it is above zero. *)
Theorem unknown_excluded_and_tallied :
  forall (cn_stroke cn_order : JsStr -> Outcome JsVal) (ch : JsStr),
    direct_fails cn_stroke ch ->
    fallback_fails cn_order ch ->
    (forall chars k s,
        In (k, s) (Extend.groupByStroke cn_stroke cn_order chars) ->
        ~ In ch s)
    /\ (forall l1 l2,
          Extend.groupByStroke cn_stroke cn_order (l1 ++ ch :: l2) =
          Extend.groupByStroke cn_stroke cn_order (l1 ++ l2))
    /\ (forall l1 l2,
          Analyze.tally cn_stroke cn_order (l1 ++ ch :: l2) =
          (fst (Analyze.tally cn_stroke cn_order (l1 ++ l2)),
           snd (Analyze.tally cn_stroke cn_order (l1 ++ l2)) + 1))
    /\ (forall set,
          snd (Analyze.tally cn_stroke cn_order set) =
          Z.of_nat (length (filter
            (fun c => is_none (Analyze.strokeOf cn_stroke cn_order c)) set)))
    /\ (forall set,
          In ch set ->
          snd (Analyze.distribution_line cn_stroke cn_order set) =
          Some (snd (Analyze.tally cn_stroke cn_order set))).
Proof.
  intros cn_stroke cn_order ch Hd Hf.
  pose proof (both_fail_extend _ _ _ Hd Hf) as He.
  pose proof (both_fail_analyze _ _ _ Hd Hf) as Ha.
  split; [|split; [|split; [|split]]].
  - intros chars k s. apply unclassified_in_no_bucket.
    unfold key_of. now rewrite He.
  - intros l1 l2. unfold Extend.groupByStroke. rewrite !fold_left_app.
    cbn [fold_left]. f_equal. unfold Extend.group_step. now rewrite He.
  - intros l1 l2. unfold Analyze.tally. rewrite !fold_left_app.
    destruct (fold_left (Analyze.tally_step cn_stroke cn_order) l1 ([], 0))
      as [d u].
    change (fold_left (Analyze.tally_step cn_stroke cn_order) (ch :: l2) (d, u))
      with (fold_left (Analyze.tally_step cn_stroke cn_order) l2
              (Analyze.tally_step cn_stroke cn_order (d, u) ch)).
    assert (Hs : Analyze.tally_step cn_stroke cn_order (d, u) ch = (d, u + 1))
      by (unfold Analyze.tally_step; now rewrite Ha).
    rewrite Hs. apply tally_unknown_shift.
  - intros set. unfold Analyze.tally. now rewrite tally_unknown_count.
  - intros set Hin. unfold Analyze.distribution_line.
    assert (Hpos : 0 < snd (Analyze.tally cn_stroke cn_order set)).
    { unfold Analyze.tally. rewrite tally_unknown_count.
      assert (Hc : In ch (filter
        (fun c => is_none (Analyze.strokeOf cn_stroke cn_order c)) set)).
      { apply filter_In. split; [assumption | now rewrite Ha]. }
      destruct (filter _ set); [contradiction | simpl length; lia]. }
    destruct (Analyze.tally cn_stroke cn_order set) as [d u]. simpl in *.
    apply Z.ltb_lt in Hpos. now rewrite Hpos.
Qed.

Lemma unknown_excluded_and_tallied_witness :
  Extend.groupByStroke demo_stroke demo_order ([[19968]] ++ [65] :: [[20108]]) =
  Extend.groupByStroke demo_stroke demo_order ([[19968]] ++ [[20108]])
  /\
  Analyze.tally demo_stroke demo_order ([[19968]] ++ [65] :: [[20108]]) =
  (fst (Analyze.tally demo_stroke demo_order ([[19968]] ++ [[20108]])),
   snd (Analyze.tally demo_stroke demo_order ([[19968]] ++ [[20108]])) + 1).
Proof.
  assert (Hd : direct_fails demo_stroke [65]) by (vm_compute; exact I).
  assert (Hf : fallback_fails demo_order [65]) by (vm_compute; reflexivity).
  destruct (unknown_excluded_and_tallied demo_stroke demo_order [65] Hd Hf)
    as [_ [G [H _]]].
  split; [exact (G [[19968]] [[20108]]) | exact (H [[19968]] [[20108]])].
Defined.

(** C4, the claim as stated fails for the pipeline: it tallies nothing.
    U+9F8D (龍) has no stroke count, directly or by the fallback. The run
    whose font "b.ttf" holds it has it in its union, and prints, writes
    and leaves exactly what the run without it does: nothing the
    pipeline reports tells that a character, or how many, went into no
    bucket. The analyzer's tally on the two unions differs by one. *)
Lemma pipeline_reports_no_tally :
  exists union log log' run run',
    Extend.union_of ttf_ext slash_join demo_inputs = Some (union, log)
    /\ Extend.union_of ttf_ext slash_join demo_unknown_inputs =
         Some (union ++ [[40845]], log')
    /\ Extend.main demo_stroke demo_order unit_compare ttf_ext slash_join
         demo_inputs = Some run
    /\ Extend.main demo_stroke demo_order unit_compare ttf_ext slash_join
         demo_unknown_inputs = Some run'
    /\ direct_fails demo_stroke [40845]
    /\ fallback_fails demo_order [40845]
    /\ ~ In [40845] union
    /\ run' = run
    /\ Extend.printed run' =
         [Counts 1 274 275 10; FontFailed [115; 47; 97; 46; 116; 116; 102];
          Generated]
    /\ Extend.written run' =
         Some [49; HUA; TAB; 19968; LF; 50; HUA; TAB; 20108; LF;
               51; HUA; TAB; 19977; LF]
    /\ snd (Analyze.tally demo_stroke demo_order union) = 274
    /\ snd (Analyze.tally demo_stroke demo_order (union ++ [[40845]])) = 275.
Proof.
  destruct (Extend.union_of ttf_ext slash_join demo_inputs)
    as [[union log]|] eqn:Eu; [|vm_compute in Eu; discriminate Eu].
  destruct (Extend.main demo_stroke demo_order unit_compare ttf_ext
              slash_join demo_inputs) as [run|] eqn:Em;
    [|vm_compute in Em; discriminate Em].
  destruct (Extend.main demo_stroke demo_order unit_compare ttf_ext
              slash_join demo_unknown_inputs) as [run'|] eqn:Em';
    [|vm_compute in Em'; discriminate Em'].
  vm_compute in Eu. injection Eu as <- <-.
  vm_compute in Em. injection Em as <-.
  vm_compute in Em'. injection Em' as <-.
  eexists _, _, _, _, _.
  split; [reflexivity|]. split; [vm_compute; reflexivity|].
  split; [reflexivity|]. split; [reflexivity|].
  split; [vm_compute; exact I|]. split; [vm_compute; reflexivity|].
  split.
  { intros Hin. apply (proj2 (set_has_In _ _)) in Hin.
    vm_compute in Hin. discriminate Hin. }
  split; [reflexivity|]. split; [reflexivity|]. split; [reflexivity|].
  split; vm_compute; reflexivity.
Qed.

(** ** The loader and the candidate pool *)

Lemma candidates_in_cjk :
  Forall (fun ch => exists c, ch = [c] /\ in_cjk c = true)
    Extend.buildCandidateSet.
Proof.
  assert (H : forallb (fun ch => match ch with
                                  | [c] => in_cjk c
                                  | _ => false
                                  end) Extend.buildCandidateSet = true)
    by (vm_compute; reflexivity).
  rewrite forallb_forall in H. apply Forall_forall. intros ch Hc.
  specialize (H ch Hc). clear Hc.
  destruct ch as [|c [|d r]]; try discriminate H.
  exists c. auto.
Qed.

(** C5: the loader keeps every token of length one, whatever its code
    point. The line "1画<TAB>A" yields the set with the Latin letter A,
    which is outside U+4E00 to U+9FFF. *)
Theorem loader_keeps_non_cjk :
  Extend.parseExistingChars [49; HUA; TAB; 65] = [[65]]
  /\ in_cjk 65 = false.
Proof. vm_compute. auto. Qed.

(** ** The union of the sources *)

Lemma add_length1_In (arr : list JsStr) (u : JsSet) (x : JsStr) :
  In x (fold_left Extend.add_length1 arr u) <->
  In x u \/ (In x arr /\ length x = 1%nat).
Proof.
  revert u. induction arr as [|a arr IH]; intros u; simpl.
  - tauto.
  - rewrite IH. unfold Extend.add_length1.
    destruct (Nat.eqb_spec (length a) 1) as [E|E].
    + rewrite set_add_In. split.
      * intros [[->|H]|H]; auto. tauto.
      * intros [H|[[->|H] Hl]]; auto.
    + split.
      * intros [H|H]; auto. tauto.
      * intros [H|[[->|H] Hl]]; auto. contradiction.
Qed.

Lemma add_length1_NoDup (arr : list JsStr) (u : JsSet) :
  NoDup u -> NoDup (fold_left Extend.add_length1 arr u).
Proof.
  revert u. induction arr as [|a arr IH]; intros u H; simpl.
  - assumption.
  - apply IH. unfold Extend.add_length1.
    destruct (length a =? 1)%nat; [now apply set_add_NoDup | assumption].
Qed.

Lemma add_length1_present (arr : list JsStr) (u : JsSet) :
  (forall x, In x arr -> length x = 1%nat -> In x u) ->
  fold_left Extend.add_length1 arr u = u.
Proof.
  induction arr as [|a arr IH]; intros H; simpl.
  - reflexivity.
  - assert (E : Extend.add_length1 u a = u).
    { unfold Extend.add_length1.
      destruct (Nat.eqb_spec (length a) 1) as [E|E]; [|reflexivity].
      apply set_add_member. apply H; simpl; auto. }
    rewrite E. apply IH. intros x Hx. apply H. now right.
Qed.

Lemma include_step_eq (u : JsSet) (log : list Event) (p : JsStr)
  (o : Outcome JsStr) :
  Extend.include_step (u, log) (p, o) =
  match o with
  | Ret t =>
      (fold_left Extend.add_length1 (Extend.include_tokens t) u,
       log ++ [IncludeMerged p (Z.of_nat (length (Extend.include_tokens t)))])
  | Throw => (u, log ++ [IncludeFailed p])
  end.
Proof. reflexivity. Qed.

Lemma include_fold_In (incs : list (JsStr * Outcome JsStr)) (u : JsSet)
  (log : list Event) (x : JsStr) :
  In x (fst (fold_left Extend.include_step incs (u, log))) <->
  In x u \/ exists p t, In (p, Ret t) incs /\
                        In x (Extend.include_tokens t) /\ length x = 1%nat.
Proof.
  revert u log. induction incs as [|[p o] incs IH]; intros u log.
  - simpl. split; [auto | intros [H|[p [t [[] _]]]]; assumption].
  - change (fold_left Extend.include_step ((p, o) :: incs) (u, log))
      with (fold_left Extend.include_step incs
              (Extend.include_step (u, log) (p, o))).
    rewrite include_step_eq. destruct o as [t|]; rewrite IH.
    + rewrite add_length1_In. split.
      * intros [[H|[H1 H2]]|[q [t' [H1 H2]]]]; auto.
        -- right. exists p, t. simpl. auto.
        -- right. exists q, t'. simpl. auto.
      * intros [H|[q [t' [[H1|H1] H2]]]]; auto.
        -- injection H1 as -> ->. left. right. exact H2.
        -- right. exists q, t'. auto.
    + split.
      * intros [H|[q [t' [H1 H2]]]]; auto.
        right. exists q, t'. simpl. auto.
      * intros [H|[q [t' [[H1|H1] H2]]]]; auto; [discriminate|].
        right. exists q, t'. auto.
Qed.

Lemma include_fold_NoDup (incs : list (JsStr * Outcome JsStr)) (u : JsSet)
  (log : list Event) :
  NoDup u -> NoDup (fst (fold_left Extend.include_step incs (u, log))).
Proof.
  revert u log. induction incs as [|[p o] incs IH]; intros u log H.
  - assumption.
  - change (fold_left Extend.include_step ((p, o) :: incs) (u, log))
      with (fold_left Extend.include_step incs
              (Extend.include_step (u, log) (p, o))).
    rewrite include_step_eq.
    destruct o as [t|]; apply IH; [now apply add_length1_NoDup | assumption].
Qed.

Lemma include_fold_perm (incs incs' : list (JsStr * Outcome JsStr))
  (u : JsSet) (x : JsStr) :
  Permutation incs incs' ->
  In x (fst (fold_left Extend.include_step incs (u, []))) <->
  In x (fst (fold_left Extend.include_step incs' (u, []))).
Proof.
  intros Hp. rewrite (include_fold_In incs), (include_fold_In incs').
  split; (intros [H|[q [t' [H1 H2]]]]; [left; exact H|]); right; exists q, t';
    (split; [|assumption]).
  - exact (Permutation_in _ Hp H1).
  - exact (Permutation_in _ (Permutation_sym Hp) H1).
Qed.

Lemma merge_sources_NoDup (raw : JsStr)
  (incs : list (JsStr * Outcome JsStr)) :
  NoDup (fst (Extend.merge_sources raw incs)).
Proof.
  unfold Extend.merge_sources. apply include_fold_NoDup.
  apply set_add_all_NoDup, set_add_all_NoDup. constructor.
Qed.

Lemma merge_sources_app (raw : JsStr)
  (incs more : list (JsStr * Outcome JsStr)) :
  Extend.merge_sources raw (incs ++ more) =
  fold_left Extend.include_step more (Extend.merge_sources raw incs).
Proof. unfold Extend.merge_sources. apply fold_left_app. Qed.

(** C7: adding a character the union has changes nothing; the include
    files can be read in any order without changing which characters the
    union has or how many; an include file whose single characters are
    all in the union already leaves the union as it is. *)
Theorem union_idempotent_commutative :
  forall (raw : JsStr) (incs incs' : list (JsStr * Outcome JsStr))
         (p t ch : JsStr),
    Permutation incs incs' ->
    In ch (fst (Extend.merge_sources raw incs)) ->
    (forall x, In x (Extend.include_tokens t) -> length x = 1%nat ->
               In x (fst (Extend.merge_sources raw incs))) ->
    set_add ch (fst (Extend.merge_sources raw incs)) =
      fst (Extend.merge_sources raw incs)
    /\ (forall x, In x (fst (Extend.merge_sources raw incs)) <->
                  In x (fst (Extend.merge_sources raw incs')))
    /\ set_size (fst (Extend.merge_sources raw incs)) =
       set_size (fst (Extend.merge_sources raw incs'))
    /\ fst (Extend.merge_sources raw (incs ++ [(p, Ret t)])) =
       fst (Extend.merge_sources raw incs).
Proof.
  intros raw incs incs' p t ch Hp Hch Ht.
  assert (Hsame : forall x, In x (fst (Extend.merge_sources raw incs)) <->
                            In x (fst (Extend.merge_sources raw incs'))).
  { intros x. unfold Extend.merge_sources. now apply include_fold_perm. }
  split; [now apply set_add_member|]. split; [exact Hsame|]. split.
  - apply nodup_same_size; auto using merge_sources_NoDup.
  - rewrite merge_sources_app.
    destruct (Extend.merge_sources raw incs) as [u log] eqn:E. simpl in *.
    now rewrite add_length1_present.
Qed.

Lemma union_idempotent_commutative_witness :
  fst (Extend.merge_sources [49; HUA; TAB; 19968]
         ([([97], Ret [19977; 44; 20108])] ++ [([98], Ret [19968; 10])])) =
  fst (Extend.merge_sources [49; HUA; TAB; 19968]
         [([97], Ret [19977; 44; 20108])]).
Proof.
  assert (Hp : Permutation [([97], Ret [19977; 44; 20108])]
                           [([97] : JsStr, Ret ([19977; 44; 20108] : JsStr))])
    by apply Permutation_refl.
  assert (Hch : In [19968] (fst (Extend.merge_sources [49; HUA; TAB; 19968]
                                   [([97], Ret [19977; 44; 20108])]))).
  { vm_compute. auto. }
  assert (Ht : forall x, In x (Extend.include_tokens [19968; 10]) ->
                 length x = 1%nat ->
                 In x (fst (Extend.merge_sources [49; HUA; TAB; 19968]
                              [([97], Ret [19977; 44; 20108])]))).
  { intros x Hx _. vm_compute in Hx. destruct Hx as [<-|[]]. exact Hch. }
  destruct (union_idempotent_commutative [49; HUA; TAB; 19968] _ _
              [98] [19968; 10] [19968] Hp Hch Ht) as [_ [_ [_ H]]].
  exact H.
Defined.

(** ** Trimming *)

Lemma trimStart_starts (s : JsStr) : starts_nonws (trimStart s).
Proof.
  induction s as [|c s IH]; simpl.
  - exact I.
  - destruct (is_ws c) eqn:E; [exact IH | exact E].
Qed.

Lemma trimStart_id (s : JsStr) : starts_nonws s -> trimStart s = s.
Proof.
  destruct s as [|c s]; simpl; intros H; [reflexivity | now rewrite H].
Qed.

Lemma trimStart_split (s : JsStr) :
  exists w, s = w ++ trimStart s /\ forallb is_ws w = true.
Proof.
  induction s as [|c s [w [Hs Hw]]]; simpl.
  - exists []. auto.
  - destruct (is_ws c) eqn:E.
    + exists (c :: w). simpl. rewrite E, Hw. split; [now f_equal | reflexivity].
    + exists []. auto.
Qed.

Lemma trimStart_ws (w s : JsStr) :
  forallb is_ws w = true -> trimStart (w ++ s) = trimStart s.
Proof.
  induction w as [|c w IH]; simpl; intros H.
  - reflexivity.
  - apply andb_true_iff in H. destruct H as [Hc Hw]. rewrite Hc. now apply IH.
Qed.

Lemma trimStart_app (u w : JsStr) :
  w <> [] -> starts_nonws w -> trimStart (u ++ w) = trimStart u ++ w.
Proof.
  intros Hne Hw. induction u as [|c u IH]; simpl.
  - now apply trimStart_id.
  - destruct (is_ws c); [exact IH | reflexivity].
Qed.

Lemma trimEnd_split (s : JsStr) :
  exists w, s = trimEnd s ++ w /\ forallb is_ws w = true.
Proof.
  unfold trimEnd. destruct (trimStart_split (rev s)) as [w [Hs Hw]].
  exists (rev w). split.
  - rewrite <- (rev_involutive s), Hs at 1. now rewrite rev_app_distr.
  - rewrite forallb_forall in *. intros x Hx. apply Hw. now apply in_rev.
Qed.

Lemma trimEnd_ends (s : JsStr) : ends_nonws (trimEnd s).
Proof.
  unfold ends_nonws, trimEnd. rewrite rev_involutive. apply trimStart_starts.
Qed.

Lemma trimEnd_id (s : JsStr) : ends_nonws s -> trimEnd s = s.
Proof.
  unfold ends_nonws, trimEnd. intros H. rewrite trimStart_id by assumption.
  apply rev_involutive.
Qed.

Lemma trimEnd_app (y v : JsStr) :
  y <> [] -> ends_nonws y -> trimEnd (y ++ v) = y ++ trimEnd v.
Proof.
  intros Hne Hy. unfold trimEnd. rewrite rev_app_distr, trimStart_app.
  - now rewrite rev_app_distr, rev_involutive.
  - intros E. apply Hne. rewrite <- (rev_involutive y), E. reflexivity.
  - exact Hy.
Qed.

Lemma trimEnd_ws (w : JsStr) : forallb is_ws w = true -> trimEnd w = [].
Proof.
  intros H. unfold trimEnd.
  assert (Hr : forallb is_ws (rev w) = true).
  { rewrite forallb_forall in *. intros x Hx. apply H. now apply in_rev. }
  rewrite <- (app_nil_r (rev w)), trimStart_ws by assumption. reflexivity.
Qed.

Lemma trimEnd_cons (c : Z) (s : JsStr) :
  is_ws c = false -> trimEnd (c :: s) = c :: trimEnd s.
Proof.
  intros H. apply (trimEnd_app [c] s); [discriminate | exact H].
Qed.

Lemma trim_starts (s : JsStr) : starts_nonws (trim s).
Proof.
  unfold trim. pose proof (trimStart_starts s) as H.
  destruct (trimStart s) as [|c r]; [exact I|].
  simpl in H. now rewrite trimEnd_cons.
Qed.

Lemma trim_ends (s : JsStr) : ends_nonws (trim s).
Proof. apply trimEnd_ends. Qed.

Lemma trim_id (s : JsStr) : starts_nonws s -> ends_nonws s -> trim s = s.
Proof.
  intros H1 H2. unfold trim. rewrite trimStart_id by assumption.
  now apply trimEnd_id.
Qed.

Lemma trim_split (s : JsStr) :
  exists w1 w2, s = w1 ++ trim s ++ w2 /\
                forallb is_ws w1 = true /\ forallb is_ws w2 = true.
Proof.
  destruct (trimStart_split s) as [w1 [H1 Hw1]].
  destruct (trimEnd_split (trimStart s)) as [w2 [H2 Hw2]].
  exists w1, w2. unfold trim. rewrite <- H2. auto.
Qed.

(** Two trimmed texts around white space. *)
Lemma trim_around (p w s : JsStr) :
  starts_nonws p -> ends_nonws p -> starts_nonws s -> ends_nonws s ->
  forallb is_ws w = true ->
  trim (p ++ w ++ s) =
  if is_nil p then s else if is_nil s then p else p ++ w ++ s.
Proof.
  intros Hp1 Hp2 Hs1 Hs2 Hw. destruct p as [|c p].
  - simpl. unfold trim. rewrite trimStart_ws by assumption.
    rewrite trimStart_id by assumption. now apply trimEnd_id.
  - simpl is_nil. cbv iota. unfold trim.
    rewrite (trimStart_id ((c :: p) ++ w ++ s)) by exact Hp1.
    destruct s as [|d s].
    + simpl is_nil. cbv iota. rewrite app_nil_r.
      rewrite trimEnd_app; [|discriminate|exact Hp2].
      rewrite trimEnd_ws by assumption. apply app_nil_r.
    + simpl is_nil. cbv iota. rewrite trimEnd_app; [|discriminate|exact Hp2].
      f_equal. rewrite <- (rev_involutive (w ++ d :: s)).
      unfold trimEnd. rewrite rev_involutive. f_equal.
      rewrite rev_app_distr. apply trimStart_id.
      unfold ends_nonws in Hs2. destruct (rev (d :: s)) eqn:E.
      * apply (f_equal (@length Z)) in E. rewrite length_rev in E. discriminate.
      * exact Hs2.
Qed.

(** ** The regions of the document *)

Lemma prefix_of_trimmed (raw : JsStr) :
  starts_nonws (Extend.prefix_of raw) /\ ends_nonws (Extend.prefix_of raw).
Proof.
  unfold Extend.prefix_of.
  destruct (-1 <? indexOf raw PREFIX_ANCHOR).
  - split; [apply trim_starts | apply trim_ends].
  - split; exact I.
Qed.

Lemma suffix_of_trimmed (raw : JsStr) :
  starts_nonws (Extend.suffix_of raw) /\ ends_nonws (Extend.suffix_of raw).
Proof.
  unfold Extend.suffix_of.
  destruct (-1 <? indexOf raw SUFFIX_ANCHOR).
  - split; [apply trim_starts | apply trim_ends].
  - split; exact I.
Qed.

Lemma picked_of_zero (localeCompare : JsStr -> JsStr -> JsNum)
  (m : StrokeMap) :
  Extend.picked_of localeCompare 0 m = [].
Proof.
  unfold Extend.picked_of. destruct (Extend.sorted_keys m) as [|k rest].
  - reflexivity.
  - simpl. destruct (Extend.sorted_bucket localeCompare m k); reflexivity.
Qed.

(** The selection and the formatter at a limit of 0, a limit no command
    line gives [main]: with a bucket map that has a character, the
    selection leaves no bucket, the body is the empty text, and the
    document is the prefix region, four line feeds and the suffix region
    (an empty region taking its line feeds with it), ended by one line
    feed. *)
Lemma select_zero_empties_body :
  forall (cn_stroke cn_order : JsStr -> Outcome JsVal)
         (localeCompare : JsStr -> JsStr -> JsNum) (raw : JsStr)
         (m : StrokeMap),
    0 < Extend.total_of m ->
    Extend.select cn_stroke cn_order localeCompare 0 m = []
    /\ Extend.body_of localeCompare
         (Extend.select cn_stroke cn_order localeCompare 0 m) = []
    /\ Extend.formatOutput localeCompare raw
         (Extend.select cn_stroke cn_order localeCompare 0 m) =
       (if is_nil (Extend.prefix_of raw) then Extend.suffix_of raw
        else if is_nil (Extend.suffix_of raw) then Extend.prefix_of raw
        else Extend.prefix_of raw ++ [LF; LF; LF; LF] ++ Extend.suffix_of raw)
       ++ [LF].
Proof.
  intros cn_stroke cn_order localeCompare raw m Hm.
  assert (Hs : Extend.select cn_stroke cn_order localeCompare 0 m = []).
  { unfold Extend.select. apply Z.ltb_lt in Hm. rewrite Hm.
    now rewrite picked_of_zero. }
  rewrite Hs. split; [reflexivity|]. split; [reflexivity|].
  unfold Extend.formatOutput. f_equal.
  change (Extend.body_of localeCompare []) with (@nil Z).
  destruct (prefix_of_trimmed raw) as [Hp1 Hp2].
  destruct (suffix_of_trimmed raw) as [Hs1 Hs2].
  change (Extend.prefix_of raw ++ [LF; LF] ++ [] ++ [LF; LF] ++
          Extend.suffix_of raw)
    with (Extend.prefix_of raw ++ [LF; LF; LF; LF] ++ Extend.suffix_of raw).
  now apply trim_around.
Qed.

Lemma select_zero_empties_body_example :
  Extend.formatOutput unit_compare demo_content
    (Extend.select demo_stroke demo_order unit_compare 0
       (Extend.groupByStroke demo_stroke demo_order demo_union)) =
  [65; LF; LF; LF; LF] ++ SUFFIX_ANCHOR ++ [LF].
Proof.
  assert (Hm : 0 < Extend.total_of
                     (Extend.groupByStroke demo_stroke demo_order demo_union))
    by (vm_compute; reflexivity).
  destruct (select_zero_empties_body demo_stroke demo_order unit_compare
              demo_content _ Hm) as [_ [_ H]].
  rewrite H. vm_compute. reflexivity.
Qed.

(** C8: the limit 0 cannot be asked for. [--limit 0] leaves the limit at
    5800, since [parseInt('0', 10) || out.limit] is [out.limit]; the run
    on a [content.txt] with one classified character then cuts nothing
    and writes that character's line between the two regions, where the
    claim has an empty body. *)
Theorem limit_zero_runs_with_default :
  exists o run,
    Cli.parseArgs [114] slash_join slash_join [Cli.FLAG_LIMIT; [48]] = Ret o
    /\ Cli.limit o = 5800
    /\ Program.main demo_stroke demo_order unit_compare ttf_ext [114]
         slash_join slash_join demo_files [Cli.FLAG_LIMIT; [48]] = Some run
    /\ Extend.thrown run = false
    /\ In (Counts 1 274 275 5800) (Extend.printed run)
    /\ Extend.finalMap run = [(Fin 1, [[19968]])]
    /\ Extend.body_of unit_compare (Extend.finalMap run) =
         [49; HUA; TAB; 19968; LF]
    /\ Extend.written run =
         Some ([65; LF; LF; 49; HUA; TAB; 19968; LF; LF; LF] ++
               SUFFIX_ANCHOR ++ [LF])
    /\ Extend.written run <>
         Some ([65; LF; LF; LF; LF] ++ SUFFIX_ANCHOR ++ [LF]).
Proof.
  destruct (Program.main demo_stroke demo_order unit_compare ttf_ext [114]
              slash_join slash_join demo_files [Cli.FLAG_LIMIT; [48]])
    as [run|] eqn:Em; [|vm_compute in Em; discriminate Em].
  vm_compute in Em. injection Em as <-.
  eexists _, _. split; [vm_compute; reflexivity|].
  split; [reflexivity|]. split; [reflexivity|]. split; [reflexivity|].
  split; [simpl; auto|]. split; [reflexivity|].
  split; [vm_compute; reflexivity|]. split; [reflexivity|].
  intros H. vm_compute in H. discriminate H.
Qed.

(** ** Occurrences of a text in another *)

Lemma starts_with_spec (pat s : JsStr) :
  starts_with pat s = true <-> exists b, s = pat ++ b.
Proof.
  revert s. induction pat as [|p pat IH]; intros s; simpl.
  - split; [intros _; now exists s | reflexivity].
  - destruct s as [|c s].
    + split; [discriminate | intros [b H]; discriminate].
    + rewrite andb_true_iff, IH, Z.eqb_eq. split.
      * intros [-> [b ->]]. now exists b.
      * intros [b H]. injection H as -> ->. split; [reflexivity | now exists b].
Qed.

Lemma indexOf_from_spec (pat s : JsStr) (i : Z) :
  0 <= i ->
  (indexOf_from pat s i = -1 /\ ~ occurs pat s) \/
  (exists a b, s = a ++ pat ++ b /\
               indexOf_from pat s i = i + Z.of_nat (length a) /\
               forall a' b', s = a' ++ pat ++ b' ->
                             (length a <= length a')%nat).
Proof.
  revert i. induction s as [|c s IH]; intros i Hi.
  - simpl. destruct (starts_with pat []) eqn:E.
    + right. apply starts_with_spec in E. destruct E as [b E].
      exists [], b. simpl. repeat split; auto; lia.
    + left. split; [reflexivity|]. intros [a [b H]].
      destruct a; [|discriminate]. simpl in H.
      assert (Hs : starts_with pat [] = true)
        by (apply starts_with_spec; now exists b).
      congruence.
  - simpl indexOf_from. destruct (starts_with pat (c :: s)) eqn:E.
    + right. apply starts_with_spec in E. destruct E as [b E].
      exists [], b. simpl. repeat split; auto; lia.
    + assert (Hne : forall a' b', c :: s = a' ++ pat ++ b' -> a' <> []).
      { intros a' b' H ->. simpl in H.
        assert (Hs : starts_with pat (c :: s) = true)
          by (apply starts_with_spec; now exists b').
        congruence. }
      destruct (IH (i + 1)) as [[H1 H2]|[a [b [H1 [H2 H3]]]]]; [lia| |].
      * left. split; [exact H1|]. intros [a' [b' H]].
        destruct a' as [|c' a']; [now apply (Hne [] b' H)|].
        injection H as -> H. apply H2. now exists a', b'.
      * right. exists (c :: a), b. split; [simpl; now f_equal|]. split.
        -- rewrite H2. simpl length. lia.
        -- intros a' b' H. destruct a' as [|c' a'];
             [now destruct (Hne [] b' H)|].
           injection H as -> H. simpl. apply le_n_S. exact (H3 a' b' H).
Qed.

Lemma indexOf_absent (s pat : JsStr) :
  indexOf s pat = -1 <-> ~ occurs pat s.
Proof.
  unfold indexOf.
  destruct (indexOf_from_spec pat s 0) as [[H1 H2]|[a [b [H1 [H2 H3]]]]];
    [lia| |].
  - tauto.
  - split; [lia|]. intros H. exfalso. apply H. now exists a, b.
Qed.

Lemma occurs_In (pat s : JsStr) (c : Z) :
  occurs pat s -> In c pat -> In c s.
Proof.
  intros [a [b ->]] H. apply in_or_app. right. apply in_or_app. now left.
Qed.

Lemma occurs_factor (pat u s v : JsStr) :
  occurs pat s -> occurs pat (u ++ s ++ v).
Proof.
  intros [a [b ->]]. exists (u ++ a), (b ++ v).
  now rewrite <- !app_assoc.
Qed.

Lemma occurs_trim (pat s : JsStr) : occurs pat (trim s) -> occurs pat s.
Proof.
  intros H. destruct (trim_split s) as [w1 [w2 [E _]]]. rewrite E.
  now apply occurs_factor.
Qed.

Lemma occurs_nil (pat : JsStr) : pat <> [] -> ~ occurs pat [].
Proof.
  intros Hne [a [b H]]. symmetry in H. apply app_eq_nil in H.
  destruct H as [_ H]. apply app_eq_nil in H. destruct H. contradiction.
Qed.

(** An occurrence cannot straddle a unit the text does not have. *)
Lemma occurs_sep (pat x y : JsStr) (c : Z) :
  ~ In c pat -> occurs pat (x ++ c :: y) -> occurs pat x \/ occurs pat y.
Proof.
  intros Hc [a [b H]]. apply app_eq_app in H.
  destruct H as [l [[Hx Hr]|[Ha Hr]]].
  - apply app_eq_app in Hr.
    destruct Hr as [l2 [[Hp Hy]|[Hl Hb]]].
    + destruct l2 as [|d l2].
      * left. rewrite app_nil_r in Hp. subst. exists a, []. now rewrite app_nil_r.
      * injection Hy as -> _. exfalso. apply Hc. subst pat.
        apply in_or_app. right. now left.
    + left. subst x l. exists a, l2. reflexivity.
  - destruct l as [|d l].
    + simpl in Hr. destruct pat as [|p pat].
      * left. exists x, []. now rewrite app_nil_r.
      * injection Hr as -> _. exfalso. apply Hc. now left.
    + injection Hr as _ ->. right. now exists l, b.
Qed.

Lemma sparseb_factor (a pat b : JsStr) :
  sparseb (a ++ pat ++ b) = true -> sparseb pat = true.
Proof.
  intros H.
  assert (Hs : forall u v, sparseb (u ++ v) = true -> sparseb v = true).
  { induction u as [|x u IHu]; intros v Hv; [exact Hv|].
    apply IHu. simpl in Hv. destruct (u ++ v); [reflexivity|].
    apply andb_true_iff in Hv. tauto. }
  apply Hs in H. clear Hs. revert H.
  generalize dependent pat. induction pat as [|x pat IH]; intros H.
  - reflexivity.
  - simpl in *. destruct pat as [|y pat]; [reflexivity|].
    simpl in H. apply andb_true_iff in H. destruct H as [H1 H2].
    rewrite H1. simpl. apply IH. exact H2.
Qed.

Lemma join_singles_sparse (l : list JsStr) :
  (forall ch, In ch l -> length ch = 1%nat) ->
  sparseb (join [SPACE] l) = true.
Proof.
  induction l as [|x l IH]; intros H.
  - reflexivity.
  - assert (Hx : length x = 1%nat) by (apply H; now left).
    destruct x as [|c [|d x]]; try discriminate.
    assert (IH' : sparseb (join [SPACE] l) = true)
      by (apply IH; intros ch Hch; apply H; now right).
    destruct l as [|y l]; [reflexivity|].
    change (join [SPACE] ([c] :: y :: l))
      with (c :: SPACE :: join [SPACE] (y :: l)).
    remember (join [SPACE] (y :: l)) as j.
    simpl. rewrite orb_true_r. simpl.
    destruct j as [|e j]; [reflexivity|].
    change (SPACE =? SPACE) with true. simpl. exact IH'.
Qed.

Lemma dec_digits_digits (fuel : nat) (z : Z) (acc : JsStr) :
  forallb is_digit acc = true ->
  forallb is_digit (dec_digits fuel z acc) = true.
Proof.
  revert z acc. induction fuel as [|f IH]; intros z acc H.
  - exact H.
  - assert (Hd : forallb is_digit ((48 + z mod 10) :: acc) = true).
    { cbn [forallb]. rewrite H, andb_true_r. unfold is_digit.
      pose proof (Z.mod_pos_bound z 10 ltac:(lia)) as Hb.
      apply andb_true_iff. split; apply Z.leb_le; lia. }
    cbn [dec_digits]. destruct (z <? 10); [exact Hd | now apply IH].
Qed.

Lemma dec_digits_nonempty (fuel : nat) (z : Z) (acc : JsStr) :
  dec_digits (S fuel) z acc <> [].
Proof.
  revert z acc. induction fuel as [|f IH]; intros z acc.
  - simpl. destruct (z <? 10); discriminate.
  - change (dec_digits (S (S f)) z acc)
      with (if z <? 10 then (48 + z mod 10) :: acc
            else dec_digits (S f) (z / 10) ((48 + z mod 10) :: acc)).
    destruct (z <? 10); [discriminate | apply IH].
Qed.

Lemma nat_to_string_digits (z : Z) : forallb is_digit (nat_to_string z) = true.
Proof. apply dec_digits_digits. reflexivity. Qed.

Lemma nat_to_string_nonempty (z : Z) : nat_to_string z <> [].
Proof. apply dec_digits_nonempty. Qed.

Lemma num_to_string_chars (n : JsNum) (c : Z) :
  In c (num_to_string n) -> is_ws c = false /\ c <> HUA.
Proof.
  assert (Hd : forall d, is_digit d = true -> is_ws d = false /\ d <> HUA).
  { intros d Hd. unfold is_digit in Hd. apply andb_true_iff in Hd.
    destruct Hd as [H1 H2]. apply Z.leb_le in H1, H2.
    split; [|unfold HUA; lia]. unfold is_ws.
    repeat match goal with
           | |- (_ || _) = false => apply orb_false_iff; split
           | |- (_ && _) = false => apply andb_false_iff
           | |- (_ =? _) = false => apply Z.eqb_neq; lia
           end.
    - right. apply Z.leb_gt. lia.
    - left. apply Z.leb_gt. lia. }
  destruct n as [z| | |]; simpl.
  - destruct (z <? 0).
    + intros [<-|H]; [split; [reflexivity | discriminate]|].
      apply Hd. pose proof (nat_to_string_digits (- z)) as Hn.
      rewrite forallb_forall in Hn. now apply Hn.
    + intros H. apply Hd. pose proof (nat_to_string_digits z) as Hn.
      rewrite forallb_forall in Hn. now apply Hn.
  - intros H. repeat (destruct H as [<-|H]; [split; [reflexivity|discriminate]|]).
    contradiction.
  - intros H. repeat (destruct H as [<-|H]; [split; [reflexivity|discriminate]|]).
    contradiction.
  - intros H. repeat (destruct H as [<-|H]; [split; [reflexivity|discriminate]|]).
    contradiction.
Qed.

(** ** The formatted document and the prefix anchor *)

Lemma fold_append_concat {A : Type} (f : A -> JsStr) (ks : list A)
  (acc : JsStr) :
  fold_left (fun body n => body ++ f n) ks acc = acc ++ concat (map f ks).
Proof.
  revert acc. induction ks as [|k ks IH]; intros acc; simpl.
  - now rewrite app_nil_r.
  - now rewrite IH, app_assoc.
Qed.

Lemma body_of_concat (localeCompare : JsStr -> JsStr -> JsNum)
  (m : StrokeMap) :
  Extend.body_of localeCompare m =
  concat (map (Extend.body_line localeCompare m) (Extend.sorted_keys m)).
Proof. unfold Extend.body_of. now rewrite fold_append_concat. Qed.

Lemma anchor_facts :
  PREFIX_ANCHOR <> [] /\ ~ In LF PREFIX_ANCHOR /\ ~ In TAB PREFIX_ANCHOR
  /\ In SPACE PREFIX_ANCHOR /\ sparseb PREFIX_ANCHOR = false.
Proof.
  unfold PREFIX_ANCHOR, LF, TAB, SPACE.
  split; [discriminate|]. split; [simpl; intuition discriminate|].
  split; [simpl; intuition discriminate|]. split; [simpl; tauto|].
  reflexivity.
Qed.

Lemma group_single_units (cn_stroke cn_order : JsStr -> Outcome JsVal)
  (chars : list JsStr) :
  (forall ch, In ch chars -> length ch = 1%nat) ->
  single_units (Extend.groupByStroke cn_stroke cn_order chars).
Proof.
  intros H n ch Hch. unfold Extend.groupByStroke in Hch.
  rewrite fold_group_get in Hch. apply set_add_all_In in Hch.
  destruct Hch as [[]|Hch]. apply filter_In in Hch. apply H. tauto.
Qed.

Lemma anchor_not_in_line (localeCompare : JsStr -> JsStr -> JsNum)
  (m : StrokeMap) (n : JsNum) :
  single_units m ->
  ~ occurs PREFIX_ANCHOR
      (num_to_string n ++ [HUA; TAB] ++
       join [SPACE] (Extend.sorted_bucket localeCompare m n)).
Proof.
  intros Hm Hocc. destruct anchor_facts as [_ [_ [Htab [Hsp Hnsp]]]].
  change (num_to_string n ++ [HUA; TAB] ++
          join [SPACE] (Extend.sorted_bucket localeCompare m n))
    with (num_to_string n ++ [HUA] ++ TAB ::
          join [SPACE] (Extend.sorted_bucket localeCompare m n)) in Hocc.
  rewrite app_assoc in Hocc. apply occurs_sep in Hocc; [|exact Htab].
  destruct Hocc as [Hocc|Hocc].
  - apply (occurs_In _ _ SPACE) in Hocc; [|exact Hsp].
    apply in_app_or in Hocc. destruct Hocc as [Hocc|[Hocc|[]]].
    + apply num_to_string_chars in Hocc. destruct Hocc as [Hocc _].
      discriminate.
    + discriminate.
  - destruct Hocc as [a [b E]].
    assert (Hj : sparseb (join [SPACE]
                   (Extend.sorted_bucket localeCompare m n)) = true).
    { apply join_singles_sparse. intros ch Hch. apply (Hm n).
      now apply js_sort_In in Hch. }
    rewrite E in Hj. apply sparseb_factor in Hj. congruence.
Qed.

Lemma anchor_not_in_body (localeCompare : JsStr -> JsStr -> JsNum)
  (m : StrokeMap) :
  single_units m -> ~ occurs PREFIX_ANCHOR (Extend.body_of localeCompare m).
Proof.
  intros Hm. rewrite body_of_concat.
  destruct anchor_facts as [Hne [Hlf _]].
  induction (Extend.sorted_keys m) as [|k ks IH]; simpl.
  - now apply occurs_nil.
  - intros Hocc. unfold Extend.body_line in Hocc.
    rewrite !app_assoc in Hocc. rewrite <- (app_assoc _ [LF]) in Hocc.
    apply occurs_sep in Hocc; [|exact Hlf].
    destruct Hocc as [Hocc|Hocc]; [|now apply IH].
    rewrite <- !app_assoc in Hocc.
    now apply (anchor_not_in_line localeCompare m k Hm).
Qed.

Lemma first_occurrence (raw pat : JsStr) :
  occurs pat raw ->
  exists a b, raw = a ++ pat ++ b /\
              indexOf raw pat = Z.of_nat (length a) /\
              forall a' b', raw = a' ++ pat ++ b' ->
                            (length a <= length a')%nat.
Proof.
  intros Hocc. unfold indexOf.
  destruct (indexOf_from_spec pat raw 0) as [[_ H]|[a [b [H1 [H2 H3]]]]];
    [lia|contradiction|].
  exists a, b. rewrite H2. auto.
Qed.

Lemma slice_to_first (a r : JsStr) :
  slice_to (a ++ r) (Z.of_nat (length a)) = a.
Proof.
  unfold slice_to. rewrite Nat2Z.id, firstn_app, Nat.sub_diag, firstn_all.
  simpl. apply app_nil_r.
Qed.

Lemma slice_from_first (a r : JsStr) :
  slice_from (a ++ r) (Z.of_nat (length a)) = r.
Proof.
  unfold slice_from. rewrite Nat2Z.id, skipn_app, Nat.sub_diag, skipn_all.
  reflexivity.
Qed.

Lemma anchor_not_in_prefix (raw : JsStr) :
  ~ occurs PREFIX_ANCHOR (Extend.prefix_of raw).
Proof.
  destruct anchor_facts as [Hne _]. unfold Extend.prefix_of.
  destruct (-1 <? indexOf raw PREFIX_ANCHOR) eqn:E;
    [|now apply occurs_nil].
  apply Z.ltb_lt in E.
  assert (Hocc : occurs PREFIX_ANCHOR raw).
  { destruct (indexOf_from_spec PREFIX_ANCHOR raw 0)
      as [[H _]|[a [b [H _]]]]; [lia| |now exists a, b].
    unfold indexOf in E. lia. }
  destruct (first_occurrence _ _ Hocc) as [a [b [H1 [H2 H3]]]].
  rewrite H2. rewrite H1 at 1. rewrite slice_to_first.
  intros Hin. apply occurs_trim in Hin. destruct Hin as [a' [b' Ha]].
  assert (Hlen : (length a <= length a')%nat).
  { apply (H3 a' (b' ++ PREFIX_ANCHOR ++ b)). rewrite H1, Ha.
    now rewrite <- !app_assoc. }
  apply (f_equal (@length Z)) in Ha. rewrite !length_app in Ha.
  unfold PREFIX_ANCHOR in Ha. simpl in Ha. lia.
Qed.

Lemma anchor_only_from_suffix (localeCompare : JsStr -> JsStr -> JsNum)
  (raw : JsStr) (m : StrokeMap) :
  single_units m ->
  ~ occurs PREFIX_ANCHOR (Extend.suffix_of raw) ->
  ~ occurs PREFIX_ANCHOR (Extend.formatOutput localeCompare raw m).
Proof.
  intros Hm Hs Hocc. destruct anchor_facts as [Hne [Hlf _]].
  unfold Extend.formatOutput in Hocc.
  apply occurs_sep in Hocc; [|exact Hlf].
  destruct Hocc as [Hocc|Hocc]; [|now apply (occurs_nil _ Hne)].
  apply occurs_trim in Hocc.
  change (Extend.prefix_of raw ++ [LF; LF] ++ Extend.body_of localeCompare m
          ++ [LF; LF] ++ Extend.suffix_of raw)
    with (Extend.prefix_of raw ++ LF :: LF :: Extend.body_of localeCompare m
          ++ LF :: LF :: Extend.suffix_of raw) in Hocc.
  apply occurs_sep in Hocc; [|exact Hlf].
  destruct Hocc as [Hocc|Hocc]; [now apply (anchor_not_in_prefix raw)|].
  apply (occurs_sep _ []) in Hocc; [|exact Hlf].
  destruct Hocc as [Hocc|Hocc]; [now apply (occurs_nil _ Hne)|].
  apply occurs_sep in Hocc; [|exact Hlf].
  destruct Hocc as [Hocc|Hocc];
    [now apply (anchor_not_in_body localeCompare m Hm)|].
  apply (occurs_sep _ []) in Hocc; [|exact Hlf].
  destruct Hocc as [Hocc|Hocc]; [now apply (occurs_nil _ Hne)|].
  contradiction.
Qed.

Lemma trim_same (s : JsStr) : trim s = s <-> starts_nonws s /\ ends_nonws s.
Proof.
  split.
  - intros E. rewrite <- E. split; [apply trim_starts | apply trim_ends].
  - intros [H1 H2]. now apply trim_id.
Qed.

(** C10: for a document with the prefix anchor, the prefix region is the
    trimmed text before the first occurrence of the anchor, and equals
    that text only when it has no white space at either end; the same
    holds of the suffix region and the text from the suffix anchor on;
    and the prefix anchor is absent from the formatted document unless
    it occurs in the suffix region. *)
Theorem prefix_region_excludes_anchor :
  forall (localeCompare : JsStr -> JsStr -> JsNum) (raw : JsStr)
         (m : StrokeMap),
    occurs PREFIX_ANCHOR raw ->
    (exists a b,
        raw = a ++ PREFIX_ANCHOR ++ b
        /\ (forall a' b', raw = a' ++ PREFIX_ANCHOR ++ b' ->
                          (length a <= length a')%nat)
        /\ Extend.prefix_of raw = trim a
        /\ ((Extend.prefix_of raw = a) <-> (starts_nonws a /\ ends_nonws a)))
    /\ (single_units m ->
        ~ occurs PREFIX_ANCHOR (Extend.suffix_of raw) ->
        ~ occurs PREFIX_ANCHOR (Extend.formatOutput localeCompare raw m))
    /\ (-1 < indexOf raw SUFFIX_ANCHOR ->
        Extend.suffix_of raw =
          trim (slice_from raw (indexOf raw SUFFIX_ANCHOR))
        /\ ((Extend.suffix_of raw = slice_from raw (indexOf raw SUFFIX_ANCHOR))
            <-> (starts_nonws (slice_from raw (indexOf raw SUFFIX_ANCHOR))
                 /\ ends_nonws (slice_from raw (indexOf raw SUFFIX_ANCHOR))))).
Proof.
  intros localeCompare raw m Hocc. split; [|split].
  - destruct (first_occurrence _ _ Hocc) as [a [b [H1 [H2 H3]]]].
    exists a, b. split; [exact H1|]. split; [exact H3|].
    assert (Hp : Extend.prefix_of raw = trim a).
    { unfold Extend.prefix_of. rewrite H2.
      assert (E : (-1 <? Z.of_nat (length a)) = true) by (apply Z.ltb_lt; lia).
      rewrite E. rewrite H1 at 1. now rewrite slice_to_first. }
    split; [exact Hp|]. rewrite Hp. apply trim_same.
  - apply anchor_only_from_suffix.
  - intros Hi. unfold Extend.suffix_of. apply Z.ltb_lt in Hi. rewrite Hi.
    split; [reflexivity | apply trim_same].
Qed.

Lemma prefix_region_excludes_anchor_witness :
  ~ occurs PREFIX_ANCHOR
      (Extend.formatOutput unit_compare
         ([65; 10] ++ PREFIX_ANCHOR ++ [10; 49; HUA; TAB; 19968; 10] ++
          SUFFIX_ANCHOR ++ [10])
         (Extend.groupByStroke demo_stroke demo_order demo_union)).
Proof.
  assert (Hocc : occurs PREFIX_ANCHOR
                   ([65; 10] ++ PREFIX_ANCHOR ++
                    [10; 49; HUA; TAB; 19968; 10] ++ SUFFIX_ANCHOR ++ [10]))
    by (exists [65; 10], ([10; 49; HUA; TAB; 19968; 10] ++ SUFFIX_ANCHOR ++ [10]);
        reflexivity).
  assert (Hm : single_units
                 (Extend.groupByStroke demo_stroke demo_order demo_union)).
  { apply group_single_units. intros ch Hch. unfold demo_union in Hch.
    repeat (destruct Hch as [<-|Hch]; [reflexivity|]). contradiction. }
  assert (Hs : ~ occurs PREFIX_ANCHOR
                 (Extend.suffix_of
                    ([65; 10] ++ PREFIX_ANCHOR ++
                     [10; 49; HUA; TAB; 19968; 10] ++ SUFFIX_ANCHOR ++ [10])))
    by (apply indexOf_absent; vm_compute; reflexivity).
  destruct (prefix_region_excludes_anchor unit_compare _
              (Extend.groupByStroke demo_stroke demo_order demo_union) Hocc)
    as [_ [H _]].
  exact (H Hm Hs).
Defined.

(** ** Reading a formatted document back *)

Lemma split_lines_line (l post cur : JsStr) :
  ~ In LF l -> ~ In CR l ->
  split_lines_from cur (l ++ LF :: post) =
  (cur ++ l) :: split_lines_from [] post.
Proof.
  revert cur. induction l as [|c l IH]; intros cur Hlf Hcr.
  - simpl. now rewrite app_nil_r.
  - assert (Hc1 : (c =? LF) = false)
      by (apply Z.eqb_neq; intros ->; apply Hlf; now left).
    assert (Hc2 : (c =? CR) = false)
      by (apply Z.eqb_neq; intros ->; apply Hcr; now left).
    change ((c :: l) ++ LF :: post) with (c :: (l ++ LF :: post)).
    cbn [split_lines_from]. rewrite Hc1, Hc2. cbn [andb].
    assert (E : split_lines_from (cur ++ [c]) (l ++ LF :: post) =
                ((cur ++ [c]) ++ l) :: split_lines_from [] post).
    { apply IH; intros H; [apply Hlf | apply Hcr]; now right. }
    rewrite <- app_assoc in E. simpl in E.
    destruct (l ++ LF :: post); exact E.
Qed.

Lemma split_lines_later (n : nat) :
  forall (pre s cur x : JsStr),
    (length pre <= n)%nat ->
    In x (split_lines_from [] s) ->
    In x (split_lines_from cur (pre ++ LF :: s)).
Proof.
  induction n as [|n IH]; intros pre s cur x Hlen Hx.
  - destruct pre; [|simpl in Hlen; lia]. simpl. now right.
  - destruct pre as [|c pre]; [simpl; now right|].
    simpl in Hlen. change ((c :: pre) ++ LF :: s) with (c :: (pre ++ LF :: s)).
    cbn [split_lines_from]. destruct (c =? LF).
    + apply in_cons. apply IH; [lia | exact Hx].
    + destruct pre as [|d pre].
      * cbn [app]. change (LF =? LF) with true.
        destruct (c =? CR); cbn [andb].
        -- now apply in_cons.
        -- apply (IH [] s); [simpl; lia | exact Hx].
      * cbn [app].
        assert (Hrest : In x (split_lines_from (cur ++ [c])
                                (d :: pre ++ LF :: s)))
          by (apply (IH (d :: pre)); [simpl in *; lia | exact Hx]).
        destruct (c =? CR); cbn [andb]; [|exact Hrest].
        destruct (d =? LF); [|exact Hrest].
        apply in_cons. apply IH; [simpl in Hlen; lia | exact Hx].
Qed.

Lemma split_lines_has (pre l post : JsStr) :
  ~ In LF l -> ~ In CR l ->
  pre = [] \/ (exists pre', pre = pre' ++ [LF]) ->
  In l (split_lines (pre ++ l ++ LF :: post)).
Proof.
  intros Hlf Hcr [->|[pre' ->]]; unfold split_lines.
  - simpl. rewrite split_lines_line by assumption. now left.
  - rewrite <- app_assoc. simpl.
    apply (split_lines_later (length pre')); [lia|].
    rewrite split_lines_line by assumption. now left.
Qed.

Lemma add_single_In (toks : list JsStr) (acc : JsSet) (x : JsStr) :
  In x (fold_left Extend.add_single toks acc) <->
  In x acc \/ (In x toks /\ length x = 1%nat).
Proof.
  assert (E : forall s ch, Extend.add_single s ch = Extend.add_length1 s ch).
  { intros s [|c ch]; reflexivity. }
  assert (F : forall a, fold_left Extend.add_single toks a =
                        fold_left Extend.add_length1 toks a).
  { induction toks as [|t toks IH]; intros a; simpl; [reflexivity|].
    now rewrite E, IH. }
  rewrite F. apply add_length1_In.
Qed.

Lemma parse_line_mono (acc : JsSet) (line x : JsStr) :
  In x acc -> In x (Extend.parse_line acc line).
Proof.
  intros H. unfold Extend.parse_line. destruct (match_line line); [|exact H].
  apply add_single_In. now left.
Qed.

Lemma parse_fold_mono (lines : list JsStr) (acc : JsSet) (x : JsStr) :
  In x acc -> In x (fold_left Extend.parse_line lines acc).
Proof.
  revert acc. induction lines as [|l lines IH]; intros acc H; simpl.
  - exact H.
  - apply IH. now apply parse_line_mono.
Qed.

Lemma parse_fold_line (lines : list JsStr) (acc : JsSet)
  (line m2 x : JsStr) :
  In line lines -> match_line line = Some m2 ->
  In x (split_space (trim (replace_ws [SPACE] m2))) -> length x = 1%nat ->
  In x (fold_left Extend.parse_line lines acc).
Proof.
  revert acc. induction lines as [|l lines IH]; intros acc Hl Hm Hx Hlen.
  - contradiction.
  - simpl. destruct Hl as [->|Hl].
    + apply parse_fold_mono. unfold Extend.parse_line. rewrite Hm.
      apply add_single_In. right. auto.
    + now apply IH.
Qed.

Lemma span_digits (ds r : JsStr) :
  forallb is_digit ds = true ->
  match r with [] => True | c :: _ => is_digit c = false end ->
  span is_digit (ds ++ r) = (ds, r).
Proof.
  intros Hd Hr. induction ds as [|d ds IH]; cbn [span app].
  - destruct r as [|c r]; [reflexivity|]. cbn [span]. now rewrite Hr.
  - cbn [forallb] in Hd. apply andb_true_iff in Hd. destruct Hd as [H1 H2].
    rewrite H1, IH by assumption. reflexivity.
Qed.

Lemma after_digits_no_tab (s : JsStr) : ~ In TAB s -> after_digits s = None.
Proof.
  induction s as [|c s IH]; intros H; simpl.
  - reflexivity.
  - rewrite IH by (intros Hin; apply H; now right).
    assert (E : (c =? TAB) = false)
      by (apply Z.eqb_neq; intros ->; apply H; now left).
    rewrite E. now destruct (is_hua_ws c).
Qed.

Lemma match_body_line (z : Z) (j : JsStr) :
  ~ In TAB j -> dot_plus_end j = true ->
  match_line (nat_to_string z ++ [HUA; TAB] ++ j) = Some j.
Proof.
  intros Ht Hd. unfold match_line.
  rewrite span_digits; [|apply nat_to_string_digits|reflexivity].
  pose proof (nat_to_string_nonempty z) as Hne.
  destruct (nat_to_string z) as [|d ds]; [contradiction|].
  cbn [is_nil app]. cbn [after_digits].
  change (is_hua_ws HUA) with true. change (is_hua_ws TAB) with true.
  cbv iota. rewrite (after_digits_no_tab j Ht).
  change (TAB =? TAB) with true. cbn [andb]. rewrite Hd. reflexivity.
Qed.

Lemma replace_ws_run (r s : JsStr) :
  starts_nonws s -> replace_ws_from r true s = replace_ws_from r false s.
Proof.
  destruct s as [|c s]; simpl; intros H; [reflexivity | now rewrite H].
Qed.

Lemma join_cons (c : Z) (x : JsStr) (l : list JsStr) :
  join [SPACE] ([c] :: x :: l) = c :: SPACE :: join [SPACE] (x :: l).
Proof. reflexivity. Qed.

Lemma join_clean_In (cs : list JsStr) (c : Z) :
  Forall clean_char cs ->
  In c (join [SPACE] cs) -> c = SPACE \/ is_ws c = false.
Proof.
  intros clean. induction clean as [|x l [d [-> Hd]] Hl IH].
  - contradiction.
  - destruct l as [|y l].
    + simpl. intros [<-|[]]. now right.
    + rewrite join_cons. intros [<-|[<-|H]]; auto.
Qed.

Lemma join_clean_starts (cs : list JsStr) :
  Forall clean_char cs -> starts_nonws (join [SPACE] cs).
Proof.
  intros clean. destruct clean as [|x l [d [-> Hd]] Hl]; [exact I|].
  destruct l; [exact Hd | rewrite join_cons; exact Hd].
Qed.

Lemma join_clean_ends (cs : list JsStr) :
  Forall clean_char cs -> ends_nonws (join [SPACE] cs).
Proof.
  intros clean. unfold ends_nonws. induction clean as [|x l [d [-> Hd]] Hl IH].
  - exact I.
  - destruct l as [|y l]; [exact Hd|].
    rewrite join_cons.
    change (d :: SPACE :: join [SPACE] (y :: l))
      with ([d; SPACE] ++ join [SPACE] (y :: l)).
    rewrite rev_app_distr.
    assert (Hne : join [SPACE] (y :: l) <> []).
    { inversion Hl as [|? ? [e [-> He]] Hl']; subst.
      destruct l; [discriminate | rewrite join_cons; discriminate]. }
    destruct (rev (join [SPACE] (y :: l))) eqn:Er; [|exact IH].
    exfalso. apply Hne. rewrite <- (rev_involutive (join _ _)), Er.
    reflexivity.
Qed.

Lemma join_clean_nonempty (cs : list JsStr) :
  Forall clean_char cs -> cs <> [] -> join [SPACE] cs <> [].
Proof.
  intros clean. destruct clean as [|x l [d [-> Hd]] Hl]; [contradiction|].
  intros _. destruct l; [discriminate | rewrite join_cons; discriminate].
Qed.

Lemma join_clean_replace (cs : list JsStr) :
  Forall clean_char cs ->
  replace_ws [SPACE] (join [SPACE] cs) = join [SPACE] cs.
Proof.
  intros clean. unfold replace_ws. induction clean as [|x l [d [-> Hd]] Hl IH].
  - reflexivity.
  - destruct l as [|y l].
    + simpl. now rewrite Hd.
    + rewrite join_cons.
      assert (Hj : starts_nonws (join [SPACE] (y :: l))).
      { inversion Hl as [|? ? [e [-> He]] Hl']; subst.
        destruct l; [exact He | rewrite join_cons; exact He]. }
      remember (join [SPACE] (y :: l)) as j.
      cbn [replace_ws_from]. rewrite Hd.
      change (is_ws SPACE) with true. cbv iota. cbn [app].
      now rewrite replace_ws_run, IH.
Qed.

Lemma join_clean_split (cs : list JsStr) (cur : JsStr) :
  Forall clean_char cs ->
  split_space_from cur (join [SPACE] cs) =
  match cs with
  | [] => [cur]
  | x :: l => (cur ++ x) :: l
  end.
Proof.
  intros clean. revert cur. induction clean as [|x l [d [-> Hd]] Hl IH]; intros cur.
  - reflexivity.
  - assert (Hsp : (d =? SPACE) = false).
    { apply Z.eqb_neq. intros ->. discriminate. }
    destruct l as [|y l].
    + simpl. now rewrite Hsp.
    + rewrite join_cons. remember (join [SPACE] (y :: l)) as j.
      cbn [split_space_from]. rewrite Hsp.
      change (SPACE =? SPACE) with true. cbv iota.
      rewrite IH. reflexivity.
Qed.

Lemma join_clean_tokens (cs : list JsStr) :
  Forall clean_char cs ->
  cs <> [] ->
  split_space (trim (replace_ws [SPACE] (join [SPACE] cs))) = cs.
Proof.
  intros clean. intros Hne. rewrite join_clean_replace by exact clean.
  rewrite trim_id by (now apply join_clean_starts || now apply join_clean_ends).
  unfold split_space. rewrite join_clean_split by exact clean.
  destruct cs; [contradiction | reflexivity].
Qed.

Lemma join_clean_match (cs : list JsStr) (z : Z) :
  Forall clean_char cs ->
  cs <> [] ->
  match_line (nat_to_string z ++ [HUA; TAB] ++ join [SPACE] cs) =
  Some (join [SPACE] cs).
Proof.
  intros clean. intros Hne. apply match_body_line.
  - intros H. apply join_clean_In in H; [|exact clean]. destruct H; discriminate.
  - unfold dot_plus_end. apply andb_true_iff. split.
    + pose proof (join_clean_nonempty cs clean Hne).
      destruct (join [SPACE] cs); [contradiction | reflexivity].
    + apply forallb_forall. intros c Hc. apply join_clean_In in Hc; [|exact clean].
      destruct Hc as [->|Hc]; [reflexivity|].
      unfold is_line_term. unfold is_ws in Hc.
      repeat (apply orb_false_iff in Hc; destruct Hc as [Hc ?]).
      apply andb_false_iff in Hc.
      assert (Hr : c < 9 \/ 13 < c).
      { destruct Hc as [Hc|Hc]; apply Z.leb_gt in Hc; lia. }
      apply negb_true_iff.
      repeat (apply orb_false_iff; split); try assumption;
        apply Z.eqb_neq; lia.
Qed.


Lemma body_ends_with_lf (localeCompare : JsStr -> JsStr -> JsNum)
  (m : StrokeMap) (ks : list JsNum) :
  concat (map (Extend.body_line localeCompare m) ks) = [] \/
  exists b, concat (map (Extend.body_line localeCompare m) ks) = b ++ [LF].
Proof.
  destruct ks as [|k ks]; [now left | right].
  destruct (exists_last (l := k :: ks)) as [ks' [k' E]]; [discriminate|].
  rewrite E, map_app, concat_app. simpl. unfold Extend.body_line.
  rewrite app_nil_r.
  exists (concat (map (Extend.body_line localeCompare m) ks') ++
          num_to_string k' ++ [HUA; TAB] ++
          join [SPACE] (Extend.sorted_bucket localeCompare m k')).
  now rewrite <- !app_assoc.
Qed.

Lemma ends_nonws_app (u l : JsStr) :
  l <> [] -> ends_nonws l -> ends_nonws (u ++ l).
Proof.
  unfold ends_nonws. intros Hne H. rewrite rev_app_distr.
  destruct (rev l) eqn:E; [|exact H].
  exfalso. apply Hne. rewrite <- (rev_involutive l), E. reflexivity.
Qed.

(** A line between trimmed text is still a line after the whole is
    trimmed and ended by a line feed. *)
Lemma trim_keeps_line (u l v : JsStr) :
  l <> [] -> starts_nonws l -> ends_nonws l ->
  ~ In LF l -> ~ In CR l ->
  (exists u0, u = u0 ++ [LF]) ->
  In l (split_lines (trim (u ++ l ++ LF :: v) ++ [LF])).
Proof.
  intros Hne Hs He Hlf Hcr [u0 Hu].
  assert (Hw : l ++ LF :: v <> [] /\ starts_nonws (l ++ LF :: v)).
  { destruct l; [contradiction|]. split; [discriminate | exact Hs]. }
  unfold trim. rewrite trimStart_app by tauto.
  rewrite app_assoc, trimEnd_app.
  2: { intros E. apply app_eq_nil in E. destruct E. contradiction. }
  2: { now apply ends_nonws_app. }
  rewrite <- !app_assoc.
  assert (Hpost : exists post, trimEnd (LF :: v) ++ [LF] = LF :: post).
  { destruct (trimEnd_split (LF :: v)) as [w [E _]].
    destruct (trimEnd (LF :: v)) as [|c t].
    - now exists [].
    - injection E as <- _. now exists (t ++ [LF]). }
  destruct Hpost as [post Hpost]. rewrite Hpost.
  apply split_lines_has; try assumption.
  destruct (trimStart_split u) as [w [E _]].
  destruct (trimStart u) as [|c t] eqn:Et; [now left | right].
  destruct (exists_last (l := c :: t)) as [t' [x Ex]]; [discriminate|].
  rewrite Ex in *. rewrite Hu, app_assoc in E. apply app_inj_tail in E.
  destruct E as [_ <-]. now exists t'.
Qed.

Lemma map_get_keys (n : JsNum) (m : StrokeMap) (ch : JsStr) :
  In ch (map_get n m) -> In n (map_keys m).
Proof.
  intros H. destruct (in_dec num_eq_dec n (map_keys m)) as [Hin|Hin].
  - exact Hin.
  - rewrite map_get_absent in H by assumption. contradiction.
Qed.

Lemma digit_not_ws (d : Z) : is_digit d = true -> is_ws d = false.
Proof.
  intros Hd. unfold is_digit in Hd. apply andb_true_iff in Hd.
  destruct Hd as [H1 H2]. apply Z.leb_le in H1, H2. unfold is_ws.
  repeat match goal with
         | |- (_ || _) = false => apply orb_false_iff; split
         | |- (_ && _) = false => apply andb_false_iff
         | |- (_ =? _) = false => apply Z.eqb_neq; lia
         end.
  - right. apply Z.leb_gt. lia.
  - left. apply Z.leb_gt. lia.
Qed.

Lemma format_has_line (localeCompare : JsStr -> JsStr -> JsNum)
  (raw : JsStr) (m : StrokeMap) (z : Z) :
  0 <= z ->
  In (Fin z) (map_keys m) ->
  Forall clean_char (Extend.sorted_bucket localeCompare m (Fin z)) ->
  Extend.sorted_bucket localeCompare m (Fin z) <> [] ->
  In (nat_to_string z ++ [HUA; TAB] ++
      join [SPACE] (Extend.sorted_bucket localeCompare m (Fin z)))
     (split_lines (Extend.formatOutput localeCompare raw m)).
Proof.
  intros Hz Hk Hclean Hne.
  set (cs := Extend.sorted_bucket localeCompare m (Fin z)) in *.
  set (l := nat_to_string z ++ [HUA; TAB] ++ join [SPACE] cs).
  apply sorted_keys_In in Hk. apply in_split in Hk.
  destruct Hk as [k1 [k2 Hk]].
  assert (Hline : Extend.body_line localeCompare m (Fin z) = l ++ [LF]).
  { unfold Extend.body_line, l. fold cs. simpl num_to_string.
    assert (E : (z <? 0) = false) by (apply Z.ltb_ge; lia).
    rewrite E. now rewrite <- !app_assoc. }
  unfold Extend.formatOutput. rewrite body_of_concat, Hk, map_app, concat_app.
  simpl map. simpl concat. rewrite Hline.
  set (b1 := concat (map (Extend.body_line localeCompare m) k1)).
  set (b2 := concat (map (Extend.body_line localeCompare m) k2)).
  replace (Extend.prefix_of raw ++ [LF; LF] ++ (b1 ++ (l ++ [LF]) ++ b2) ++
           [LF; LF] ++ Extend.suffix_of raw)
    with ((Extend.prefix_of raw ++ [LF; LF] ++ b1) ++ l ++
          LF :: (b2 ++ [LF; LF] ++ Extend.suffix_of raw))
    by (now rewrite <- !app_assoc).
  assert (Hchars : forall c, In c l -> is_ws c = false \/ c = TAB \/ c = SPACE).
  { intros c Hc. unfold l in Hc. apply in_app_or in Hc.
    destruct Hc as [Hc|[<-|[<-|Hc]]]; auto.
    - left. pose proof (nat_to_string_digits z) as Hd.
      rewrite forallb_forall in Hd. apply digit_not_ws. now apply Hd.
    - apply join_clean_In in Hc; [|exact Hclean]. tauto. }
  apply trim_keeps_line.
  - unfold l. pose proof (nat_to_string_nonempty z).
    destruct (nat_to_string z); [contradiction | discriminate].
  - unfold l. pose proof (nat_to_string_nonempty z) as Hn.
    pose proof (nat_to_string_digits z) as Hd.
    destruct (nat_to_string z) as [|d ds]; [contradiction|].
    simpl in Hd. apply andb_true_iff in Hd. destruct Hd as [Hd _].
    simpl. now apply digit_not_ws.
  - unfold l. rewrite app_assoc. apply ends_nonws_app.
    + now apply join_clean_nonempty.
    + now apply join_clean_ends.
  - intros H. destruct (Hchars _ H) as [E|[E|E]]; discriminate.
  - intros H. destruct (Hchars _ H) as [E|[E|E]]; discriminate.
  - destruct (body_ends_with_lf localeCompare m k1) as [E|[b E]];
      fold b1 in E; rewrite E.
    + exists (Extend.prefix_of raw ++ [LF]). now rewrite <- app_assoc.
    + exists (Extend.prefix_of raw ++ [LF; LF] ++ b).
      now rewrite <- !app_assoc.
Qed.

Lemma key_of_strokeOf (cn_stroke cn_order : JsStr -> Outcome JsVal)
  (ch : JsStr) (n : JsNum) :
  key_of cn_stroke cn_order ch = Some n ->
  Extend.strokeOf cn_stroke cn_order ch = Some n.
Proof.
  unfold key_of. destruct (Extend.strokeOf cn_stroke cn_order ch) as [k|];
    [|discriminate].
  destruct (num_falsy k); [discriminate | auto].
Qed.

Lemma group_bucket_In (cn_stroke cn_order : JsStr -> Outcome JsVal)
  (chars : list JsStr) (n : JsNum) (ch : JsStr) :
  In ch (map_get n (Extend.groupByStroke cn_stroke cn_order chars)) <->
  In ch chars /\ key_of cn_stroke cn_order ch = Some n.
Proof.
  unfold Extend.groupByStroke. rewrite fold_group_get, set_add_all_In.
  rewrite filter_In, key_is_true. simpl. tauto.
Qed.

(** C6: a character in the bucket of a stroke count [z] is read back from
    the formatted document by the loader, its stroke count is still [z],
    and grouping what the loader read puts it in the bucket of [z]
    again. The characters are single code units other than white space,
    as every source of the pipeline supplies them. *)
Theorem reparse_lands_in_same_bucket :
  forall (cn_stroke cn_order : JsStr -> Outcome JsVal)
         (localeCompare : JsStr -> JsStr -> JsNum) (raw : JsStr)
         (chars : list JsStr) (z : Z) (ch : JsStr),
    Forall clean_char chars ->
    In ch (map_get (Fin z) (Extend.groupByStroke cn_stroke cn_order chars)) ->
    In ch (Extend.parseExistingChars
             (Extend.formatOutput localeCompare raw
                (Extend.groupByStroke cn_stroke cn_order chars)))
    /\ Extend.strokeOf cn_stroke cn_order ch = Some (Fin z)
    /\ In ch (map_get (Fin z)
                (Extend.groupByStroke cn_stroke cn_order
                   (Extend.parseExistingChars
                      (Extend.formatOutput localeCompare raw
                         (Extend.groupByStroke cn_stroke cn_order chars))))).
Proof.
  intros cn_stroke cn_order localeCompare raw chars z ch Hclean Hin.
  set (m := Extend.groupByStroke cn_stroke cn_order chars) in *.
  assert (Hkey : key_of cn_stroke cn_order ch = Some (Fin z)).
  { unfold m in Hin. now apply group_bucket_In in Hin. }
  assert (Hz : 0 < z).
  { apply key_of_pos in Hkey. simpl in Hkey. now apply Z.ltb_lt. }
  assert (Hcs : Forall clean_char
                  (Extend.sorted_bucket localeCompare m (Fin z))).
  { apply Forall_forall. intros x Hx. apply js_sort_In in Hx.
    unfold m in Hx. apply group_bucket_In in Hx.
    rewrite Forall_forall in Hclean. apply Hclean. tauto. }
  assert (Hch : In ch (Extend.sorted_bucket localeCompare m (Fin z)))
    by now apply js_sort_In.
  assert (Hne : Extend.sorted_bucket localeCompare m (Fin z) <> [])
    by (intros E; rewrite E in Hch; contradiction).
  assert (Hparsed : In ch (Extend.parseExistingChars
                             (Extend.formatOutput localeCompare raw m))).
  { unfold Extend.parseExistingChars.
    apply (parse_fold_line _ _
             (nat_to_string z ++ [HUA; TAB] ++
              join [SPACE] (Extend.sorted_bucket localeCompare m (Fin z)))
             (join [SPACE] (Extend.sorted_bucket localeCompare m (Fin z)))).
    - apply format_has_line; try assumption; [lia|].
      now apply map_get_keys in Hin.
    - now apply join_clean_match.
    - now rewrite join_clean_tokens.
    - rewrite Forall_forall in Hcs. destruct (Hcs ch Hch) as [c [-> _]].
      reflexivity. }
  split; [exact Hparsed|]. split; [now apply key_of_strokeOf|].
  apply group_bucket_In. auto.
Qed.

Lemma reparse_lands_in_same_bucket_witness :
  In [20108]
    (Extend.parseExistingChars
       (Extend.formatOutput unit_compare [65; 10]
          (Extend.groupByStroke demo_stroke demo_order demo_union))).
Proof.
  assert (Hclean : Forall clean_char demo_union).
  { unfold demo_union.
    repeat (constructor; [eexists; split; reflexivity|]). constructor. }
  assert (Hin : In [20108]
                  (map_get (Fin 2)
                     (Extend.groupByStroke demo_stroke demo_order demo_union)))
    by (vm_compute; auto).
  destruct (reparse_lands_in_same_bucket demo_stroke demo_order unit_compare
              [65; 10] demo_union 2 [20108] Hclean Hin) as [H _].
  exact H.
Defined.

(** ** The font scan *)

Section Scan.
Variable has_font_ext : JsStr -> bool.
Variable path_join : JsStr -> JsStr -> JsStr.

Local Abbreviation reachesF := (reaches has_font_ext path_join).
Local Abbreviation subdirsF := (subdirs path_join).
Local Abbreviation file_stepF := (file_step has_font_ext path_join).

Lemma grows_refl (st : JsSet * list Event) : grows st st.
Proof. split; auto. Qed.

Lemma grows_trans (a b c : JsSet * list Event) :
  grows a b -> grows b c -> grows a c.
Proof. intros [H1 H2] [H3 H4]. split; auto. Qed.

Lemma handled_grows (p : JsStr) (glyphs : Outcome (list Z))
  (st st' : JsSet * list Event) :
  grows st st' -> handled p glyphs st -> handled p glyphs st'.
Proof.
  intros [H1 H2] H. destruct glyphs as [codes|]; simpl in *; auto.
Qed.

Lemma glyph_fold_In (codes : list Z) (chars : JsSet) (x : JsStr) :
  In x (fold_left (fun acc code => if in_cjk code then set_add [code] acc
                                   else acc) codes chars) <->
  In x chars \/ exists code, In code codes /\ in_cjk code = true /\ x = [code].
Proof.
  revert chars. induction codes as [|c codes IH]; intros chars; simpl.
  - split; [auto | intros [H|[code [[] _]]]; exact H].
  - rewrite IH. destruct (in_cjk c) eqn:E.
    + rewrite set_add_In. split.
      * intros [[->|H]|[code [H1 H2]]]; eauto 6.
      * intros [H|[code [[<-|H1] [H2 ->]]]]; eauto 6.
    + split.
      * intros [H|[code [H1 H2]]]; eauto 6.
      * intros [H|[code [[<-|H1] [H2 ->]]]]; eauto 6. congruence.
Qed.

Lemma font_step_grows (p : JsStr) (glyphs : Outcome (list Z))
  (st : JsSet * list Event) :
  grows st (Extend.font_step p glyphs st).
Proof.
  destruct st as [chars log]. unfold Extend.font_step.
  destruct glyphs as [codes|]; split; simpl; auto.
  - intros x Hx. apply glyph_fold_In. now left.
  - intros e He. apply in_or_app. now left.
Qed.

Lemma font_step_handled (p : JsStr) (glyphs : Outcome (list Z))
  (st : JsSet * list Event) :
  handled p glyphs (Extend.font_step p glyphs st).
Proof.
  destruct st as [chars log]. unfold Extend.font_step, handled.
  destruct glyphs as [codes|]; simpl.
  - intros code Hc Hin. apply glyph_fold_In. right. eauto.
  - apply in_or_app. right. now left.
Qed.

Lemma file_step_grows (d : JsStr) (st : JsSet * list Event) (it : DirEntry) :
  grows st (file_stepF d st it).
Proof.
  destruct it as [name listing|name glyphs|name]; simpl;
    try apply grows_refl.
  destruct (has_font_ext name); [apply font_step_grows | apply grows_refl].
Qed.

Lemma file_fold_grows (d : JsStr) (items : list DirEntry)
  (st : JsSet * list Event) :
  grows st (fold_left (file_stepF d) items st).
Proof.
  revert st. induction items as [|it items IH]; intros st; simpl.
  - apply grows_refl.
  - eapply grows_trans; [apply file_step_grows | apply IH].
Qed.

Lemma file_fold_handled (d : JsStr) (items : list DirEntry)
  (st : JsSet * list Event) (name : JsStr) (glyphs : Outcome (list Z)) :
  In (EFile name glyphs) items -> has_font_ext name = true ->
  handled (path_join d name) glyphs (fold_left (file_stepF d) items st).
Proof.
  revert st. induction items as [|it items IH]; intros st Hin Hext.
  - contradiction.
  - simpl. destruct Hin as [->|Hin].
    + eapply handled_grows; [apply file_fold_grows|].
      simpl. rewrite Hext. apply font_step_handled.
    + now apply IH.
Qed.

Lemma scan_items_eq (d : JsStr) (items : list DirEntry)
  (stack : Extend.Stack) (st : JsSet * list Event) :
  Extend.scan_items has_font_ext path_join d items stack st =
  (rev (subdirsF d items) ++ stack, fold_left (file_stepF d) items st).
Proof.
  revert stack st. induction items as [|it items IH]; intros stack st.
  - reflexivity.
  - destruct it as [name listing|name glyphs|name]; simpl.
    + rewrite IH. now rewrite <- app_assoc.
    + destruct (has_font_ext name); apply IH.
    + apply IH.
Qed.

Lemma dir_count_dir (name : JsStr) (listing : Outcome (list DirEntry)) :
  Extend.dir_count (EDir name listing) = Extend.listing_count listing.
Proof.
  destruct listing as [items|]; reflexivity.
Qed.

Lemma readable_dir (name : JsStr) (listing : Outcome (list DirEntry)) :
  readable (EDir name listing) = readable_listing listing.
Proof.
  destruct listing as [items|]; reflexivity.
Qed.

Lemma stack_count_app (a b : Extend.Stack) :
  stack_count (a ++ b) = (stack_count a + stack_count b)%nat.
Proof.
  induction a as [|e a IH]; simpl; [reflexivity | rewrite IH; lia].
Qed.

Lemma stack_count_rev (a : Extend.Stack) :
  stack_count (rev a) = stack_count a.
Proof.
  induction a as [|e a IH]; simpl; [reflexivity|].
  rewrite stack_count_app, IH. simpl. lia.
Qed.

Lemma stack_count_subdirs (d : JsStr) (items : list DirEntry) :
  stack_count (subdirsF d items) =
  fold_right (fun x n => (Extend.dir_count x + n)%nat) O items.
Proof.
  induction items as [|it items IH]; [reflexivity|].
  unfold subdirsF in *. cbn [flat_map fold_right].
  rewrite stack_count_app, IH.
  destruct it as [name listing|name glyphs|name].
  - rewrite dir_count_dir. simpl. lia.
  - reflexivity.
  - reflexivity.
Qed.

Lemma subdirs_In (d : JsStr) (items : list DirEntry) (name : JsStr)
  (listing : Outcome (list DirEntry)) :
  In (EDir name listing) items -> In (path_join d name, listing) (subdirsF d items).
Proof.
  intros H. unfold subdirsF. apply in_flat_map.
  exists (EDir name listing). split; [exact H | now left].
Qed.

Lemma subdirs_readable (d : JsStr) (items : list DirEntry) :
  forallb readable items = true ->
  forallb (fun e => readable_listing (snd e)) (subdirsF d items) = true.
Proof.
  intros H. rewrite forallb_forall in *. intros [p listing] Hp.
  unfold subdirsF in Hp. apply in_flat_map in Hp.
  destruct Hp as [it [Hit Hp]].
  destruct it as [name l|name glyphs|name]; simpl in Hp; try contradiction.
  destruct Hp as [E|[]]. injection E as <- <-.
  simpl. rewrite <- (readable_dir name). now apply H.
Qed.


(** With every directory readable the loop returns, keeps what it had,
    and handles every font file in or below the directories on the
    stack. *)
Lemma scan_loop_handles (fuel : nat) :
  forall (stack : Extend.Stack) (st : JsSet * list Event),
    (stack_count stack <= fuel)%nat ->
    forallb (fun e => readable_listing (snd e)) stack = true ->
    exists chars log,
      Extend.scan_loop has_font_ext path_join fuel stack st =
        Some (Ret chars, log)
      /\ grows st (chars, log)
      /\ forall d items p glyphs,
           In (d, Ret items) stack -> reachesF d items p glyphs ->
           handled p glyphs (chars, log).
Proof.
  induction fuel as [|fuel IH]; intros stack st Hc Hr.
  - destruct stack as [|[d listing] stack].
    + exists (fst st), (snd st). simpl. destruct st. split; [reflexivity|].
      split; [apply grows_refl | intros ? ? ? ? []].
    + simpl in Hc. destruct listing; simpl in Hc; lia.
  - destruct stack as [|[d listing] stack].
    + exists (fst st), (snd st). simpl. destruct st. split; [reflexivity|].
      split; [apply grows_refl | intros ? ? ? ? []].
    + simpl in Hr. apply andb_true_iff in Hr. destruct Hr as [Hr1 Hr2].
      destruct listing as [items|]; [|discriminate]. simpl in Hr1.
      simpl. rewrite scan_items_eq.
      destruct (IH (rev (subdirsF d items) ++ stack)
                  (fold_left (file_stepF d) items st))
        as [chars [log [E [Hg Hh]]]].
      * rewrite stack_count_app, stack_count_rev, stack_count_subdirs.
        simpl in Hc. lia.
      * rewrite forallb_app. apply andb_true_iff. split; [|exact Hr2].
        rewrite forallb_forall. intros e He. apply in_rev in He.
        pose proof (subdirs_readable d items Hr1) as Hs.
        rewrite forallb_forall in Hs. now apply Hs.
      * exists chars, log. split; [exact E|]. split.
        -- eapply grows_trans; [apply file_fold_grows | exact Hg].
        -- intros d' items' p glyphs [Hd|Hd] Hreach.
           ++ injection Hd as <- <-.
              destruct Hreach as [name glyphs Hin Hext|name sub p glyphs Hin Hsub].
              ** eapply handled_grows; [exact Hg|].
                 now apply file_fold_handled.
              ** apply (Hh (path_join d name) sub); [|exact Hsub].
                 apply in_or_app. left. apply in_rev. rewrite rev_involutive.
                 now apply subdirs_In.
           ++ apply (Hh d' items'); [|exact Hreach].
              apply in_or_app. now right.
Qed.
End Scan.


Lemma extract_handles (has_font_ext : JsStr -> bool)
  (path_join : JsStr -> JsStr -> JsStr) (dirPath : JsStr)
  (items : list DirEntry) :
  forallb readable items = true ->
  exists chars log,
    Extend.extractCharsFromFonts has_font_ext path_join dirPath (Ret items) =
      Some (Ret chars, log)
    /\ forall p glyphs,
         reaches has_font_ext path_join dirPath items p glyphs ->
         handled p glyphs (chars, log).
Proof.
  intros Hr. unfold Extend.extractCharsFromFonts.
  destruct (scan_loop_handles has_font_ext path_join
              (Extend.listing_count (Ret items)) [(dirPath, Ret items)]
              ([], [])) as [chars [log [E [_ Hh]]]].
  - simpl. lia.
  - simpl. now rewrite Hr.
  - exists chars, log. split; [exact E|]. intros p glyphs Hreach.
    apply (Hh dirPath items); [now left | exact Hreach].
Qed.

(** C9: when every directory under the scan directory can be read, the
    scan returns; a font that cannot be opened or queried leaves a
    warning with its path and nothing else; the basic-block code points
    of every font that opens are in the union, with everything the other
    sources gave; and when [content.txt] can be read and, outside
    preview mode, the output can be written, the run ends without an
    exception, the warnings being among what it printed. *)
Theorem failed_font_is_skipped :
  forall (cn_stroke cn_order : JsStr -> Outcome JsVal)
         (localeCompare : JsStr -> JsStr -> JsNum)
         (has_font_ext : JsStr -> bool)
         (path_join : JsStr -> JsStr -> JsStr)
         (i : Extend.Inputs) (items : list DirEntry),
    Extend.fontRoot i = Ret items ->
    forallb readable items = true ->
    exists union log,
      Extend.union_of has_font_ext path_join i = Some (union, log)
      /\ (forall p,
            reaches has_font_ext path_join (Extend.fontDir i) items p Throw ->
            In (FontFailed p) log)
      /\ (forall p codes code,
            reaches has_font_ext path_join (Extend.fontDir i) items p
              (Ret codes) ->
            In code codes -> in_cjk code = true -> In [code] union)
      /\ (forall x, In x (fst (Extend.union_before_fonts i)) -> In x union)
      /\ (Extend.contentReadable i = true ->
          Extend.preview i = true \/ Extend.outWritable i = true ->
          exists run,
            Extend.main cn_stroke cn_order localeCompare has_font_ext
              path_join i = Some run
            /\ Extend.thrown run = false
            /\ (Extend.preview i = false -> Extend.written run <> None)
            /\ forall e, In e log -> In e (Extend.printed run)).
Proof.
  intros cn_stroke cn_order localeCompare has_font_ext path_join i items
    Hroot Hr.
  destruct (extract_handles has_font_ext path_join (Extend.fontDir i) items Hr)
    as [chars [flog [E Hh]]].
  assert (Hu : exists log,
             Extend.union_of has_font_ext path_join i =
               Some (set_add_all (fst (Extend.union_before_fonts i)) chars,
                     log ++ flog)).
  { unfold Extend.union_of. rewrite Hroot, E.
    destruct (Extend.union_before_fonts i) as [u l]. simpl. eauto. }
  destruct Hu as [log0 Hu].
  exists (set_add_all (fst (Extend.union_before_fonts i)) chars),
         (log0 ++ flog).
  split; [exact Hu|]. split; [|split; [|split]].
  - intros p Hreach. specialize (Hh p Throw Hreach). simpl in Hh.
    apply in_or_app. now right.
  - intros p codes code Hreach Hc Hcjk.
    specialize (Hh p (Ret codes) Hreach). simpl in Hh.
    apply set_add_all_In. right. now apply Hh.
  - intros x Hx. apply set_add_all_In. now left.
  - intros Hread Hout. unfold Extend.main, Extend.readContent.
    rewrite Hread, Hu.
    destruct (Extend.preview i) eqn:Ep.
    + eexists. split; [reflexivity|]. split; [reflexivity|].
      split; [intros Hp; discriminate Hp|].
      intros e He. simpl. apply in_or_app. left.
      destruct (Extend.limit i <? _); auto. apply in_or_app. now left.
    + destruct Hout as [Hout|Hout]; [discriminate Hout|]. rewrite Hout.
      eexists. split; [reflexivity|]. split; [reflexivity|].
      split; [intros _ Hw; discriminate Hw|].
      intros e He. simpl. apply in_or_app. left.
      destruct (Extend.limit i <? _); auto. apply in_or_app. now left.
Qed.

Lemma failed_font_is_skipped_witness :
  exists union log run,
    Extend.union_of ttf_ext slash_join demo_inputs = Some (union, log)
    /\ Extend.main demo_stroke demo_order unit_compare ttf_ext slash_join
         demo_inputs = Some run
    /\ Extend.thrown run = false
    /\ In (FontFailed [115; 47; 97; 46; 116; 116; 102]) log
    /\ In (FontFailed [115; 47; 97; 46; 116; 116; 102]) (Extend.printed run)
    /\ In [19977] union.
Proof.
  assert (Hr : forallb readable
                 [EFile [97; 46; 116; 116; 102] Throw;
                  EDir [100] (Ret [EFile [98; 46; 116; 116; 102]
                                     (Ret [65; 19977; 20108])]);
                  EFile [99; 46; 116; 120; 116] (Ret [21313])] = true)
    by reflexivity.
  destruct (failed_font_is_skipped demo_stroke demo_order unit_compare
              ttf_ext slash_join demo_inputs _ eq_refl Hr)
    as [union [log [Hu [Hfail [Hok [_ Hrun]]]]]].
  destruct (Hrun eq_refl (or_intror eq_refl)) as [run [Hm [Ht [_ Hp]]]].
  assert (Hin : In (FontFailed [115; 47; 97; 46; 116; 116; 102]) log).
  { apply (Hfail [115; 47; 97; 46; 116; 116; 102]).
    apply (reach_here ttf_ext slash_join [115] _ [97; 46; 116; 116; 102] Throw);
      [simpl; auto | reflexivity]. }
  exists union, log, run. split; [exact Hu|]. split; [exact Hm|].
  split; [exact Ht|]. split; [exact Hin|]. split; [exact (Hp _ Hin)|].
  apply (Hok [115; 47; 100; 47; 98; 46; 116; 116; 102]
             [65; 19977; 20108] 19977); [|simpl; auto|reflexivity].
  apply (reach_below ttf_ext slash_join [115] _ [100]
           [EFile [98; 46; 116; 116; 102] (Ret [65; 19977; 20108])]);
    [simpl; auto|].
  apply (reach_here ttf_ext slash_join [115; 47; 100] _
           [98; 46; 116; 116; 102] (Ret [65; 19977; 20108]));
    [simpl; auto | reflexivity].
Defined.

(** C9, the claim as stated fails: fonts are not skipped one by one when
    a directory under the scan directory cannot be read. Here "a.ttf"
    cannot be opened and is logged, "b.ttf" opens and holds U+4E09, and
    the directory "d" cannot be read: the scan as a whole throws, [main]
    prints its warning and goes on without any font character, so U+4E09
    is neither in the union nor in the document written. *)
Lemma unreadable_directory_counterexample :
  exists union log run,
    Extend.union_of ttf_ext slash_join demo_unreadable_inputs =
      Some (union, log)
    /\ Extend.main demo_stroke demo_order unit_compare ttf_ext slash_join
         demo_unreadable_inputs = Some run
    /\ reaches ttf_ext slash_join [115]
         [EFile [97; 46; 116; 116; 102] Throw;
          EFile [98; 46; 116; 116; 102] (Ret [19977; 20108]);
          EDir [100] Throw]
         [115; 47; 97; 46; 116; 116; 102] Throw
    /\ reaches ttf_ext slash_join [115]
         [EFile [97; 46; 116; 116; 102] Throw;
          EFile [98; 46; 116; 116; 102] (Ret [19977; 20108]);
          EDir [100] Throw]
         [115; 47; 98; 46; 116; 116; 102] (Ret [19977; 20108])
    /\ in_cjk 19977 = true
    /\ In (FontFailed [115; 47; 97; 46; 116; 116; 102]) log
    /\ In FontScanFailed log
    /\ ~ In [19977] union
    /\ Extend.written run = Some [49; HUA; TAB; 19968; LF].
Proof.
  destruct (Extend.union_of ttf_ext slash_join demo_unreadable_inputs)
    as [[union log]|] eqn:Eu; [|vm_compute in Eu; discriminate Eu].
  destruct (Extend.main demo_stroke demo_order unit_compare ttf_ext
              slash_join demo_unreadable_inputs) as [run|] eqn:Em;
    [|vm_compute in Em; discriminate Em].
  exists union, log, run. split; [reflexivity|]. split; [reflexivity|].
  split.
  { apply (reach_here ttf_ext slash_join [115] _ [97; 46; 116; 116; 102] Throw);
      [simpl; auto | reflexivity]. }
  split.
  { apply (reach_here ttf_ext slash_join [115] _ [98; 46; 116; 116; 102]
             (Ret [19977; 20108])); [simpl; auto | reflexivity]. }
  split; [reflexivity|].
  vm_compute in Eu. injection Eu as <- <-.
  vm_compute in Em. injection Em as <-.
  split; [simpl; auto 10|]. split; [simpl; auto 10|].
  split; [|reflexivity].
  intros Hin. apply (proj2 (set_has_In _ _)) in Hin.
  vm_compute in Hin. discriminate Hin.
Qed.

(** * Further properties of the pipeline *)

(** ** Grouping *)

Lemma key_of_spec (cn_stroke cn_order : JsStr -> Outcome JsVal)
  (ch : JsStr) (n : JsNum) :
  key_of cn_stroke cn_order ch = Some n <->
  Extend.strokeOf cn_stroke cn_order ch = Some n /\ num_falsy n = false.
Proof.
  unfold key_of. destruct (Extend.strokeOf cn_stroke cn_order ch) as [k|].
  - destruct (num_falsy k) eqn:E; split.
    + discriminate.
    + intros [H1 H2]. injection H1 as ->. congruence.
    + intros H. injection H as ->. auto.
    + intros [H1 _]. exact H1.
  - split; [discriminate | intros [H _]; discriminate].
Qed.

(** [groupByStroke] files a character under its stroke count and nowhere
    else: a bucket holds the characters of the input with that count, no
    character twice, no key twice, and no character with a missing or
    falsy count anywhere. *)
Theorem group_files_by_stroke :
  forall (cn_stroke cn_order : JsStr -> Outcome JsVal) (chars : list JsStr),
    (forall n ch,
        In ch (map_get n (Extend.groupByStroke cn_stroke cn_order chars)) <->
        In ch chars /\ Extend.strokeOf cn_stroke cn_order ch = Some n
                    /\ num_falsy n = false)
    /\ NoDup (map_keys (Extend.groupByStroke cn_stroke cn_order chars))
    /\ (forall n,
          NoDup (map_get n (Extend.groupByStroke cn_stroke cn_order chars)))
    /\ (forall n n' ch,
          In ch (map_get n (Extend.groupByStroke cn_stroke cn_order chars)) ->
          In ch (map_get n' (Extend.groupByStroke cn_stroke cn_order chars)) ->
          n = n').
Proof.
  intros cn_stroke cn_order chars. split; [|split; [|split]].
  - intros n ch. rewrite group_bucket_In, key_of_spec. reflexivity.
  - apply group_keys_NoDup.
  - intros n. unfold Extend.groupByStroke. rewrite fold_group_get.
    apply set_add_all_NoDup. constructor.
  - intros n n' ch H H'. apply group_bucket_In in H, H'.
    destruct H as [_ H]. destruct H' as [_ H']. congruence.
Qed.

(** Every bucket of a bucket map has a character, and every key is a
    number above zero. *)
Theorem group_buckets_nonempty :
  forall (cn_stroke cn_order : JsStr -> Outcome JsVal) (chars : list JsStr),
    Forall (fun e => num_pos (fst e) = true /\ snd e <> [])
      (Extend.groupByStroke cn_stroke cn_order chars).
Proof.
  intros cn_stroke cn_order chars. apply Forall_forall. intros [k s] Hin.
  assert (Hk : In k (map_keys (Extend.groupByStroke cn_stroke cn_order chars))).
  { change k with (fst (k, s)). now apply in_map. }
  simpl. split.
  - pose proof (group_keys_pos cn_stroke cn_order chars) as Hp.
    rewrite Forall_forall in Hp. now apply Hp.
  - apply entry_get in Hin; [|apply group_keys_NoDup]. subst s.
    apply group_keys_In in Hk. destruct Hk as [ch [Hc Hkey]].
    intros E.
    assert (Hb : In ch (map_get k (Extend.groupByStroke cn_stroke cn_order chars)))
      by (apply group_bucket_In; auto).
    rewrite E in Hb. contradiction.
Qed.

(** ** Selection *)

Lemma picked_of_nonpositive (localeCompare : JsStr -> JsStr -> JsNum)
  (limit : Z) (m : StrokeMap) :
  limit <= 0 -> Extend.picked_of localeCompare limit m = [].
Proof.
  intros H. unfold Extend.picked_of.
  assert (E : (limit <=? set_size []) = true) by (apply Z.leb_le; exact H).
  destruct (Extend.sorted_keys m) as [|k rest]; [reflexivity|].
  cbn [Extend.pick_keys].
  destruct (Extend.sorted_bucket localeCompare m k);
    cbn [Extend.pick_chars]; now rewrite ?E.
Qed.

Lemma total_of_nonneg (m : StrokeMap) : 0 <= Extend.total_of m.
Proof. rewrite (total_of_ordered (fun _ _ => NaN)). lia. Qed.

(** The output never has more characters than a limit of zero or more
    allows, and a limit below zero empties it. *)
Theorem select_within_limit :
  forall (cn_stroke cn_order : JsStr -> Outcome JsVal)
         (localeCompare : JsStr -> JsStr -> JsNum) (union : JsSet) (L : Z),
    NoDup union ->
    (0 <= L ->
     Extend.total_of
       (Extend.select cn_stroke cn_order localeCompare L
          (Extend.groupByStroke cn_stroke cn_order union)) <= L)
    /\ (L < 0 ->
        Extend.select cn_stroke cn_order localeCompare L
          (Extend.groupByStroke cn_stroke cn_order union) = []).
Proof.
  intros cn_stroke cn_order localeCompare union L Hn. split.
  - intros H0.
    destruct (Z_lt_le_dec L
                (Extend.total_of (Extend.groupByStroke cn_stroke cn_order union)))
      as [Hlt|Hle].
    + rewrite select_cut by assumption.
      rewrite (total_of_ordered (fun _ _ => NaN)).
      assert (Hp : NoDup (firstn (Z.to_nat L)
                    (ordered localeCompare
                       (Extend.groupByStroke cn_stroke cn_order union))))
        by (apply firstn_NoDup; now apply ordered_NoDup).
      rewrite <- (Permutation_length
                    (chars_of_ordered cn_stroke cn_order (fun _ _ => NaN) _ Hp)).
      rewrite (Permutation_length (chars_of_classified cn_stroke cn_order _ Hp)).
      pose proof (filter_length_le (classified cn_stroke cn_order)
                    (firstn (Z.to_nat L)
                       (ordered localeCompare
                          (Extend.groupByStroke cn_stroke cn_order union)))).
      pose proof (firstn_le_length (Z.to_nat L)
                    (ordered localeCompare
                       (Extend.groupByStroke cn_stroke cn_order union))).
      lia.
    + rewrite select_keep by assumption. exact Hle.
  - intros Hneg. unfold Extend.select.
    pose proof (total_of_nonneg (Extend.groupByStroke cn_stroke cn_order union)).
    assert (E : (L <? Extend.total_of
                       (Extend.groupByStroke cn_stroke cn_order union)) = true)
      by (apply Z.ltb_lt; lia).
    rewrite E, picked_of_nonpositive by lia. reflexivity.
Qed.

Lemma select_within_limit_witness :
  Extend.total_of
    (Extend.select demo_stroke demo_order unit_compare 3
       (Extend.groupByStroke demo_stroke demo_order demo_union)) <= 3.
Proof.
  destruct (select_within_limit demo_stroke demo_order unit_compare
              demo_union 3 demo_union_NoDup) as [H _].
  apply H. lia.
Defined.

(** Selecting twice with the same limit changes nothing more. *)
Theorem select_idempotent :
  forall (cn_stroke cn_order : JsStr -> Outcome JsVal)
         (localeCompare : JsStr -> JsStr -> JsNum) (union : JsSet) (L : Z),
    NoDup union ->
    Extend.select cn_stroke cn_order localeCompare L
      (Extend.select cn_stroke cn_order localeCompare L
         (Extend.groupByStroke cn_stroke cn_order union)) =
    Extend.select cn_stroke cn_order localeCompare L
      (Extend.groupByStroke cn_stroke cn_order union).
Proof.
  intros cn_stroke cn_order localeCompare union L Hn.
  destruct (Z_lt_le_dec L 0) as [Hneg|H0].
  - destruct (select_within_limit cn_stroke cn_order localeCompare union L Hn)
      as [_ H]. rewrite (H Hneg).
    unfold Extend.select.
    change (Extend.total_of []) with 0.
    assert (E : (L <? 0) = true) by (apply Z.ltb_lt; lia).
    rewrite E, picked_of_nonpositive by lia. reflexivity.
  - apply select_keep.
    destruct (select_within_limit cn_stroke cn_order localeCompare union L Hn)
      as [H _]. now apply H.
Qed.

Lemma select_idempotent_witness :
  Extend.select demo_stroke demo_order unit_compare 2
    (Extend.select demo_stroke demo_order unit_compare 2
       (Extend.groupByStroke demo_stroke demo_order demo_union)) =
  Extend.select demo_stroke demo_order unit_compare 2
    (Extend.groupByStroke demo_stroke demo_order demo_union).
Proof.
  exact (select_idempotent demo_stroke demo_order unit_compare demo_union 2
           demo_union_NoDup).
Defined.

(** ** What the loader and the sources put into the union *)

Lemma trim_In (c : Z) (s : JsStr) : In c (trim s) -> In c s.
Proof.
  intros H. destruct (trim_split s) as [w1 [w2 [E _]]]. rewrite E.
  apply in_or_app. right. apply in_or_app. now left.
Qed.

Lemma replace_ws_space (b : bool) (s : JsStr) (c : Z) :
  In c (replace_ws_from [SPACE] b s) -> c = SPACE \/ is_ws c = false.
Proof.
  revert b. induction s as [|d s IH]; intros b; simpl.
  - contradiction.
  - destruct (is_ws d) eqn:E.
    + intros H. apply in_app_or in H. destruct H as [H|H]; [|now apply IH in H].
      destruct b; [contradiction|]. destruct H as [<-|[]]. now left.
    + intros [<-|H]; [now right | now apply IH in H].
Qed.

Lemma split_space_tokens (s cur x : JsStr) (c : Z) :
  In x (split_space_from cur s) -> In c x ->
  (In c cur \/ In c s) /\ (~ In SPACE cur -> c <> SPACE).
Proof.
  revert cur. induction s as [|d s IH]; intros cur; simpl.
  - intros [<-|[]] Hc. split; [now left|]. intros Hn ->. contradiction.
  - destruct (Z.eqb_spec d SPACE) as [->|Hd].
    + intros [<-|H] Hc.
      * split; [now left|]. intros Hn ->. contradiction.
      * destruct (IH [] H Hc) as [[[]|H1] H2]. split; [auto|].
        intros _. apply H2. intros [].
    + intros H Hc. destruct (IH (cur ++ [d]) H Hc) as [H1 H2]. split.
      * destruct H1 as [H1|H1]; [|auto].
        apply in_app_or in H1. destruct H1 as [H1|[<-|[]]]; auto.
      * intros Hn. apply H2. intros Hin. apply in_app_or in Hin.
        destruct Hin as [Hin|[E|[]]]; [contradiction | congruence].
Qed.

Lemma parse_line_clean (acc : JsSet) (line : JsStr) :
  Forall clean_char acc -> Forall clean_char (Extend.parse_line acc line).
Proof.
  intros Hacc. unfold Extend.parse_line.
  destruct (match_line line) as [m2|]; [|exact Hacc].
  apply Forall_forall. intros x Hx. apply add_single_In in Hx.
  destruct Hx as [Hx|[Hx Hlen]].
  - rewrite Forall_forall in Hacc. now apply Hacc.
  - destruct x as [|c [|d x]]; try discriminate. exists c. split; [reflexivity|].
    destruct (split_space_tokens _ [] [c] c Hx) as [[[]|H1] H2]; [now left|].
    apply trim_In in H1. apply replace_ws_space in H1.
    destruct H1 as [->|H1]; [|exact H1]. exfalso. apply H2; auto.
Qed.

Lemma parse_line_NoDup (acc : JsSet) (line : JsStr) :
  NoDup acc -> NoDup (Extend.parse_line acc line).
Proof.
  intros Hacc. unfold Extend.parse_line.
  destruct (match_line line) as [m2|]; [|exact Hacc].
  generalize (split_space (trim (replace_ws [SPACE] m2))).
  intros toks. revert acc Hacc. induction toks as [|t toks IH]; intros acc H.
  - exact H.
  - simpl. apply IH. unfold Extend.add_single. destruct (is_nil t); [exact H|].
    destruct (length t =? 1)%nat; [now apply set_add_NoDup | exact H].
Qed.

(** The loader returns a set, each element of which is one code unit
    that is not white space. *)
Theorem loader_chars_clean :
  forall text : JsStr,
    NoDup (Extend.parseExistingChars text)
    /\ Forall clean_char (Extend.parseExistingChars text).
Proof.
  intros text. unfold Extend.parseExistingChars.
  assert (H : forall lines acc, NoDup acc -> Forall clean_char acc ->
            NoDup (fold_left Extend.parse_line lines acc) /\
            Forall clean_char (fold_left Extend.parse_line lines acc)).
  { induction lines as [|l lines IH]; intros acc H1 H2; simpl; [auto|].
    apply IH; [now apply parse_line_NoDup | now apply parse_line_clean]. }
  apply H; constructor.
Qed.

Lemma cjk_not_ws (c : Z) : in_cjk c = true -> is_ws c = false.
Proof.
  intros H. unfold in_cjk in H. apply andb_true_iff in H.
  destruct H as [H1 H2]. apply Z.leb_le in H1, H2. unfold is_ws.
  repeat match goal with
         | |- (_ || _) = false => apply orb_false_iff; split
         | |- (_ && _) = false => apply andb_false_iff
         | |- (_ =? _) = false => apply Z.eqb_neq; lia
         end.
  - right. apply Z.leb_gt. lia.
  - right. apply Z.leb_gt. lia.
Qed.

Lemma candidates_clean : Forall clean_char Extend.buildCandidateSet.
Proof.
  apply (Forall_impl _ (P := fun ch => exists c, ch = [c] /\ in_cjk c = true)).
  - intros ch [c [-> Hc]]. exists c. split; [reflexivity | now apply cjk_not_ws].
  - exact candidates_in_cjk.
Qed.

Lemma split_seps_tokens (s cur x : JsStr) (b : bool) (c : Z) :
  In x (split_seps_from cur b s) -> In c x ->
  (forall d, In d cur -> is_sep d = false) -> is_sep c = false.
Proof.
  revert cur b. induction s as [|d s IH]; intros cur b; simpl.
  - intros [<-|[]] Hc Hcur. now apply Hcur.
  - destruct (is_sep d) eqn:E.
    + destruct b.
      * intros H Hc Hcur. now apply (IH cur true).
      * intros [<-|H] Hc Hcur; [now apply Hcur|].
        apply (IH [] true); auto. intros ? [].
    + intros H Hc Hcur. apply (IH (cur ++ [d]) false); auto.
      intros e He. apply in_app_or in He. destruct He as [He|[<-|[]]]; auto.
Qed.

Lemma include_tokens_clean (t x : JsStr) :
  In x (Extend.include_tokens t) -> length x = 1%nat -> clean_char x.
Proof.
  unfold Extend.include_tokens. intros Hx Hlen. apply filter_In in Hx.
  destruct Hx as [Hx _]. apply in_map_iff in Hx. destruct Hx as [tok [<- Htok]].
  destruct (trim tok) as [|c [|d r]] eqn:E; try discriminate.
  exists c. split; [reflexivity|].
  assert (Hc : In c tok) by (apply trim_In; rewrite E; now left).
  assert (Hs : is_sep c = false).
  { apply (split_seps_tokens t [] tok false c Htok Hc). intros ? []. }
  unfold is_sep in Hs. apply orb_false_iff in Hs. tauto.
Qed.

Lemma include_fold_clean (incs : list (JsStr * Outcome JsStr)) (u : JsSet)
  (log : list Event) :
  Forall clean_char u ->
  Forall clean_char (fst (fold_left Extend.include_step incs (u, log))).
Proof.
  intros Hu. apply Forall_forall. intros x Hx. apply include_fold_In in Hx.
  destruct Hx as [Hx|[p [t [_ [Hx Hlen]]]]].
  - rewrite Forall_forall in Hu. now apply Hu.
  - now apply (include_tokens_clean t).
Qed.

Lemma set_add_all_Forall (P : JsStr -> Prop) (s : JsSet) (xs : list JsStr) :
  Forall P s -> Forall P xs -> Forall P (set_add_all s xs).
Proof.
  intros Hs Hxs. apply Forall_forall. intros x Hx.
  apply (proj1 (set_add_all_In x xs s)) in Hx. rewrite Forall_forall in Hs, Hxs.
  destruct Hx; auto.
Qed.

Lemma merge_sources_clean (raw : JsStr)
  (incs : list (JsStr * Outcome JsStr)) :
  Forall clean_char (fst (Extend.merge_sources raw incs)).
Proof.
  unfold Extend.merge_sources. apply include_fold_clean.
  apply set_add_all_Forall; [|exact candidates_clean].
  apply set_add_all_Forall; [constructor|].
  now destruct (loader_chars_clean raw).
Qed.

(** ** The font scan, whatever the tree *)


(** ** The font scan, whatever the tree *)

Section ScanAny.
Variable has_font_ext : JsStr -> bool.
Variable path_join : JsStr -> JsStr -> JsStr.

Local Abbreviation subdirsF := (subdirs path_join).
Local Abbreviation file_stepF := (file_step has_font_ext path_join).

Lemma adds_refl (st : JsSet * list Event) : adds_font_chars st st.
Proof. split; auto. Qed.

Lemma adds_trans (a b c : JsSet * list Event) :
  adds_font_chars a b -> adds_font_chars b c -> adds_font_chars a c.
Proof.
  intros [H1 H2] [H3 H4]. split; [|auto].
  intros x Hx. destruct (H3 x Hx) as [H|H]; auto.
Qed.

Lemma glyph_fold_NoDup (codes : list Z) (chars : JsSet) :
  NoDup chars ->
  NoDup (fold_left (fun acc code => if in_cjk code then set_add [code] acc
                                    else acc) codes chars).
Proof.
  revert chars. induction codes as [|c codes IH]; intros chars H; simpl.
  - exact H.
  - apply IH. destruct (in_cjk c); [now apply set_add_NoDup | exact H].
Qed.

Lemma font_step_adds (p : JsStr) (glyphs : Outcome (list Z))
  (st : JsSet * list Event) :
  adds_font_chars st (Extend.font_step p glyphs st).
Proof.
  destruct st as [chars log]. unfold Extend.font_step.
  destruct glyphs as [codes|]; [|split; simpl; auto]. split; simpl.
  - intros x Hx. apply glyph_fold_In in Hx.
    destruct Hx as [Hx|[code [_ [Hc ->]]]]; [now left | right].
    now exists code.
  - apply glyph_fold_NoDup.
Qed.

Lemma file_fold_adds (d : JsStr) (items : list DirEntry)
  (st : JsSet * list Event) :
  adds_font_chars st (fold_left (file_stepF d) items st).
Proof.
  revert st. induction items as [|it items IH]; intros st; simpl.
  - apply adds_refl.
  - eapply adds_trans; [|apply IH].
    destruct it as [name listing|name glyphs|name]; simpl;
      try apply adds_refl.
    destruct (has_font_ext name); [apply font_step_adds | apply adds_refl].
Qed.

Lemma scan_loop_adds (fuel : nat) :
  forall (stack : Extend.Stack) (st : JsSet * list Event)
         (chars : JsSet) (log : list Event),
    Extend.scan_loop has_font_ext path_join fuel stack st =
      Some (Ret chars, log) ->
    adds_font_chars st (chars, log).
Proof.
  induction fuel as [|fuel IH]; intros stack st chars log H.
  - destruct stack as [|[d listing] stack]; [|discriminate].
    simpl in H. injection H as <- <-. destruct st. apply adds_refl.
  - destruct stack as [|[d listing] stack].
    + simpl in H. injection H as <- <-. destruct st. apply adds_refl.
    + simpl in H. destruct listing as [items|]; [|discriminate].
      rewrite scan_items_eq in H. apply IH in H.
      eapply adds_trans; [apply file_fold_adds | exact H].
Qed.

Lemma subdirs_unreadable (d : JsStr) (items : list DirEntry) :
  forallb readable items = false ->
  forallb (fun e => readable_listing (snd e)) (subdirsF d items) = false.
Proof.
  induction items as [|it items IH]; [discriminate|].
  cbn [forallb]. intros H. apply andb_false_iff in H.
  unfold subdirs. cbn [flat_map]. rewrite forallb_app.
  apply andb_false_iff. destruct H as [H|H].
  - left. destruct it as [name listing|name glyphs|name]; try discriminate.
    rewrite readable_dir in H. simpl. now rewrite H.
  - right. now apply IH.
Qed.

(** A directory that cannot be read anywhere on or below the stack makes
    the loop throw. *)
Lemma scan_loop_throws (fuel : nat) :
  forall (stack : Extend.Stack) (st : JsSet * list Event),
    (stack_count stack <= fuel)%nat ->
    forallb (fun e => readable_listing (snd e)) stack = false ->
    exists log,
      Extend.scan_loop has_font_ext path_join fuel stack st =
        Some (Throw, log).
Proof.
  induction fuel as [|fuel IH]; intros stack st Hc Hr.
  - destruct stack as [|[d listing] stack]; [discriminate|].
    simpl in Hc. destruct listing; simpl in Hc; lia.
  - destruct stack as [|[d listing] stack]; [discriminate|].
    simpl. destruct listing as [items|]; [|eauto].
    rewrite scan_items_eq. apply IH.
    + rewrite stack_count_app, stack_count_rev, stack_count_subdirs.
      simpl in Hc. lia.
    + cbn [forallb snd readable_listing] in Hr.
      apply andb_false_iff in Hr. rewrite forallb_app.
      apply andb_false_iff. destruct Hr as [Hr|Hr]; [left | now right].
      pose proof (subdirs_unreadable d items Hr) as Hs.
      destruct (forallb (fun e => readable_listing (snd e))
                  (rev (subdirsF d items))) eqn:E; [|reflexivity].
      rewrite forallb_forall in E.
      assert (Hall : forallb (fun e => readable_listing (snd e))
                       (subdirsF d items) = true).
      { apply forallb_forall. intros e He. apply E. now apply in_rev in He. }
      congruence.
Qed.
End ScanAny.

Lemma extract_chars (has_font_ext : JsStr -> bool)
  (path_join : JsStr -> JsStr -> JsStr) (dirPath : JsStr)
  (root : Outcome (list DirEntry)) (chars : JsSet) (log : list Event) :
  Extend.extractCharsFromFonts has_font_ext path_join dirPath root =
    Some (Ret chars, log) ->
  NoDup chars /\ Forall font_char chars /\ Forall clean_char chars.
Proof.
  intros H. unfold Extend.extractCharsFromFonts in H.
  apply scan_loop_adds in H. destruct H as [H1 H2].
  assert (Hf : Forall font_char chars).
  { apply Forall_forall. intros x Hx. destruct (H1 x Hx) as [[]|Hf].
    exact Hf. }
  split; [apply H2; constructor|]. split; [exact Hf|].
  apply (Forall_impl _ (P := font_char)); [|exact Hf].
  intros x [c [-> Hx]]. exists c. split; [reflexivity|].
  now apply cjk_not_ws.
Qed.

(** The font scan returns a set of single code units of the basic
    block. *)
Theorem font_chars_in_block :
  forall (has_font_ext : JsStr -> bool) (path_join : JsStr -> JsStr -> JsStr)
         (dirPath : JsStr) (root : Outcome (list DirEntry))
         (chars : JsSet) (log : list Event),
    Extend.extractCharsFromFonts has_font_ext path_join dirPath root =
      Some (Ret chars, log) ->
    NoDup chars /\ Forall font_char chars.
Proof.
  intros has_font_ext path_join dirPath root chars log H.
  apply extract_chars in H. tauto.
Qed.

Lemma font_chars_in_block_witness :
  Forall font_char [[19977]; [20108]].
Proof.
  assert (H : Extend.extractCharsFromFonts ttf_ext slash_join
                (Extend.fontDir demo_inputs) (Extend.fontRoot demo_inputs) =
              Some (Ret [[19977]; [20108]],
                    [FontFailed [115; 47; 97; 46; 116; 116; 102]]))
    by (vm_compute; reflexivity).
  destruct (font_chars_in_block ttf_ext slash_join _ _ _ _ H) as [_ Hf].
  exact Hf.
Defined.



(** One directory that cannot be read costs the union every font: the
    scan throws, [main] warns once, and the union is what the baseline,
    the candidates and the include files gave. *)
Theorem unreadable_directory_drops_fonts :
  forall (has_font_ext : JsStr -> bool) (path_join : JsStr -> JsStr -> JsStr)
         (i : Extend.Inputs),
    readable_listing (Extend.fontRoot i) = false ->
    exists log,
      Extend.union_of has_font_ext path_join i =
        Some (fst (Extend.union_before_fonts i), log)
      /\ In FontScanFailed log.
Proof.
  intros has_font_ext path_join i Hr.
  destruct (scan_loop_throws has_font_ext path_join
              (Extend.listing_count (Extend.fontRoot i))
              [(Extend.fontDir i, Extend.fontRoot i)] ([], []))
    as [flog E].
  - simpl. lia.
  - simpl. now rewrite Hr.
  - unfold Extend.union_of, Extend.extractCharsFromFonts. rewrite E.
    destruct (Extend.union_before_fonts i) as [u l]. simpl.
    eexists. split; [reflexivity|].
    apply in_or_app. right. apply in_or_app. right. now left.
Qed.

Lemma unreadable_directory_drops_fonts_witness :
  exists log,
    Extend.union_of ttf_ext slash_join demo_broken_inputs =
      Some (fst (Extend.union_before_fonts demo_broken_inputs), log)
    /\ In FontScanFailed log.
Proof.
  apply (unreadable_directory_drops_fonts ttf_ext slash_join
           demo_broken_inputs).
  reflexivity.
Defined.

(** Whatever the sources, the union is a set of single code units that
    are not white space. *)
Theorem union_chars_clean :
  forall (has_font_ext : JsStr -> bool) (path_join : JsStr -> JsStr -> JsStr)
         (i : Extend.Inputs) (union : JsSet) (log : list Event),
    Extend.union_of has_font_ext path_join i = Some (union, log) ->
    NoDup union /\ Forall clean_char union.
Proof.
  intros has_font_ext path_join i union log H.
  unfold Extend.union_of in H.
  pose proof (merge_sources_NoDup (Extend.content i) (Extend.includeFiles i))
    as Hn.
  pose proof (merge_sources_clean (Extend.content i) (Extend.includeFiles i))
    as Hc.
  fold (Extend.union_before_fonts i) in Hn, Hc.
  destruct (Extend.union_before_fonts i) as [u l]. simpl in Hn, Hc.
  destruct (Extend.extractCharsFromFonts has_font_ext path_join
              (Extend.fontDir i) (Extend.fontRoot i))
    as [[[extra|] flog]|] eqn:E; [| |discriminate].
  - injection H as <- _. split; [now apply set_add_all_NoDup|].
    apply set_add_all_Forall; [exact Hc|].
    apply extract_chars in E. tauto.
  - injection H as <- _. auto.
Qed.

Lemma union_chars_clean_witness :
  exists union log,
    Extend.union_of ttf_ext slash_join demo_inputs = Some (union, log)
    /\ NoDup union /\ Forall clean_char union.
Proof.
  destruct (Extend.union_of ttf_ext slash_join demo_inputs)
    as [[union log]|] eqn:E.
  - exists union, log. split; [reflexivity|].
    exact (union_chars_clean ttf_ext slash_join demo_inputs union log E).
  - exfalso. revert E. vm_compute. discriminate.
Defined.

(** ** The layout of the document *)

(** With both regions present the trim changes nothing: the document is
    the prefix region, an empty line, the body, whose last line is
    followed by two empty lines, the suffix region and a line feed. *)
Theorem format_layout :
  forall (localeCompare : JsStr -> JsStr -> JsNum) (raw : JsStr)
         (m : StrokeMap),
    Extend.prefix_of raw <> [] ->
    Extend.suffix_of raw <> [] ->
    Extend.formatOutput localeCompare raw m =
    Extend.prefix_of raw ++ [LF; LF] ++ Extend.body_of localeCompare m ++
    [LF; LF] ++ Extend.suffix_of raw ++ [LF].
Proof.
  intros localeCompare raw m Hp Hs. unfold Extend.formatOutput.
  destruct (prefix_of_trimmed raw) as [Hp1 _].
  destruct (suffix_of_trimmed raw) as [_ Hs2].
  rewrite trim_id.
  - now rewrite <- !app_assoc.
  - destruct (Extend.prefix_of raw); [contradiction | exact Hp1].
  - rewrite !app_assoc. now apply ends_nonws_app.
Qed.

Lemma format_layout_witness :
  Extend.formatOutput unit_compare
    ([65; 10] ++ PREFIX_ANCHOR ++ [10] ++ SUFFIX_ANCHOR ++ [10])
    [(Fin 1, [[19968]])] =
  [65; LF; LF; 49; HUA; TAB; 19968; LF; LF; LF] ++ SUFFIX_ANCHOR ++ [LF].
Proof.
  rewrite (format_layout unit_compare
             ([65; 10] ++ PREFIX_ANCHOR ++ [10] ++ SUFFIX_ANCHOR ++ [10])
             [(Fin 1, [[19968]])]).
  - vm_compute. reflexivity.
  - vm_compute. discriminate.
  - vm_compute. discriminate.
Defined.

(** ** The document does not depend on the order of the union *)

Lemma sorted_perm_unique {A : Type} (le : A -> A -> Prop) (l1 : list A) :
  forall l2,
    StronglySorted le l1 -> StronglySorted le l2 -> Permutation l1 l2 ->
    (forall a b, In a l1 -> In b l1 -> le a b -> le b a -> a = b) ->
    l1 = l2.
Proof.
  induction l1 as [|a l1 IH]; intros l2 H1 H2 Hp Ha.
  - apply Permutation_nil in Hp. now subst.
  - destruct l2 as [|b l2].
    + apply Permutation_sym, Permutation_nil in Hp. discriminate.
    + inversion H1 as [|? ? H1s H1a]; subst.
      inversion H2 as [|? ? H2s H2b]; subst.
      rewrite Forall_forall in H1a, H2b.
      assert (E : a = b).
      { assert (Hina : In a (b :: l2))
          by (apply (Permutation_in _ Hp); now left).
        assert (Hinb : In b (a :: l1))
          by (apply (Permutation_in _ (Permutation_sym Hp)); now left).
        destruct Hina as [E|Hina]; [now symmetry|].
        destruct Hinb as [E|Hinb]; [exact E|].
        apply Ha; [now left | now right | now apply H1a | now apply H2b]. }
      subst b. f_equal. apply IH; try assumption.
      * now apply Permutation_cons_inv in Hp.
      * intros x y Hx Hy. apply Ha; now right.
Qed.

Lemma key_order_antisym (a b : JsNum) :
  num_pos a = true -> num_pos b = true ->
  cmp_le num_sub a b -> cmp_le num_sub b a -> a = b.
Proof.
  unfold cmp_le. destruct a as [x| | |], b as [y| | |]; simpl;
    try discriminate; auto.
  intros _ _. rewrite !Z.ltb_ge. intros H1 H2. f_equal. lia.
Qed.

Section OrderIndependence.
Variable cn_stroke : JsStr -> Outcome JsVal.
Variable cn_order : JsStr -> Outcome JsVal.
Variable localeCompare : JsStr -> JsStr -> JsNum.
Variables chars chars' : list JsStr.
Hypothesis collation : consistent localeCompare.
Hypothesis distinct : NoDup chars.
Hypothesis same : Permutation chars chars'.
Hypothesis no_ties : forall a b, In a chars -> In b chars ->
  cmp_le localeCompare a b -> cmp_le localeCompare b a -> a = b.

Local Abbreviation groupByStroke := (Extend.groupByStroke cn_stroke cn_order).

Lemma perm_sorted_keys :
  Extend.sorted_keys (groupByStroke chars) =
  Extend.sorted_keys (groupByStroke chars').
Proof using same.
  apply (sorted_perm_unique (cmp_le num_sub)).
  - apply (js_sort_sorted num_sub (fun n => num_pos n = true));
      [apply key_order_total | apply key_order_trans | apply group_keys_pos].
  - apply (js_sort_sorted num_sub (fun n => num_pos n = true));
      [apply key_order_total | apply key_order_trans | apply group_keys_pos].
  - unfold Extend.sorted_keys. rewrite !js_sort_perm.
    apply NoDup_Permutation; try apply group_keys_NoDup.
    intros k. rewrite !group_keys_In.
    split; intros [ch [Hc Hk]]; exists ch; (split; [|exact Hk]).
    + exact (Permutation_in _ same Hc).
    + exact (Permutation_in _ (Permutation_sym same) Hc).
  - intros a b Ha Hb. apply js_sort_In in Ha, Hb.
    pose proof (group_keys_pos cn_stroke cn_order chars) as Hp.
    rewrite Forall_forall in Hp. apply key_order_antisym; auto.
Qed.

Lemma perm_sorted_bucket (k : JsNum) :
  Extend.sorted_bucket localeCompare (groupByStroke chars) k =
  Extend.sorted_bucket localeCompare (groupByStroke chars') k.
Proof using collation distinct same no_ties.
  assert (Hd' : NoDup chars') by exact (Permutation_NoDup same distinct).
  destruct collation as [Ht Htr].
  apply (sorted_perm_unique (cmp_le localeCompare)).
  - apply (js_sort_sorted localeCompare (fun _ => True)); auto.
    + intros a b c _ _ _. apply Htr.
    + apply Forall_forall. auto.
  - apply (js_sort_sorted localeCompare (fun _ => True)); auto.
    + intros a b c _ _ _. apply Htr.
    + apply Forall_forall. auto.
  - unfold Extend.sorted_bucket. rewrite !js_sort_perm.
    rewrite !group_bucket by assumption.
    apply NoDup_Permutation; try (now apply NoDup_filter).
    intros x. rewrite !filter_In.
    split; intros [Hx Hk]; (split; [|exact Hk]).
    + exact (Permutation_in _ same Hx).
    + exact (Permutation_in _ (Permutation_sym same) Hx).
  - intros a b Ha Hb. apply js_sort_In in Ha, Hb.
    apply group_bucket_In in Ha, Hb. apply no_ties; tauto.
Qed.

Lemma perm_body :
  Extend.body_of localeCompare (groupByStroke chars) =
  Extend.body_of localeCompare (groupByStroke chars').
Proof using collation distinct same no_ties.
  rewrite !body_of_concat, perm_sorted_keys. f_equal. apply map_ext.
  intros k. unfold Extend.body_line. now rewrite perm_sorted_bucket.
Qed.

Lemma perm_ordered :
  ordered localeCompare (groupByStroke chars) =
  ordered localeCompare (groupByStroke chars').
Proof using collation distinct same no_ties.
  unfold ordered. rewrite perm_sorted_keys. f_equal. apply map_ext.
  intros k. apply perm_sorted_bucket.
Qed.

Lemma perm_format (raw : JsStr) (L : Z) :
  Extend.formatOutput localeCompare raw
    (Extend.select cn_stroke cn_order localeCompare L (groupByStroke chars)) =
  Extend.formatOutput localeCompare raw
    (Extend.select cn_stroke cn_order localeCompare L (groupByStroke chars')).
Proof using collation distinct same no_ties.
  assert (Hd' : NoDup chars') by exact (Permutation_NoDup same distinct).
  assert (Ht : Extend.total_of (groupByStroke chars) =
               Extend.total_of (groupByStroke chars')).
  { rewrite !(total_of_ordered localeCompare). now rewrite perm_ordered. }
  destruct (Z_lt_le_dec L (Extend.total_of (groupByStroke chars))) as [Hlt|Hle].
  - rewrite !select_cut by (assumption || (rewrite <- Ht; assumption)).
    now rewrite perm_ordered.
  - rewrite !select_keep by (assumption || (rewrite <- Ht; assumption)).
    unfold Extend.formatOutput. now rewrite perm_body.
Qed.
End OrderIndependence.

(** The document depends on which characters the union has, not on the
    order in which they were added, as long as the collation never puts
    two different characters of the union level. *)
Theorem output_independent_of_order :
  forall (cn_stroke cn_order : JsStr -> Outcome JsVal)
         (localeCompare : JsStr -> JsStr -> JsNum)
         (chars chars' : list JsStr) (raw : JsStr) (L : Z),
    consistent localeCompare ->
    NoDup chars ->
    Permutation chars chars' ->
    (forall a b, In a chars -> In b chars ->
                 cmp_le localeCompare a b -> cmp_le localeCompare b a ->
                 a = b) ->
    Extend.formatOutput localeCompare raw
      (Extend.select cn_stroke cn_order localeCompare L
         (Extend.groupByStroke cn_stroke cn_order chars)) =
    Extend.formatOutput localeCompare raw
      (Extend.select cn_stroke cn_order localeCompare L
         (Extend.groupByStroke cn_stroke cn_order chars')).
Proof.
  intros. now apply perm_format.
Qed.

Lemma unit_compare_no_ties :
  forall a b, In a demo_union -> In b demo_union ->
              cmp_le unit_compare a b -> cmp_le unit_compare b a -> a = b.
Proof.
  unfold cmp_le, unit_compare, demo_union. simpl. intros a b Ha Hb.
  rewrite !Z.ltb_ge. intros H1 H2.
  assert (E : hd 0 a = hd 0 b) by lia. clear H1 H2.
  destruct Ha as [<-|[<-|[<-|[<-|[]]]]];
    destruct Hb as [<-|[<-|[<-|[<-|[]]]]];
    try reflexivity; discriminate E.
Qed.

Lemma output_independent_of_order_witness :
  Extend.formatOutput unit_compare [65; 10]
    (Extend.select demo_stroke demo_order unit_compare 3
       (Extend.groupByStroke demo_stroke demo_order demo_union)) =
  Extend.formatOutput unit_compare [65; 10]
    (Extend.select demo_stroke demo_order unit_compare 3
       (Extend.groupByStroke demo_stroke demo_order (rev demo_union))).
Proof.
  exact (output_independent_of_order demo_stroke demo_order unit_compare
           demo_union (rev demo_union) [65; 10] 3 unit_compare_consistent
           demo_union_NoDup (Permutation_rev demo_union)
           unit_compare_no_ties).
Defined.

(** The written document does not depend on the order in which the
    include files are given, when the collation never puts two different
    characters level. *)
Theorem include_order_irrelevant :
  forall (cn_stroke cn_order : JsStr -> Outcome JsVal)
         (localeCompare : JsStr -> JsStr -> JsNum)
         (has_font_ext : JsStr -> bool) (path_join : JsStr -> JsStr -> JsStr)
         (i : Extend.Inputs) (files : list (JsStr * Outcome JsStr)),
    consistent localeCompare ->
    (forall a b, clean_char a -> clean_char b ->
                 cmp_le localeCompare a b -> cmp_le localeCompare b a ->
                 a = b) ->
    Permutation (Extend.includeFiles i) files ->
    option_map Extend.written
      (Extend.main cn_stroke cn_order localeCompare has_font_ext path_join i) =
    option_map Extend.written
      (Extend.main cn_stroke cn_order localeCompare has_font_ext path_join
         (with_includes i files)).
Proof.
  intros cn_stroke cn_order localeCompare has_font_ext path_join i files
    Hc Hties Hp.
  unfold Extend.main, Extend.readContent, Extend.union_of,
    Extend.union_before_fonts.
  cbn [with_includes Extend.limit Extend.preview Extend.fontDir
       Extend.includeFiles Extend.content Extend.fontRoot
       Extend.contentReadable Extend.outWritable].
  destruct (Extend.contentReadable i); [|reflexivity].
  pose proof (merge_sources_NoDup (Extend.content i) (Extend.includeFiles i))
    as Hn.
  pose proof (merge_sources_NoDup (Extend.content i) files) as Hn'.
  pose proof (merge_sources_clean (Extend.content i) (Extend.includeFiles i))
    as Hcl.
  assert (Hsame : forall x,
             In x (fst (Extend.merge_sources (Extend.content i)
                          (Extend.includeFiles i))) <->
             In x (fst (Extend.merge_sources (Extend.content i) files))).
  { intros x. unfold Extend.merge_sources. now apply include_fold_perm. }
  destruct (Extend.merge_sources (Extend.content i) (Extend.includeFiles i))
    as [u l].
  destruct (Extend.merge_sources (Extend.content i) files) as [u' l'].
  simpl in Hn, Hn', Hsame, Hcl.
  destruct (Extend.extractCharsFromFonts has_font_ext path_join
              (Extend.fontDir i) (Extend.fontRoot i))
    as [[[extra|] flog]|] eqn:E; [| |reflexivity].
  - assert (HU : NoDup (set_add_all u extra))
      by now apply set_add_all_NoDup.
    assert (HC : Forall clean_char (set_add_all u extra)).
    { apply set_add_all_Forall; [exact Hcl|].
      apply extract_chars in E. tauto. }
    rewrite Forall_forall in HC.
    assert (HP : Permutation (set_add_all u extra) (set_add_all u' extra)).
    { apply NoDup_Permutation; [exact HU | now apply set_add_all_NoDup|].
      intros x. rewrite !set_add_all_In, Hsame. reflexivity. }
    destruct (Extend.preview i); cbn [option_map Extend.written];
      [reflexivity|].
    destruct (Extend.outWritable i); cbn [option_map Extend.written];
      [|reflexivity].
    apply (f_equal (@Some (option JsStr))). apply (f_equal (@Some JsStr)).
    apply perm_format; auto.
  - assert (HP : Permutation u u') by now apply NoDup_Permutation.
    rewrite Forall_forall in Hcl.
    destruct (Extend.preview i); cbn [option_map Extend.written];
      [reflexivity|].
    destruct (Extend.outWritable i); cbn [option_map Extend.written];
      [|reflexivity].
    apply (f_equal (@Some (option JsStr))). apply (f_equal (@Some JsStr)).
    apply perm_format; auto.
Qed.

Lemma unit_compare_clean_ties :
  forall a b, clean_char a -> clean_char b ->
              cmp_le unit_compare a b -> cmp_le unit_compare b a -> a = b.
Proof.
  intros a b [c [-> _]] [d [-> _]]. unfold cmp_le, unit_compare. simpl.
  rewrite !Z.ltb_ge. intros H1 H2. f_equal. lia.
Qed.

Lemma include_order_irrelevant_witness :
  option_map Extend.written
    (Extend.main demo_stroke demo_order unit_compare ttf_ext slash_join
       (with_includes demo_inputs
          [([97], Ret [19977; 44; 20108]); ([98], Ret [21313])])) =
  option_map Extend.written
    (Extend.main demo_stroke demo_order unit_compare ttf_ext slash_join
       (with_includes
          (with_includes demo_inputs
             [([97], Ret [19977; 44; 20108]); ([98], Ret [21313])])
          [([98], Ret [21313]); ([97], Ret [19977; 44; 20108])])).
Proof.
  apply (include_order_irrelevant demo_stroke demo_order unit_compare
           ttf_ext slash_join).
  - exact unit_compare_consistent.
  - exact unit_compare_clean_ties.
  - apply perm_swap.
Defined.

(** * analyze-charset.js *)

(** ** The set of characters *)

Lemma code_points_items (s x : JsStr) :
  In x (code_points s) ->
  (exists c, x = [c] /\ In c s) \/
  (exists c d, x = [c; d] /\ is_high c = true /\ is_low d = true).
Proof.
  assert (H : forall n s, (length s <= n)%nat -> In x (code_points s) ->
            (exists c, x = [c] /\ In c s) \/
            (exists c d, x = [c; d] /\ is_high c = true /\ is_low d = true)).
  { induction n as [|n IH]; intros s0 Hlen Hx.
    - destruct s0; [contradiction | simpl in Hlen; lia].
    - destruct s0 as [|c [|d r]]; [contradiction| |].
      + destruct Hx as [<-|[]]. left. exists c. simpl. auto.
      + cbn [code_points] in Hx.
        destruct (is_high c && is_low d) eqn:E.
        * destruct Hx as [<-|Hx].
          -- right. exists c, d. apply andb_true_iff in E. tauto.
          -- destruct (IH r) as [[e [-> He]]|Hp]; auto.
             ++ simpl in Hlen. lia.
             ++ left. exists e. simpl. auto.
        * destruct Hx as [<-|Hx].
          -- left. exists c. simpl. auto.
          -- destruct (IH (d :: r)) as [[e [-> He]]|Hp]; auto.
             ++ simpl in *. lia.
             ++ left. exists e. split; [reflexivity | now right]. }
  apply (H (length s)). lia.
Qed.

Lemma code_points_unit (s : JsStr) (c : Z) :
  In c s -> is_high c = false -> is_low c = false -> In [c] (code_points s).
Proof.
  intros Hin Hh Hl.
  assert (H : forall n s, (length s <= n)%nat -> In c s ->
                          In [c] (code_points s)).
  { induction n as [|n IH]; intros s0 Hlen Hc.
    - destruct s0; [contradiction | simpl in Hlen; lia].
    - destruct s0 as [|a [|b r]]; [contradiction| |].
      + destruct Hc as [->|[]]. now left.
      + cbn [code_points]. destruct (is_high a && is_low b) eqn:E.
        * apply andb_true_iff in E. destruct E as [Ea Eb].
          destruct Hc as [->|[->|Hc]]; try congruence.
          right. apply IH; [simpl in Hlen; lia | exact Hc].
        * destruct Hc as [->|Hc]; [now left|].
          right. apply (IH (b :: r)); [simpl in *; lia | exact Hc]. }
  apply (H (length s)); [lia | exact Hin].
Qed.

Lemma cjk_not_surrogate (c : Z) :
  in_cjk c = true -> is_high c = false /\ is_low c = false.
Proof.
  unfold in_cjk, is_high, is_low. intros H. apply andb_true_iff in H.
  destruct H as [H1 H2]. apply Z.leb_le in H1, H2.
  split; apply andb_false_iff; left; apply Z.leb_gt; lia.
Qed.

Lemma pair_not_cjk (c d : Z) :
  is_high c = true -> is_low d = true -> Analyze.isCJK [c; d] = false.
Proof.
  unfold Analyze.isCJK, Analyze.codePointAt0, in_cjk, is_high, is_low.
  intros H Hd. apply andb_true_iff in H. destruct H as [H1 H2].
  apply andb_true_iff in Hd. destruct Hd as [H3 H4].
  apply Z.leb_le in H1, H2, H3, H4. apply andb_false_iff.
  right. apply Z.leb_gt. lia.
Qed.

Lemma collect_fold (items : list JsStr) (acc : JsSet) (x : JsStr) :
  In x (fold_left (fun set ch => if Analyze.isCJK ch then set_add ch set
                                 else set) items acc) <->
  In x acc \/ (In x items /\ Analyze.isCJK x = true).
Proof.
  revert acc. induction items as [|it items IH]; intros acc; simpl.
  - tauto.
  - rewrite IH. destruct (Analyze.isCJK it) eqn:E.
    + rewrite set_add_In. split.
      * intros [[->|H]|H]; auto. tauto.
      * intros [H|[[->|H] Hc]]; auto.
    + split.
      * intros [H|H]; auto. tauto.
      * intros [H|[[->|H] Hc]]; auto. congruence.
Qed.

Lemma collect_fold_NoDup (items : list JsStr) (acc : JsSet) :
  NoDup acc ->
  NoDup (fold_left (fun set ch => if Analyze.isCJK ch then set_add ch set
                                  else set) items acc).
Proof.
  revert acc. induction items as [|it items IH]; intros acc H; simpl.
  - exact H.
  - apply IH. destruct (Analyze.isCJK it); [now apply set_add_NoDup | exact H].
Qed.

Lemma collect_spec (content : JsStr) :
  NoDup (Analyze.collect content)
  /\ forall x, In x (Analyze.collect content) <->
               exists c, x = [c] /\ in_cjk c = true /\ In c content.
Proof.
  unfold Analyze.collect. split.
  - apply collect_fold_NoDup. constructor.
  - intros x. rewrite collect_fold. split.
    + intros [[]|[Hx Hc]]. apply code_points_items in Hx.
      destruct Hx as [[c [-> Hin]]|[c [d [-> [Hh Hl]]]]].
      * exists c. auto.
      * rewrite pair_not_cjk in Hc by assumption. discriminate.
    + intros [c [-> [Hc Hin]]]. right. split; [|exact Hc].
      destruct (cjk_not_surrogate c Hc). now apply code_points_unit.
Qed.

(** The analyzer's set holds exactly the code units of the text that lie
    in the basic block, each once; a character outside the Basic
    Multilingual Plane is never among them. *)
Theorem analyzer_set_is_block_units :
  forall (content : JsStr),
    NoDup (Analyze.collect content)
    /\ forall x, In x (Analyze.collect content) <->
                 exists c, x = [c] /\ in_cjk c = true /\ In c content.
Proof. exact collect_spec. Qed.

(** ** The histogram *)

Section Histogram.
Variable cn_stroke : JsStr -> Outcome JsVal.
Variable cn_order : JsStr -> Outcome JsVal.

Local Abbreviation strokeOfA := (Analyze.strokeOf cn_stroke cn_order).
Local Abbreviation tally_step := (Analyze.tally_step cn_stroke cn_order).

Lemma dist_set_total (s : JsNum) (d : Analyze.Dist) :
  dist_total (Analyze.dist_set s (dist_count s d + 1) d) = dist_total d + 1.
Proof.
  unfold dist_count. induction d as [|[k v] d IH]; simpl.
  - lia.
  - destruct (num_eqb s k); simpl; lia.
Qed.

Lemma dist_set_count (s s' : JsNum) (v : Z) (d : Analyze.Dist) :
  dist_count s' (Analyze.dist_set s v d) =
  if num_eqb s' s then v else dist_count s' d.
Proof.
  unfold dist_count. induction d as [|[k w] d IH]; simpl.
  - destruct (num_eqb s' s); reflexivity.
  - destruct (num_eqb s k) eqn:E; simpl.
    + apply num_eqb_eq in E. subst k. destruct (num_eqb s' s); reflexivity.
    + destruct (num_eqb s' k) eqn:E'.
      * apply num_eqb_eq in E'. subst k.
        destruct (num_eqb s' s) eqn:E2; [|reflexivity].
        apply num_eqb_eq in E2. subst s'. rewrite num_eqb_refl in E.
        discriminate.
      * exact IH.
Qed.

Lemma tally_step_known (d : Analyze.Dist) (u : Z) (ch : JsStr) (s : JsNum) :
  strokeOfA ch = Some s ->
  tally_step (d, u) ch = (Analyze.dist_set s (dist_count s d + 1) d, u).
Proof.
  intros H. unfold Analyze.tally_step, dist_count. rewrite H.
  destruct (Analyze.dist_get s d) as [v|]; [|reflexivity].
  destruct (Z.eqb_spec v 0) as [->|]; reflexivity.
Qed.

Lemma tally_step_unknown (d : Analyze.Dist) (u : Z) (ch : JsStr) :
  strokeOfA ch = None -> tally_step (d, u) ch = (d, u + 1).
Proof. intros H. unfold Analyze.tally_step. now rewrite H. Qed.

Lemma tally_fold_total (l : list JsStr) (d : Analyze.Dist) (u : Z) :
  dist_total (fst (fold_left tally_step l (d, u))) +
  snd (fold_left tally_step l (d, u)) =
  dist_total d + u + Z.of_nat (length l).
Proof.
  revert d u. induction l as [|ch l IH]; intros d u.
  - simpl. lia.
  - change (fold_left tally_step (ch :: l) (d, u))
      with (fold_left tally_step l (tally_step (d, u) ch)).
    destruct (strokeOfA ch) as [s|] eqn:E.
    + rewrite (tally_step_known d u ch s E), IH, dist_set_total.
      simpl length. lia.
    + rewrite (tally_step_unknown d u ch E), IH. simpl length. lia.
Qed.

Lemma tally_fold_count (s : JsNum) (l : list JsStr) (d : Analyze.Dist)
  (u : Z) :
  dist_count s (fst (fold_left tally_step l (d, u))) =
  dist_count s d +
  Z.of_nat (length (filter (fun c => stroke_is (strokeOfA c) s) l)).
Proof.
  revert d u. induction l as [|ch l IH]; intros d u.
  - simpl. lia.
  - change (fold_left tally_step (ch :: l) (d, u))
      with (fold_left tally_step l (tally_step (d, u) ch)).
    cbn [filter]. destruct (strokeOfA ch) as [k|] eqn:E.
    + rewrite (tally_step_known d u ch k E), IH, dist_set_count.
      unfold stroke_is at 2. rewrite (num_eqb_sym_local k s).
      destruct (num_eqb s k) eqn:Ek.
      * apply num_eqb_eq in Ek. subst k. simpl length. lia.
      * lia.
    + rewrite (tally_step_unknown d u ch E), IH. reflexivity.
Qed.
End Histogram.

Lemma dist_total_perm (d d' : Analyze.Dist) :
  Permutation d d' -> dist_total d = dist_total d'.
Proof.
  intros H. induction H as [|e d d' H IH|e e' d|d d' d'' H IH H' IH'];
    simpl; lia.
Qed.

(** Every character of the analyzer's set is counted once: the counts of
    the histogram and the unknown tally add up to the size of the set,
    in the tally and in the report. *)
Theorem histogram_accounts_for_all :
  forall (cn_stroke cn_order : JsStr -> Outcome JsVal) (set : JsSet)
         (content : JsStr),
    dist_total (fst (Analyze.tally cn_stroke cn_order set)) +
    snd (Analyze.tally cn_stroke cn_order set) = set_size set
    /\ exists r,
         Analyze.main cn_stroke cn_order (Some content) = Some r
         /\ dist_total (Analyze.distribution r) +
            match Analyze.unknownShown r with
            | Some u => u
            | None => 0
            end = Analyze.total r.
Proof.
  intros cn_stroke cn_order set content.
  assert (H : forall s,
             dist_total (fst (Analyze.tally cn_stroke cn_order s)) +
             snd (Analyze.tally cn_stroke cn_order s) = set_size s).
  { intros s. unfold Analyze.tally. rewrite tally_fold_total.
    unfold set_size. simpl. lia. }
  split; [apply H|]. eexists. split; [reflexivity|].
  cbn [Analyze.distribution Analyze.unknownShown Analyze.total].
  specialize (H (Analyze.collect content)).
  assert (Hu : 0 <= snd (Analyze.tally cn_stroke cn_order
                           (Analyze.collect content))).
  { unfold Analyze.tally. rewrite tally_unknown_count. lia. }
  unfold Analyze.distribution_line.
  destruct (Analyze.tally cn_stroke cn_order (Analyze.collect content))
    as [d u]. cbn [fst snd] in *.
  rewrite (dist_total_perm _ d) by apply js_sort_perm.
  destruct (Z.ltb_spec 0 u); lia.
Qed.

(** The count the histogram keeps under a stroke count is the number of
    characters of the set that the analyzer classifies with it. *)
Theorem histogram_counts_by_stroke :
  forall (cn_stroke cn_order : JsStr -> Outcome JsVal) (set : JsSet)
         (s : JsNum),
    dist_count s (fst (Analyze.tally cn_stroke cn_order set)) =
    Z.of_nat (length (filter
      (fun c => stroke_is (Analyze.strokeOf cn_stroke cn_order c) s) set)).
Proof.
  intros cn_stroke cn_order set s. unfold Analyze.tally.
  rewrite tally_fold_count. reflexivity.
Qed.

(** ** The analyzer's classification *)

(** The analyzer classifies only with whole numbers above zero. *)
Theorem analyzer_stroke_positive :
  forall (cn_stroke cn_order : JsStr -> Outcome JsVal) (ch : JsStr)
         (n : JsNum),
    Analyze.strokeOf cn_stroke cn_order ch = Some n ->
    exists z, n = Fin z /\ 0 < z.
Proof.
  intros cn_stroke cn_order ch n. unfold Analyze.strokeOf.
  destruct (Analyze.direct cn_stroke ch) as [s|] eqn:Ed.
  - intros H. injection H as <-. unfold Analyze.direct in Ed.
    destruct (cn_stroke ch) as [[| |b|x|t|l]|]; try discriminate.
    destruct (num_finite x && num_pos x) eqn:E; [|discriminate].
    injection Ed as <-. apply andb_true_iff in E. destruct E as [E1 E2].
    destruct x as [z| | |]; try discriminate. exists z.
    split; [reflexivity | now apply Z.ltb_lt].
  - unfold Analyze.fallback.
    destruct (cn_order ch) as [order|]; [|discriminate].
    destruct order as [| |b|x|t|[|v l]]; try discriminate.
    simpl. intros H. injection H as <-. eexists. split; [reflexivity|].
    simpl length. lia.
Qed.

Lemma analyzer_stroke_positive_witness :
  exists z, Fin 1 = Fin z /\ 0 < z.
Proof.
  apply (analyzer_stroke_positive demo_stroke demo_order [19969] (Fin 1)).
  vm_compute. reflexivity.
Defined.

(** The two classifications agree where the fallback is not reached: on
    a direct count that is a whole number above zero both return it, and
    where the direct query and the fallback both fail both return
    nothing. *)
Theorem classifications_agree_off_fallback :
  forall (cn_stroke cn_order : JsStr -> Outcome JsVal) (ch : JsStr),
    (forall z,
        cn_stroke ch = Ret (VNum (Fin z)) -> 0 < z ->
        Extend.strokeOf cn_stroke cn_order ch = Some (Fin z) /\
        Analyze.strokeOf cn_stroke cn_order ch = Some (Fin z))
    /\ (direct_fails cn_stroke ch -> fallback_fails cn_order ch ->
        Extend.strokeOf cn_stroke cn_order ch = None /\
        Analyze.strokeOf cn_stroke cn_order ch = None).
Proof.
  intros cn_stroke cn_order ch. split.
  - intros z. apply strokeOf_agree_on_direct.
  - intros Hd Hf. split;
      [now apply both_fail_extend | now apply both_fail_analyze].
Qed.

Lemma classifications_agree_off_fallback_witness :
  Extend.strokeOf demo_stroke demo_order [20108] = Some (Fin 2) /\
  Analyze.strokeOf demo_stroke demo_order [20108] = Some (Fin 2).
Proof.
  destruct (classifications_agree_off_fallback demo_stroke demo_order [20108])
    as [H _].
  apply (H 2); [vm_compute; reflexivity | lia].
Defined.

(** ** The analyzer reads what the pipeline writes *)

Lemma split_lines_units (s cur l : JsStr) (c : Z) :
  In l (split_lines_from cur s) -> In c l -> In c cur \/ In c s.
Proof.
  assert (H : forall n s cur, (length s <= n)%nat ->
            In l (split_lines_from cur s) -> In c l -> In c cur \/ In c s).
  { induction n as [|n IH]; intros s0 cur0 Hlen Hl Hc.
    - destruct s0; [|simpl in Hlen; lia]. destruct Hl as [<-|[]]. now left.
    - destruct s0 as [|a s0]; [destruct Hl as [<-|[]]; now left|].
      cbn [split_lines_from] in Hl. simpl in Hlen.
      assert (Hstep : In l (split_lines_from (cur0 ++ [a]) s0) ->
                      In c cur0 \/ In c (a :: s0)).
      { intros H1.
        destruct (IH s0 (cur0 ++ [a]) ltac:(lia) H1 Hc) as [H2|H2];
          [|simpl; auto].
        apply in_app_or in H2. destruct H2 as [H2|[<-|[]]]; simpl; auto. }
      destruct (a =? LF).
      + destruct Hl as [<-|Hl]; [now left|].
        destruct (IH s0 [] ltac:(lia) Hl Hc) as [[]|H2]. simpl. auto.
      + destruct s0 as [|b s0]; [now apply Hstep|].
        destruct ((a =? CR) && (b =? LF)); [|now apply Hstep].
        destruct Hl as [<-|Hl]; [now left|].
        destruct (IH s0 [] ltac:(simpl in Hlen; lia) Hl Hc) as [[]|H2].
        simpl. auto. }
  apply (H (length s)). lia.
Qed.

(** A character of the basic block that the pipeline has in a bucket of
    a whole stroke count is in the set the analyzer builds from the
    formatted document. *)
Theorem analyzer_sees_bucketed :
  forall (cn_stroke cn_order : JsStr -> Outcome JsVal)
         (localeCompare : JsStr -> JsStr -> JsNum) (raw : JsStr)
         (chars : list JsStr) (z c : Z),
    Forall clean_char chars ->
    In [c] (map_get (Fin z) (Extend.groupByStroke cn_stroke cn_order chars)) ->
    in_cjk c = true ->
    In [c] (Analyze.collect
              (Extend.formatOutput localeCompare raw
                 (Extend.groupByStroke cn_stroke cn_order chars))).
Proof.
  intros cn_stroke cn_order localeCompare raw chars z c Hclean Hin Hc.
  set (m := Extend.groupByStroke cn_stroke cn_order chars) in *.
  assert (Hkey : key_of cn_stroke cn_order [c] = Some (Fin z)).
  { unfold m in Hin. now apply group_bucket_In in Hin. }
  assert (Hz : 0 < z).
  { apply key_of_pos in Hkey. simpl in Hkey. now apply Z.ltb_lt. }
  assert (Hcs : Forall clean_char
                  (Extend.sorted_bucket localeCompare m (Fin z))).
  { apply Forall_forall. intros x Hx. apply js_sort_In in Hx.
    unfold m in Hx. apply group_bucket_In in Hx.
    rewrite Forall_forall in Hclean. apply Hclean. tauto. }
  assert (Hch : In [c] (Extend.sorted_bucket localeCompare m (Fin z)))
    by now apply js_sort_In.
  assert (Hne : Extend.sorted_bucket localeCompare m (Fin z) <> [])
    by (intros E; rewrite E in Hch; contradiction).
  assert (Hline : In (nat_to_string z ++ [HUA; TAB] ++
                      join [SPACE] (Extend.sorted_bucket localeCompare m (Fin z)))
                     (split_lines (Extend.formatOutput localeCompare raw m))).
  { apply format_has_line; try assumption; [lia|].
    now apply map_get_keys in Hin. }
  assert (Hj : In c (join [SPACE] (Extend.sorted_bucket localeCompare m (Fin z)))).
  { clear - Hch. induction (Extend.sorted_bucket localeCompare m (Fin z))
      as [|x l IH]; [contradiction|].
    destruct l as [|y l].
    - destruct Hch as [->|[]]. now left.
    - change (join [SPACE] (x :: y :: l))
        with (x ++ [SPACE] ++ join [SPACE] (y :: l)).
      destruct Hch as [->|Hch]; [now left|].
      apply in_or_app. right. apply in_or_app. right. now apply IH. }
  unfold split_lines in Hline.
  destruct (split_lines_units _ [] _ c Hline) as [[]|Hout].
  { apply in_or_app. right. apply in_or_app. now right. }
  destruct (collect_spec
              (Extend.formatOutput localeCompare raw m)) as [_ H].
  apply H. exists c. auto.
Qed.

Lemma analyzer_sees_bucketed_witness :
  In [20108]
    (Analyze.collect
       (Extend.formatOutput unit_compare [65; 10]
          (Extend.groupByStroke demo_stroke demo_order demo_union))).
Proof.
  assert (Hclean : Forall clean_char demo_union).
  { unfold demo_union.
    repeat (constructor; [eexists; split; reflexivity|]). constructor. }
  assert (Hin : In [20108]
                  (map_get (Fin 2)
                     (Extend.groupByStroke demo_stroke demo_order demo_union)))
    by (vm_compute; auto).
  exact (analyzer_sees_bucketed demo_stroke demo_order unit_compare [65; 10]
           demo_union 2 20108 Hclean Hin eq_refl).
Defined.

(** * The command line *)

Section ArgsFacts.
Variable ROOT : JsStr.
Variable path_resolve : JsStr -> JsStr -> JsStr.

Local Abbreviation parse_loop := (Cli.parse_loop ROOT path_resolve).

Lemma set_limit_nonzero (out : Cli.Options) (v : JsStr) :
  Cli.limit out <> 0 -> Cli.limit (Cli.set_limit out v) <> 0.
Proof.
  intros H. unfold Cli.set_limit. destruct (parseInt10 v) as [z| | |]; auto.
  destruct (Z.eqb_spec z 0); auto.
Qed.

Lemma parse_loop_limit (n : nat) :
  forall (args : list JsStr) (out out' : Cli.Options),
    (length args <= n)%nat ->
    Cli.limit out <> 0 -> parse_loop args out = Ret out' ->
    Cli.limit out' <> 0.
Proof.
  induction n as [|n IH]; intros args out out' Hlen H0 H.
  - destruct args; [|simpl in Hlen; lia]. simpl in H. injection H as <-.
    exact H0.
  - destruct args as [|a rest]; [simpl in H; injection H as <-; exact H0|].
    simpl in Hlen. cbn [Cli.parse_loop] in H.
    destruct (str_eqb a Cli.FLAG_LIMIT).
    { destruct rest as [|v rest'].
      - injection H as <-. now apply set_limit_nonzero.
      - apply (IH rest' (Cli.set_limit out v)); auto;
          [simpl in Hlen; lia | now apply set_limit_nonzero]. }
    destruct (str_eqb a Cli.FLAG_OUT).
    { destruct rest as [|v rest']; [discriminate|].
      eapply (IH rest'); [simpl in Hlen; lia| |exact H]. exact H0. }
    destruct (str_eqb a Cli.FLAG_PREVIEW).
    { eapply (IH rest); [lia| |exact H]. exact H0. }
    destruct (str_eqb a Cli.FLAG_FONTDIR).
    { destruct rest as [|v rest']; [discriminate|].
      eapply (IH rest'); [simpl in Hlen; lia| |exact H]. exact H0. }
    destruct (str_eqb a Cli.FLAG_INCLUDE).
    { destruct rest as [|v rest']; [discriminate|].
      eapply (IH rest'); [simpl in Hlen; lia| |exact H]. exact H0. }
    eapply (IH rest); [lia| |exact H]. exact H0.
Qed.

Lemma parse_loop_no_paths (n : nat) :
  forall (args : list JsStr) (out : Cli.Options),
    (length args <= n)%nat ->
    forallb (fun a => negb (Cli.path_flag a)) args = true ->
    exists out',
      parse_loop args out = Ret out'
      /\ Cli.outPath out' = Cli.outPath out
      /\ Cli.fontDir out' = Cli.fontDir out
      /\ Cli.includeFiles out' = Cli.includeFiles out.
Proof.
  induction n as [|n IH]; intros args out Hlen Hp.
  - destruct args; [|simpl in Hlen; lia]. exists out. simpl. auto.
  - destruct args as [|a rest]; [exists out; simpl; auto|].
    simpl in Hlen. cbn [forallb] in Hp. apply andb_true_iff in Hp.
    destruct Hp as [Ha Hrest]. unfold Cli.path_flag in Ha.
    apply negb_true_iff in Ha. apply orb_false_iff in Ha.
    destruct Ha as [Ha E3]. apply orb_false_iff in Ha. destruct Ha as [E1 E2].
    cbn [Cli.parse_loop]. rewrite E1, E2, E3.
    assert (Hset : forall v,
               Cli.outPath (Cli.set_limit out v) = Cli.outPath out /\
               Cli.fontDir (Cli.set_limit out v) = Cli.fontDir out /\
               Cli.includeFiles (Cli.set_limit out v) = Cli.includeFiles out).
    { intros v. unfold Cli.set_limit. destruct (parseInt10 v); auto.
      destruct (z =? 0); auto. }
    destruct (str_eqb a Cli.FLAG_LIMIT).
    { destruct rest as [|v rest'].
      - eexists. split; [reflexivity | apply Hset].
      - cbn [forallb] in Hrest. apply andb_true_iff in Hrest.
        destruct (IH rest' (Cli.set_limit out v)) as [o [E [H1 [H2 H3]]]];
          [simpl in Hlen; lia | tauto|].
        exists o. destruct (Hset v) as [G1 [G2 G3]].
        repeat split; congruence. }
    destruct (str_eqb a Cli.FLAG_PREVIEW).
    { destruct (IH rest {| Cli.limit := Cli.limit out;
                           Cli.outPath := Cli.outPath out;
                           Cli.preview := true;
                           Cli.fontDir := Cli.fontDir out;
                           Cli.includeFiles := Cli.includeFiles out |})
        as [o [E H]]; [lia | exact Hrest|].
      exists o. split; [exact E | exact H]. }
    apply IH; [lia | exact Hrest].
Qed.
End ArgsFacts.

(** The limit [parseArgs] returns is never 0. [--limit] followed by a
    value that parses to 0 or to no number, or by nothing, leaves the
    limit as it was, which is 5800 unless an earlier [--limit] set it; a
    value that parses to another integer becomes the limit. So
    [--limit 0] runs with 5800. *)
Theorem parsed_limit_never_zero :
  forall (ROOT : JsStr) (path_join path_resolve : JsStr -> JsStr -> JsStr),
    (forall args out,
        Cli.parseArgs ROOT path_join path_resolve args = Ret out ->
        Cli.limit out <> 0)
    /\ (forall v rest out,
          parseInt10 v = Fin 0 \/ parseInt10 v = NaN ->
          Cli.parse_loop ROOT path_resolve (Cli.FLAG_LIMIT :: v :: rest) out =
          Cli.parse_loop ROOT path_resolve rest out)
    /\ (forall out,
          Cli.parse_loop ROOT path_resolve [Cli.FLAG_LIMIT] out = Ret out)
    /\ (forall v z rest out,
          parseInt10 v = Fin z -> z <> 0 ->
          Cli.parse_loop ROOT path_resolve (Cli.FLAG_LIMIT :: v :: rest) out =
          Cli.parse_loop ROOT path_resolve rest
            {| Cli.limit := z; Cli.outPath := Cli.outPath out;
               Cli.preview := Cli.preview out; Cli.fontDir := Cli.fontDir out;
               Cli.includeFiles := Cli.includeFiles out |})
    /\ Cli.limit (Cli.defaults ROOT path_join) = 5800
    /\ Cli.parseArgs ROOT path_join path_resolve [Cli.FLAG_LIMIT; [48]] =
         Ret (Cli.defaults ROOT path_join)
    /\ Cli.parseArgs ROOT path_join path_resolve [Cli.FLAG_LIMIT] =
         Ret (Cli.defaults ROOT path_join).
Proof.
  intros ROOT path_join path_resolve.
  split; [|split; [|split; [|split; [|split; [|split]]]]].
  - intros args out H.
    apply (parse_loop_limit ROOT path_resolve (length args) args
             (Cli.defaults ROOT path_join) out); [lia|discriminate|exact H].
  - intros v rest out H.
    change (Cli.parse_loop ROOT path_resolve (Cli.FLAG_LIMIT :: v :: rest) out)
      with (Cli.parse_loop ROOT path_resolve rest (Cli.set_limit out v)).
    unfold Cli.set_limit. destruct H as [H|H]; rewrite H; reflexivity.
  - intros out. reflexivity.
  - intros v z rest out H Hz.
    change (Cli.parse_loop ROOT path_resolve (Cli.FLAG_LIMIT :: v :: rest) out)
      with (Cli.parse_loop ROOT path_resolve rest (Cli.set_limit out v)).
    unfold Cli.set_limit. rewrite H.
    apply Z.eqb_neq in Hz. rewrite Hz. reflexivity.
  - reflexivity.
  - reflexivity.
  - reflexivity.
Qed.

Lemma parsed_limit_never_zero_witness :
  exists out,
    Cli.parseArgs [114] slash_join slash_join
      [Cli.FLAG_LIMIT; [48]; Cli.FLAG_PREVIEW] = Ret out
    /\ Cli.limit out = 5800
    /\ Cli.limit out <> 0.
Proof.
  assert (E : exists out,
             Cli.parseArgs [114] slash_join slash_join
               [Cli.FLAG_LIMIT; [48]; Cli.FLAG_PREVIEW] = Ret out
             /\ Cli.limit out = 5800)
    by (vm_compute; eexists; split; reflexivity).
  destruct E as [out [E H]]. exists out. split; [exact E|].
  split; [exact H|].
  destruct (parsed_limit_never_zero [114] slash_join slash_join) as [G _].
  exact (G _ out E).
Defined.

(** Without one of the three options that take a path, [parseArgs]
    returns, and the output path, the font directory and the include
    files are the defaults. *)
Theorem args_without_paths_keep_defaults :
  forall (ROOT : JsStr) (path_join path_resolve : JsStr -> JsStr -> JsStr)
         (args : list JsStr),
    forallb (fun a => negb (Cli.path_flag a)) args = true ->
    exists out,
      Cli.parseArgs ROOT path_join path_resolve args = Ret out
      /\ Cli.outPath out = Cli.outPath (Cli.defaults ROOT path_join)
      /\ Cli.fontDir out = Cli.fontDir (Cli.defaults ROOT path_join)
      /\ Cli.includeFiles out = [].
Proof.
  intros ROOT path_join path_resolve args H.
  destruct (parse_loop_no_paths ROOT path_resolve (length args) args
              (Cli.defaults ROOT path_join)) as [out [E [H1 [H2 H3]]]];
    [lia | exact H|].
  exists out. auto.
Qed.

Lemma args_without_paths_keep_defaults_witness :
  exists out,
    Cli.parseArgs [114] slash_join slash_join
      [Cli.FLAG_LIMIT; [45; 53]; Cli.FLAG_PREVIEW] = Ret out
    /\ Cli.outPath out = Cli.outPath (Cli.defaults [114] slash_join)
    /\ Cli.fontDir out = Cli.fontDir (Cli.defaults [114] slash_join)
    /\ Cli.includeFiles out = [].
Proof.
  apply (args_without_paths_keep_defaults [114] slash_join slash_join).
  vm_compute. reflexivity.
Defined.

(** * What the loader accepts *)

Lemma span_split (p : Z -> bool) (s a b : JsStr) :
  span p s = (a, b) ->
  s = a ++ b /\ forallb p a = true /\
  match b with [] => True | c :: _ => p c = false end.
Proof.
  revert a b. induction s as [|c s IH]; intros a b H; simpl in H.
  - injection H as <- <-. auto.
  - destruct (p c) eqn:E.
    + destruct (span p s) as [a0 b0]. injection H as <- <-.
      destruct (IH a0 b0 eq_refl) as [H1 [H2 H3]]. subst s.
      simpl. rewrite E, H2. auto.
    + injection H as <- <-. simpl. auto.
Qed.

Lemma after_digits_sound (s m2 : JsStr) :
  after_digits s = Some m2 ->
  exists mid, s = mid ++ TAB :: m2 /\ forallb is_hua_ws mid = true
              /\ dot_plus_end m2 = true.
Proof.
  revert m2. induction s as [|c s IH]; intros m2 H; [discriminate|].
  simpl in H.
  destruct (if is_hua_ws c then after_digits s else None) as [body|] eqn:E.
  - injection H as <-. destruct (is_hua_ws c) eqn:Ec; [|discriminate].
    destruct (IH body E) as [mid [H1 [H2 H3]]].
    exists (c :: mid). simpl. rewrite Ec, H2. subst s. auto.
  - destruct ((c =? TAB) && dot_plus_end s) eqn:Et; [|discriminate].
    injection H as <-. apply andb_true_iff in Et. destruct Et as [Et Hd].
    apply Z.eqb_eq in Et. subst c. exists []. auto.
Qed.

Lemma after_digits_complete (mid m2 : JsStr) :
  forallb is_hua_ws mid = true -> dot_plus_end m2 = true ->
  exists m2', after_digits (mid ++ TAB :: m2) = Some m2'.
Proof.
  intros Hmid Hd. induction mid as [|c mid IH].
  - cbn [app after_digits]. change (is_hua_ws TAB) with true. cbv iota.
    destruct (after_digits m2) as [body|]; [eauto|].
    change (TAB =? TAB) with true. cbn [andb]. rewrite Hd. eauto.
  - cbn [forallb] in Hmid. apply andb_true_iff in Hmid.
    destruct Hmid as [Hc Hmid]. destruct (IH Hmid) as [body E].
    cbn [app after_digits]. rewrite Hc, E. eauto.
Qed.

(** The loader takes a line exactly when it is digits, then 画 and white
    space in any number, then a tab, then a text that is not empty and
    has no line terminator; what it reads its characters from is such a
    text after such a tab. *)
Theorem loader_accepts_pattern :
  forall line : JsStr,
    (forall m2,
        match_line line = Some m2 ->
        exists ds mid,
          line = ds ++ mid ++ TAB :: m2 /\ ds <> []
          /\ forallb is_digit ds = true /\ forallb is_hua_ws mid = true
          /\ dot_plus_end m2 = true)
    /\ (forall ds mid m2,
          line = ds ++ mid ++ TAB :: m2 -> ds <> [] ->
          forallb is_digit ds = true -> forallb is_hua_ws mid = true ->
          dot_plus_end m2 = true ->
          exists m2', match_line line = Some m2')
    /\ (match_line line = None ->
        forall acc, Extend.parse_line acc line = acc).
Proof.
  intros line. split; [|split].
  - intros m2 H. unfold match_line in H.
    destruct (span is_digit line) as [ds r] eqn:Es.
    destruct (span_split _ _ _ _ Es) as [H1 [H2 _]].
    destruct ds as [|d ds]; [discriminate|]. cbn [is_nil] in H.
    destruct (after_digits_sound _ _ H) as [mid [H3 [H4 H5]]].
    exists (d :: ds), mid. subst r. split; [exact H1|].
    split; [discriminate | auto].
  - intros ds mid m2 -> Hne Hd Hmid Hm2. unfold match_line.
    rewrite span_digits; [|exact Hd|].
    + destruct ds; [contradiction|]. cbn [is_nil].
      now apply after_digits_complete.
    + destruct mid as [|c mid]; [reflexivity|].
      cbn [app forallb] in *. apply andb_true_iff in Hmid.
      destruct Hmid as [Hc _]. unfold is_hua_ws in Hc.
      apply orb_true_iff in Hc. destruct Hc as [Hc|Hc].
      * apply Z.eqb_eq in Hc. subst c. reflexivity.
      * destruct (is_digit c) eqn:E; [|reflexivity].
        apply digit_not_ws in E. congruence.
  - intros H acc. unfold Extend.parse_line. now rewrite H.
Qed.

(** * The written document, read back *)

Lemma pick_chars_subset (limit : Z) (list : list JsStr) (picked : JsSet)
  (x : JsStr) :
  In x (Extend.pick_chars limit picked list) -> In x picked \/ In x list.
Proof.
  revert picked. induction list as [|ch rest IH]; intros picked; simpl.
  - auto.
  - destruct (limit <=? set_size picked); [auto|].
    intros H. apply IH in H. destruct H as [H|H]; [|auto].
    apply set_add_In in H. destruct H as [->|H]; auto.
Qed.

Lemma pick_keys_subset (localeCompare : JsStr -> JsStr -> JsNum)
  (limit : Z) (m : StrokeMap) (keys : list JsNum) (picked : JsSet)
  (x : JsStr) :
  In x (Extend.pick_keys localeCompare limit m picked keys) ->
  In x picked \/ exists k, In x (map_get k m).
Proof.
  revert picked. induction keys as [|k rest IH]; intros picked; simpl.
  - auto.
  - assert (Hc : forall y,
               In y (Extend.pick_chars limit picked
                       (Extend.sorted_bucket localeCompare m k)) ->
               In y picked \/ exists k, In y (map_get k m)).
    { intros y Hy. apply pick_chars_subset in Hy. destruct Hy as [Hy|Hy]; auto.
      right. exists k. now apply js_sort_In in Hy. }
    destruct (limit <=? set_size _); [apply Hc|].
    intros H. apply IH in H. destruct H as [H|H]; auto.
Qed.

Lemma reparse_bucket (cn_stroke cn_order : JsStr -> Outcome JsVal)
  (localeCompare : JsStr -> JsStr -> JsNum) (raw : JsStr)
  (chars : list JsStr) (z : Z) (ch : JsStr) :
  Forall clean_char chars ->
  In ch (map_get (Fin z) (Extend.groupByStroke cn_stroke cn_order chars)) ->
  In ch (Extend.parseExistingChars
           (Extend.formatOutput localeCompare raw
              (Extend.groupByStroke cn_stroke cn_order chars))).
Proof.
  intros Hclean Hin.
  set (m := Extend.groupByStroke cn_stroke cn_order chars) in *.
  assert (Hkey : key_of cn_stroke cn_order ch = Some (Fin z))
    by (unfold m in Hin; now apply group_bucket_In in Hin).
  assert (Hz : 0 < z)
    by (apply key_of_pos in Hkey; simpl in Hkey; now apply Z.ltb_lt).
  assert (Hcs : Forall clean_char
                  (Extend.sorted_bucket localeCompare m (Fin z))).
  { apply Forall_forall. intros x Hx. apply js_sort_In in Hx.
    unfold m in Hx. apply group_bucket_In in Hx.
    rewrite Forall_forall in Hclean. apply Hclean. tauto. }
  assert (Hch : In ch (Extend.sorted_bucket localeCompare m (Fin z)))
    by now apply js_sort_In.
  assert (Hne : Extend.sorted_bucket localeCompare m (Fin z) <> [])
    by (intros E; rewrite E in Hch; contradiction).
  unfold Extend.parseExistingChars.
  apply (parse_fold_line _ _
           (nat_to_string z ++ [HUA; TAB] ++
            join [SPACE] (Extend.sorted_bucket localeCompare m (Fin z)))
           (join [SPACE] (Extend.sorted_bucket localeCompare m (Fin z)))).
  - apply format_has_line; try assumption; [lia|].
    now apply map_get_keys in Hin.
  - now apply join_clean_match.
  - now rewrite join_clean_tokens.
  - rewrite Forall_forall in Hcs. destruct (Hcs ch Hch) as [c [-> _]].
    reflexivity.
Qed.

(** Whatever a run writes can be read back: every character of a bucket
    of a whole stroke count of the final map is in what the loader reads
    from the written document. *)
Theorem written_document_reparses :
  forall (cn_stroke cn_order : JsStr -> Outcome JsVal)
         (localeCompare : JsStr -> JsStr -> JsNum)
         (has_font_ext : JsStr -> bool) (path_join : JsStr -> JsStr -> JsStr)
         (i : Extend.Inputs) (run : Extend.Run) (doc : JsStr) (z : Z)
         (ch : JsStr),
    Extend.main cn_stroke cn_order localeCompare has_font_ext path_join i =
      Some run ->
    Extend.written run = Some doc ->
    In ch (map_get (Fin z) (Extend.finalMap run)) ->
    In ch (Extend.parseExistingChars doc).
Proof.
  intros cn_stroke cn_order localeCompare has_font_ext path_join i run doc z
    ch Hmain Hdoc Hin.
  unfold Extend.main, Extend.readContent in Hmain.
  destruct (Extend.contentReadable i);
    [|injection Hmain as <-; discriminate Hdoc].
  destruct (Extend.union_of has_font_ext path_join i) as [[union log]|] eqn:Eu;
    [|discriminate].
  assert (Hclean : Forall clean_char union).
  { unfold Extend.union_of in Eu.
    pose proof (merge_sources_clean (Extend.content i) (Extend.includeFiles i))
      as Hc.
    fold (Extend.union_before_fonts i) in Hc.
    destruct (Extend.union_before_fonts i) as [u l]. simpl in Hc.
    destruct (Extend.extractCharsFromFonts has_font_ext path_join
                (Extend.fontDir i) (Extend.fontRoot i))
      as [[[extra|] flog]|] eqn:E; [| |discriminate].
    - injection Eu as <- _. apply set_add_all_Forall; [exact Hc|].
      apply extract_chars in E. tauto.
    - injection Eu as <- _. exact Hc. }
  assert (Hsel : exists chars,
             Forall clean_char chars /\
             Extend.select cn_stroke cn_order localeCompare (Extend.limit i)
               (Extend.groupByStroke cn_stroke cn_order union) =
             Extend.groupByStroke cn_stroke cn_order chars).
  { unfold Extend.select.
    destruct (Extend.limit i <? _); [|exists union; auto].
    eexists. split; [|reflexivity]. apply Forall_forall. intros x Hx.
    unfold Extend.picked_of in Hx. apply pick_keys_subset in Hx.
    destruct Hx as [[]|[k Hx]]. apply group_bucket_In in Hx.
    rewrite Forall_forall in Hclean. apply Hclean. tauto. }
  destruct Hsel as [chars [Hcc Hsel]].
  destruct (Extend.preview i).
  - injection Hmain as <-. discriminate.
  - destruct (Extend.outWritable i);
      [|injection Hmain as <-; discriminate Hdoc].
    injection Hmain as <-. cbn [Extend.written Extend.finalMap] in *.
    injection Hdoc as <-. rewrite Hsel in *. now apply (reparse_bucket _ _ _ _ _ z).
Qed.

Lemma written_document_reparses_witness :
  In [19977] (Extend.parseExistingChars
                [49; HUA; TAB; 19968; 10; 50; HUA; TAB; 20108; 10;
                 51; HUA; TAB; 19977; 10]).
Proof.
  assert (E : exists run,
             Extend.main demo_stroke demo_order unit_compare ttf_ext
               slash_join demo_inputs = Some run
             /\ Extend.written run =
                  Some [49; HUA; TAB; 19968; 10; 50; HUA; TAB; 20108; 10;
                        51; HUA; TAB; 19977; 10]
             /\ In [19977] (map_get (Fin 3) (Extend.finalMap run))).
  { eexists. split; [vm_compute; reflexivity|].
    split; [vm_compute; reflexivity | vm_compute; auto]. }
  destruct E as [run [H1 [H2 H3]]].
  exact (written_document_reparses demo_stroke demo_order unit_compare
           ttf_ext slash_join demo_inputs run _ 3 [19977] H1 H2 H3).
Defined.
